(** * IMU skeleton viewer: playback clock, pose resolver, calibration

    A shallow embedding of the animation and calibration core of the
    viewer: [src/components/skeleton-viewer.tsx] (the component
    [SkeletonViewer]), the calibration handlers of [src/app/page.tsx] and
    the skeleton schema of [lib/skeleton-constants]; and of what the
    charts are fed with: the statistics and normalisation of
    [lib/processing], the
    chart data of [src/components/sensor-chart.tsx] and the frame-rate
    monitor of [src/hooks/use-performance-monitor.ts].

    Modelling conventions.
    - JavaScript numbers are rationals ([Q]); equalities between them are
      stated with [==].  Where the rounding of IEEE doubles decides a
      count or an order (the playback clock, the sums and quotients of
      [lib/processing]) every operation is rounded by [Double.round64],
      and the results that can overflow are [Double.number]s, with the
      infinities and [NaN].  Positions and offsets are computed exactly.
    - Frame counters are integers ([Z]); the one place where the source can
      produce [NaN] for a counter ([% 0]) is modelled by [FrameNaN].
    - JavaScript objects used as dictionaries are [gmap string _].
    - React refs ([useRef]) are the fields of the record [Refs]; the locals
      of the animation effect's closure are the record [Clock].
    - A [TypeError] raised by reading a property of [undefined] is the
      constructor [Throws] of [Completion]; it carries the state reached
      when the exception left the function. *)

From Stdlib Require Import QArith Qround Qminmax Qabs Qpower ZArith Lia Lqa.
From stdpp Require Import gmap strings list fin_maps pretty.

(** ** Completions: normal return or thrown exception *)

Inductive Completion (A : Type) : Type :=
| Normal (a : A)
| Throws (a : A).
Arguments Normal {A} a.
Arguments Throws {A} a.

Definition stateOf {A} (c : Completion A) : A :=
  match c with Normal a | Throws a => a end.

Definition isNormal {A} (c : Completion A) : bool :=
  match c with Normal _ => true | Throws _ => false end.

Definition andThen {A} (c : Completion A) (k : A -> Completion A) : Completion A :=
  match c with
  | Normal a => k a
  | Throws a => Throws a
  end.

Notation "c ;;; k" := (andThen c k) (at level 61, left associativity).

(** A [for] loop over the index values [l]: the body runs for each element
    in turn and an exception leaves the loop at once. *)
Fixpoint forEach {I A} (body : I -> A -> Completion A) (l : list I) (a : A)
  : Completion A :=
  match l with
  | [] => Normal a
  | i :: l' => body i a ;;; forEach body l'
  end.

(** ** IEEE 754 doubles *)

Module Double.

Local Open Scope Q_scope.

(** The integer nearest to [num / den], for [0 < den]; of two equally
    near, the even one. *)
Definition roundEven (num den : Z) : Z :=
  let f := (num / den)%Z in
  let rem := (num mod den)%Z in
  match (2 * rem ?= den)%Z with
  | Lt => f
  | Gt => (f + 1)%Z
  | Eq => if Z.even f then f else (f + 1)%Z
  end.

(** The exponent [e] with [2^e <= n / d < 2^(e+1)], for [0 < n]. *)
Definition binade (n : Z) (d : positive) : Z :=
  let e := (Z.log2 n - Z.log2 (Zpos d))%Z in
  let below :=
    if (0 <=? e)%Z then (n <? Zpos d * 2 ^ e)%Z
    else (n * 2 ^ (- e) <? Zpos d)%Z in
  if below then (e - 1)%Z else e.

(** The multiple of [2^u] nearest to [n / d], ties to the even
    multiple, where [2^u] is the spacing of the doubles around [n / d]:
    53 significant bits, and the fixed spacing [2^-1074] of the
    subnormal numbers below [2^-1022]. *)
Definition roundPos (n : Z) (d : positive) : Q :=
  let u := (Z.max (binade n d) (-1022) - 52)%Z in
  if (0 <=? u)%Z then
    inject_Z (roundEven n (Zpos d * 2 ^ u) * 2 ^ u)
  else
    Qmake (roundEven (n * 2 ^ (- u)) (Zpos d)) (Z.to_pos (2 ^ (- u))).

(** Rounding to nearest, ties to even, with no bound on the exponent:
    the double that an operation with the exact result [q] returns, as
    long as that is finite. *)
Definition round64 (q : Q) : Q :=
  match Qnum q with
  | Z0 => 0
  | Zpos _ => roundPos (Qnum q) (Qden q)
  | Zneg _ => - roundPos (- Qnum q) (Qden q)
  end.

(** A rounded result of this size or more is an infinity. *)
Definition overflow : Q := inject_Z (2 ^ 1024).

(** A double.  Zero has no sign here. *)
Inductive number : Type :=
| Fin (q : Q)
| Inf
| NegInf
| NaN.

(** The double returned for the exact result [q]. *)
Definition ofQ (q : Q) : number :=
  let r := round64 q in
  if Qle_bool overflow r then Inf
  else if Qle_bool r (- overflow) then NegInf
  else Fin r.

Definition opp (a : number) : number :=
  match a with
  | Fin x => Fin (- x)
  | Inf => NegInf
  | NegInf => Inf
  | NaN => NaN
  end.

(** [a + b] *)
Definition add (a b : number) : number :=
  match a, b with
  | Fin x, Fin y => ofQ (x + y)
  | NaN, _ | _, NaN => NaN
  | Inf, NegInf | NegInf, Inf => NaN
  | Inf, _ | _, Inf => Inf
  | NegInf, _ | _, NegInf => NegInf
  end.

(** [a - b] *)
Definition sub (a b : number) : number := add a (opp b).

(** The sign of a finite number: an infinity times or over it. *)
Definition signed (x : Q) (a : number) : number :=
  match x ?= 0 with
  | Gt => a
  | Lt => opp a
  | Eq => NaN
  end.

(** [a * b] *)
Definition mul (a b : number) : number :=
  match a, b with
  | Fin x, Fin y => ofQ (x * y)
  | NaN, _ | _, NaN => NaN
  | Fin x, c | c, Fin x => signed x c
  | Inf, Inf | NegInf, NegInf => Inf
  | Inf, NegInf | NegInf, Inf => NegInf
  end.

(** [a / b].  A finite number over zero is an infinity whose sign
    depends on the sign of the zero, which is taken as positive: the
    functions below divide by a count or behind [|| 1], never by zero. *)
Definition div (a b : number) : number :=
  match a, b with
  | Fin x, Fin y => if Qeq_bool y 0 then signed x Inf else ofQ (x / y)
  | NaN, _ | _, NaN => NaN
  | Fin _, (Inf | NegInf) => Fin 0
  | c, Fin y => if Qeq_bool y 0 then c else signed y c
  | (Inf | NegInf), (Inf | NegInf) => NaN
  end.

(** [x || 1] *)
Definition orOne (a : number) : number :=
  match a with
  | Fin x => if Qeq_bool x 0 then Fin 1 else a
  | NaN => Fin 1
  | _ => a
  end.

End Double.

(** ** Vectors (THREE.Vector3) *)

Record Vec3 : Type := mkVec3 { vx : Q; vy : Q; vz : Q }.

Definition vzero : Vec3 := mkVec3 0 0 0.

(** Component-wise equality of rationals. *)
Definition veq (a b : Vec3) : Prop :=
  (vx a == vx b /\ vy a == vy b /\ vz a == vz b)%Q.

Definition veqb (a b : Vec3) : bool :=
  Qeq_bool (vx a) (vx b) && Qeq_bool (vy a) (vy b) && Qeq_bool (vz a) (vz b).

(** ** The dataset payload *)

(** [frames[f][i]] is a point [[x, y, z]]; the lengths of [frames] and of
    each frame are not tied to [numFrames] and [numSensors], as in the
    source, where they are independent fields of the JSON payload. *)
Record DatasetPayload : Type := {
  frameRate : Q;
  sensorNames : list string;
  edges : list (string * string);
  numFrames : Z;
  numSensors : nat;
  frames : list (list Vec3)
}.

(** Calibration: joint name to [{ positionOffset?: [x, y, z] }]. *)
Record CalEntry : Type := { positionOffset : option Vec3 }.

Abbreviation Calibration := (gmap string CalEntry).

(** ** lib/skeleton-constants *)

Module SkeletonConstants.

Definition SENSOR_NAMES : list string :=
  [ "head"; "sternum"; "upper_arm_left"; "upper_arm_right"; "lumbar";
    "wrist_left"; "wrist_right"; "hand_left"; "hand_right";
    "upper_leg_left"; "upper_leg_right"; "lower_leg_left";
    "lower_leg_right"; "foot_left"; "foot_right" ].

Definition EDGES : list (string * string) :=
  [ ("head", "sternum");
    ("sternum", "lumbar");
    ("sternum", "upper_arm_left");
    ("sternum", "upper_arm_right");
    ("upper_arm_left", "wrist_left");
    ("wrist_left", "hand_left");
    ("upper_arm_right", "wrist_right");
    ("wrist_right", "hand_right");
    ("lumbar", "upper_leg_left");
    ("lumbar", "upper_leg_right");
    ("upper_leg_left", "lower_leg_left");
    ("lower_leg_left", "foot_left");
    ("upper_leg_right", "lower_leg_right");
    ("lower_leg_right", "foot_right") ].

(** [Array.prototype.includes] on an array of strings. *)
Definition includes (names : list string) (name : string) : bool :=
  existsb (String.eqb name) names.

Record Validation : Type := {
  isValid : bool;
  missingSensors : list string;
  missingEdges : list (string * string)
}.

(** [data.edges.some(([ea, eb]) => (ea === a && eb === b) || (ea === b && eb === a))] *)
Definition hasEdge (es : list (string * string)) (e : string * string) : bool :=
  existsb (fun '(ea, eb) =>
             (String.eqb ea e.1 && String.eqb eb e.2)
             || (String.eqb ea e.2 && String.eqb eb e.1)) es.

Definition validateSkeletonStructure
    (names : list string) (es : list (string * string)) : Validation :=
  let missingS := List.filter (fun name => negb (includes names name)) SENSOR_NAMES in
  let missingE := List.filter (fun e => negb (hasEdge es e)) EDGES in
  {| isValid := (length missingS =? 0)%nat && (length missingE =? 0)%nat;
     missingSensors := missingS;
     missingEdges := missingE |}.



End SkeletonConstants.

(** ** components/skeleton-viewer.tsx *)

Module SkeletonViewer.
Import SkeletonConstants.

Definition SCALE_FACTOR : Q := 1 # 100.

(** [x < y] on JavaScript numbers. *)
Definition Qltb (x y : Q) : bool := negb (Qle_bool y x).

(** *** Frame counters *)

(** The value of [currentFrameRef.current] and of a [frameIndex]
    argument: an integer, or [NaN]. *)
Inductive FrameNumber : Type :=
| Frame (k : Z)
| FrameNaN.

(** [a % n] for an integer or [NaN] [a] and an integer [n]: the sign of
    the result follows the dividend, and the remainder by zero is [NaN]. *)
Definition jsRem (a : FrameNumber) (n : Z) : FrameNumber :=
  match a with
  | Frame k => if (n =? 0)%Z then FrameNaN else Frame (Z.rem k n)
  | FrameNaN => FrameNaN
  end.

Definition jsAdd1 (a : FrameNumber) : FrameNumber :=
  match a with
  | Frame k => Frame (k + 1)
  | FrameNaN => FrameNaN
  end.

(** [data.frames[frameIndex]]: [None] stands for [undefined]. *)
Definition frameAt (d : DatasetPayload) (f : FrameNumber) : option (list Vec3) :=
  match f with
  | Frame k => if (0 <=? k)%Z then frames d !! Z.to_nat k else None
  | FrameNaN => None
  end.

(** [array.indexOf(name)]: [None] stands for [-1]. *)
Fixpoint indexOf (names : list string) (name : string) : option nat :=
  match names with
  | [] => None
  | n :: rest =>
      if String.eqb n name then Some 0%nat
      else option_map S (indexOf rest name)
  end.

(** [new Map(names.map((n, i) => [n, i]))]: later entries overwrite
    earlier ones. *)
Definition nameToIdx (names : list string) : gmap string nat :=
  fold_left (fun m '(i, n) => <[n := i]> m) (imap (fun i n => (i, n)) names) ∅.

(** The memo [edgeIndexPairs]: the canonical edges whose two endpoints
    are found among the dataset's sensor names, as index pairs. *)
Definition edgeLookup (names : list string) (e : string * string)
  : option (nat * nat) :=
  match nameToIdx names !! e.1, nameToIdx names !! e.2 with
  | Some idxA, Some idxB => Some (idxA, idxB)
  | _, _ => None
  end.

(** [EDGES.map(...)] yields [null] for an edge with a missing endpoint,
    and [.filter(edge => edge !== null)] then drops these. *)
Definition edgeIndexPairs (d : DatasetPayload) : list (nat * nat) :=
  omap id (map (edgeLookup (sensorNames d)) EDGES).

(** The memo [skeletonValidation]. *)
Definition skeletonValidation (d : DatasetPayload) : Validation :=
  validateSkeletonStructure (sensorNames d) (edges d).

(** *** Refs *)

(** The camera object: its position, and the tangent of half its
    vertical field of view, [Math.tan(fov * (Math.PI / 180) / 2)], which
    the framing divides by ([fov] itself is the constant 60, whose
    half has a positive tangent). *)
Record Camera : Type := { position : Vec3; tanHalfFov : Q }.

Record Refs : Type := {
  cameraRef : option Camera;          (* also stands for sceneRef: set together *)
  controlsRef : option Vec3;          (* the orbit controls' target *)
  hasAutoCentered : bool;             (* scene['__hasAutoCentered'] *)
  jointsRef : list Vec3;              (* mesh positions *)
  bonesRef : list (Vec3 * Vec3);      (* line end points *)
  jointPositionsRef : list Vec3;
  currentFrameRef : FrameNumber;
  isDraggingRef : bool;
  isSeekingRef : bool;
  selectedJointRef : option string;
  calibrationRef : Calibration;
  framings : nat;                     (* ghost: how often the framing block ran *)
  frameChanges : list FrameNumber     (* ghost: arguments of onFrameChange, latest first *)
}.

Definition setJointPositions (f : list Vec3 -> list Vec3) (r : Refs) : Refs :=
  {| cameraRef := cameraRef r; controlsRef := controlsRef r;
     hasAutoCentered := hasAutoCentered r; jointsRef := jointsRef r;
     bonesRef := bonesRef r; jointPositionsRef := f (jointPositionsRef r);
     currentFrameRef := currentFrameRef r; isDraggingRef := isDraggingRef r;
     isSeekingRef := isSeekingRef r; selectedJointRef := selectedJointRef r;
     calibrationRef := calibrationRef r; framings := framings r;
     frameChanges := frameChanges r |}.

Definition setJoints (f : list Vec3 -> list Vec3) (r : Refs) : Refs :=
  {| cameraRef := cameraRef r; controlsRef := controlsRef r;
     hasAutoCentered := hasAutoCentered r; jointsRef := f (jointsRef r);
     bonesRef := bonesRef r; jointPositionsRef := jointPositionsRef r;
     currentFrameRef := currentFrameRef r; isDraggingRef := isDraggingRef r;
     isSeekingRef := isSeekingRef r; selectedJointRef := selectedJointRef r;
     calibrationRef := calibrationRef r; framings := framings r;
     frameChanges := frameChanges r |}.

Definition setBones (f : list (Vec3 * Vec3) -> list (Vec3 * Vec3)) (r : Refs) : Refs :=
  {| cameraRef := cameraRef r; controlsRef := controlsRef r;
     hasAutoCentered := hasAutoCentered r; jointsRef := jointsRef r;
     bonesRef := f (bonesRef r); jointPositionsRef := jointPositionsRef r;
     currentFrameRef := currentFrameRef r; isDraggingRef := isDraggingRef r;
     isSeekingRef := isSeekingRef r; selectedJointRef := selectedJointRef r;
     calibrationRef := calibrationRef r; framings := framings r;
     frameChanges := frameChanges r |}.

(** The writes of the framing block: camera position, orbit target and
    the flag. *)
Definition setFraming (cam : Camera) (target : Vec3) (r : Refs) : Refs :=
  {| cameraRef := Some cam; controlsRef := Some target;
     hasAutoCentered := true; jointsRef := jointsRef r;
     bonesRef := bonesRef r; jointPositionsRef := jointPositionsRef r;
     currentFrameRef := currentFrameRef r; isDraggingRef := isDraggingRef r;
     isSeekingRef := isSeekingRef r; selectedJointRef := selectedJointRef r;
     calibrationRef := calibrationRef r; framings := S (framings r);
     frameChanges := frameChanges r |}.

Definition setCurrentFrame (f : FrameNumber) (r : Refs) : Refs :=
  {| cameraRef := cameraRef r; controlsRef := controlsRef r;
     hasAutoCentered := hasAutoCentered r; jointsRef := jointsRef r;
     bonesRef := bonesRef r; jointPositionsRef := jointPositionsRef r;
     currentFrameRef := f; isDraggingRef := isDraggingRef r;
     isSeekingRef := isSeekingRef r; selectedJointRef := selectedJointRef r;
     calibrationRef := calibrationRef r; framings := framings r;
     frameChanges := frameChanges r |}.

Definition setIsDragging (b : bool) (r : Refs) : Refs :=
  {| cameraRef := cameraRef r; controlsRef := controlsRef r;
     hasAutoCentered := hasAutoCentered r; jointsRef := jointsRef r;
     bonesRef := bonesRef r; jointPositionsRef := jointPositionsRef r;
     currentFrameRef := currentFrameRef r; isDraggingRef := b;
     isSeekingRef := isSeekingRef r; selectedJointRef := selectedJointRef r;
     calibrationRef := calibrationRef r; framings := framings r;
     frameChanges := frameChanges r |}.

Definition setIsSeeking (b : bool) (r : Refs) : Refs :=
  {| cameraRef := cameraRef r; controlsRef := controlsRef r;
     hasAutoCentered := hasAutoCentered r; jointsRef := jointsRef r;
     bonesRef := bonesRef r; jointPositionsRef := jointPositionsRef r;
     currentFrameRef := currentFrameRef r; isDraggingRef := isDraggingRef r;
     isSeekingRef := b; selectedJointRef := selectedJointRef r;
     calibrationRef := calibrationRef r; framings := framings r;
     frameChanges := frameChanges r |}.

Definition setSelectedJoint (j : option string) (r : Refs) : Refs :=
  {| cameraRef := cameraRef r; controlsRef := controlsRef r;
     hasAutoCentered := hasAutoCentered r; jointsRef := jointsRef r;
     bonesRef := bonesRef r; jointPositionsRef := jointPositionsRef r;
     currentFrameRef := currentFrameRef r; isDraggingRef := isDraggingRef r;
     isSeekingRef := isSeekingRef r; selectedJointRef := j;
     calibrationRef := calibrationRef r; framings := framings r;
     frameChanges := frameChanges r |}.

Definition setCalibrationRef (c : Calibration) (r : Refs) : Refs :=
  {| cameraRef := cameraRef r; controlsRef := controlsRef r;
     hasAutoCentered := hasAutoCentered r; jointsRef := jointsRef r;
     bonesRef := bonesRef r; jointPositionsRef := jointPositionsRef r;
     currentFrameRef := currentFrameRef r; isDraggingRef := isDraggingRef r;
     isSeekingRef := isSeekingRef r; selectedJointRef := selectedJointRef r;
     calibrationRef := c; framings := framings r;
     frameChanges := frameChanges r |}.

(** [if (onFrameChange) onFrameChange(frame)]: the host's listener is
    recorded as a log of its arguments. *)
Definition onFrameChange (f : FrameNumber) (r : Refs) : Refs :=
  {| cameraRef := cameraRef r; controlsRef := controlsRef r;
     hasAutoCentered := hasAutoCentered r; jointsRef := jointsRef r;
     bonesRef := bonesRef r; jointPositionsRef := jointPositionsRef r;
     currentFrameRef := currentFrameRef r; isDraggingRef := isDraggingRef r;
     isSeekingRef := isSeekingRef r; selectedJointRef := selectedJointRef r;
     calibrationRef := calibrationRef r; framings := framings r;
     frameChanges := f :: frameChanges r |}.

(** *** Pose resolver: [updateSkeleton] *)

Local Open Scope Q_scope.

Definition scaled (p : Vec3) : Vec3 :=
  mkVec3 (vx p * SCALE_FACTOR) (vy p * SCALE_FACTOR) (vz p * SCALE_FACTOR).

Definition vadd (a b : Vec3) : Vec3 :=
  mkVec3 (vx a + vx b) (vy a + vy b) (vz a + vz b).

(** A non-empty string is truthy. *)
Definition truthy (s : string) : bool := negb (String.eqb s "").

(** [selectedJointRef.current ? data.sensorNames.indexOf(...) : -1] *)
Definition selectedIndex (d : DatasetPayload) (r : Refs) : option nat :=
  match selectedJointRef r with
  | Some j => if truthy j then indexOf (sensorNames d) j else None
  | None => None
  end.

(** The position the loop body computes for joint [i] from the frame
    point [p]: the scaled point, plus the scaled calibration offset when
    the joint has a name and the calibration has an offset for it. *)
Definition resolvedPosition (d : DatasetPayload) (cal : Calibration)
    (i : nat) (p : Vec3) : Vec3 :=
  let pos := scaled p in
  match sensorNames d !! i with
  | Some jointName =>
      if truthy jointName then
        match cal !! jointName with
        | Some {| positionOffset := Some off |} => vadd pos (scaled off)
        | _ => pos
        end
      else pos
  | None => pos
  end.

(** One iteration of the joint loop.  [pos.set] fails when
    [jointPositions[i]] or [frame[i]] is undefined; the copy into the
    mesh fails when [jointsRef.current[i]] is undefined, after
    [jointPositions[i]] has been written.  The mesh of the selected
    joint is left alone while it is dragged. *)
Definition jointStep (d : DatasetPayload) (frame : list Vec3)
    (selectedIdx : option nat) (i : nat) (r : Refs) : Completion Refs :=
  match jointPositionsRef r !! i, frame !! i with
  | Some _, Some p =>
      let pos := resolvedPosition d (calibrationRef r) i p in
      let r1 := setJointPositions (fun ps => <[i := pos]> ps) r in
      if bool_decide (selectedIdx = Some i) && isDraggingRef r then Normal r1
      else
        match jointsRef r !! i with
        | Some _ => Normal (setJoints (fun js => <[i := pos]> js) r1)
        | None => Throws r1
        end
  | _, _ => Throws r
  end.

(** One iteration of the bone loop, for the [i]-th index pair [(a, b)]:
    the line's six coordinates are written in order, so a missing second
    end point leaves the first one written. *)
Definition boneStep (ie : nat * (nat * nat)) (r : Refs) : Completion Refs :=
  let '(i, (a, b)) := ie in
  match bonesRef r !! i with
  | None => Throws r
  | Some (_, qb) =>
      match jointPositionsRef r !! a with
      | None => Throws r
      | Some pa =>
          match jointPositionsRef r !! b with
          | None => Throws (setBones (fun bs => <[i := (pa, qb)]> bs) r)
          | Some pb => Normal (setBones (fun bs => <[i := (pa, pb)]> bs) r)
          end
      end
  end.

(** [new THREE.Box3().setFromPoints(points)]: component-wise minimum and
    maximum; [None] is the empty box. *)
Fixpoint box3 (ps : list Vec3) : option (Vec3 * Vec3) :=
  match ps with
  | [] => None
  | p :: rest =>
      match box3 rest with
      | None => Some (p, p)
      | Some (lo, hi) =>
          Some (mkVec3 (Qmin (vx p) (vx lo)) (Qmin (vy p) (vy lo)) (Qmin (vz p) (vz lo)),
                mkVec3 (Qmax (vx p) (vx hi)) (Qmax (vy p) (vy hi)) (Qmax (vz p) (vz hi)))
      end
  end.

(** [box.getCenter] and [box.getSize]; both give the zero vector for the
    empty box. *)
Definition getCenter (b : option (Vec3 * Vec3)) : Vec3 :=
  match b with
  | Some (lo, hi) =>
      mkVec3 ((vx lo + vx hi) * (1 # 2)) ((vy lo + vy hi) * (1 # 2))
             ((vz lo + vz hi) * (1 # 2))
  | None => vzero
  end.

Definition getSize (b : option (Vec3 * Vec3)) : Vec3 :=
  match b with
  | Some (lo, hi) => mkVec3 (vx hi - vx lo) (vy hi - vy lo) (vz hi - vz lo)
  | None => vzero
  end.

(** The block "auto-center camera on first frame only per dataset".
    [controls.update()] keeps the camera where it was just put. *)
Definition autoCenter (frameIndex : FrameNumber) (r : Refs) : Refs :=
  match frameIndex, cameraRef r, controlsRef r with
  | Frame 0, Some cam, Some _ =>
      if hasAutoCentered r then r
      else
        let box := box3 (jointPositionsRef r) in
        let center := getCenter box in
        let size := getSize box in
        let maxDim := Qmax (Qmax (vx size) (vy size)) (vz size) in
        let distance :=
          (maxDim * SCALE_FACTOR) / (2 * tanHalfFov cam) * (18 # 10) in
        let pos := mkVec3 (vx center + distance * (8 # 10))
                          (vy center + distance * (6 # 10))
                          (vz center + distance * (8 # 10)) in
        setFraming {| position := pos; tanHalfFov := tanHalfFov cam |} center r
  | _, _, _ => r
  end.

(** [updateSkeleton(frameIndex)], for the dataset and the memo
    [edgeIndexPairs] of the render that created the closure.  The final
    block of the source, which places the raw-sensor glyphs, writes only
    to the glyph objects; their length is [vectorGlyphLength] below. *)
Definition updateSkeleton (data : option DatasetPayload)
    (frameIndex : FrameNumber) (r : Refs) : Completion Refs :=
  match data, cameraRef r with
  | Some d, Some _ =>
      if (length (jointsRef r) =? 0)%nat || (length (bonesRef r) =? 0)%nat
      then Normal r
      else
        match frameAt d frameIndex with
        | None => Normal r
        | Some frame =>
            forEach (jointStep d frame (selectedIndex d r)) (seq 0 (numSensors d)) r
            ;;; forEach boneStep (imap (fun i e => (i, e)) (edgeIndexPairs d))
            ;;; (fun r' => Normal (autoCenter frameIndex r'))
        end
  | _, _ => Normal r
  end.

(** *** Raw-sensor glyphs *)

Inductive VectorChannel : Type := Gyroscope | Accelerometer | Magnetometer.

Definition glyphGain (c : VectorChannel) : Q :=
  match c with
  | Gyroscope => 1 # 10
  | Accelerometer => 1 # 100
  | Magnetometer => 1 # 1000
  end.

Definition glyphMinLength (c : VectorChannel) : Q :=
  match c with
  | Gyroscope => 5 # 100
  | Accelerometer => 3 # 100
  | Magnetometer => 2 # 100
  end.

(** [const len = Math.max(dir.length() * gain, min)], the argument of
    [setLength]; [magnitude] is the value of [dir.length()], the
    Euclidean norm of the sample. *)
Definition vectorGlyphLength (c : VectorChannel) (magnitude : Q) : Q :=
  Qmax (magnitude * glyphGain c) (glyphMinLength c).

(** *** Drag: [getBasePositionForJoint] and [handleTransformChange] *)

Definition getBasePositionForJoint (data : option DatasetPayload)
    (jointIndex : nat) (frameIndex : FrameNumber) : Vec3 :=
  match data with
  | None => vzero
  | Some d =>
      match frameAt d frameIndex with
      | None => vzero
      | Some f =>
          match f !! jointIndex with
          | None => vzero
          | Some p => scaled p
          end
      end
  end.

(** The arguments with which [handleTransformChange] calls
    [onCalibrationChange], or [None] when it returns without calling.
    The handler is created by the initialisation effect, whose dependency
    list is empty: [data] is the dataset of the render in which the
    viewer was mounted, whatever dataset is shown later. *)
Definition handleTransformChange (data : option DatasetPayload) (r : Refs)
  : option (string * Vec3) :=
  match data, selectedJointRef r with
  | Some d, Some selectedJnt =>
      if truthy selectedJnt then
        match indexOf (sensorNames d) selectedJnt with
        | None => None
        | Some jointIdx =>
            match jointsRef r !! jointIdx with
            | None => None
            | Some obj =>
                let base := getBasePositionForJoint data jointIdx (currentFrameRef r) in
                let dx := (vx obj - vx base) / SCALE_FACTOR in
                let dy := (vy obj - vy base) / SCALE_FACTOR in
                let dz := (vz obj - vz base) / SCALE_FACTOR in
                Some (selectedJnt, mkVec3 dx dy dz)
            end
        end
      else None
  | _, _ => None
  end.

(** *** Playback clock: the animation effect *)

(** The props the animation effect closes over. *)
Record Props : Type := { isPlaying : bool; targetFps : Q; isSafari : bool }.

(** The locals of the effect's closure; [rafId] counts the calls of
    [requestAnimationFrame]. *)
Record Clock : Type := {
  lastTime : Q;
  accumulator : Q;
  frameSkip : Z;
  rafId : nat
}.

(** [targetFps > 0 ? targetFps : (data.frameRate || 60)] *)
Definition fps (d : DatasetPayload) (p : Props) : Q :=
  if Qltb 0 (targetFps p) then targetFps p
  else if Qeq_bool (frameRate d) 0 then 60 else frameRate d.

(** [1000 / fps] *)
Definition intervalMs (d : DatasetPayload) (p : Props) : Q :=
  Double.round64 (1000 / fps d p).

Definition maxFrameSkip (p : Props) : nat := if isSafari p then 3%nat else 5%nat.

(** The variables the [while] loop of [tick] reads and writes. *)
Record LoopState : Type := {
  acc : Q;                 (* accumulator *)
  framesToUpdate : nat;
  loopRefs : Refs
}.

(** [accumulator >= intervalMs && framesToUpdate < maxFrameSkip] *)
Definition loopCondition (d : DatasetPayload) (p : Props) (s : LoopState) : bool :=
  Qle_bool (intervalMs d p) (acc s) && (framesToUpdate s <? maxFrameSkip p)%nat.

(** [(currentFrameRef.current + 1) % data.numFrames] *)
Definition advanceFrame (d : DatasetPayload) (f : FrameNumber) : FrameNumber :=
  jsRem (jsAdd1 f) (numFrames d).

(** The loop body.  An exception of [updateSkeleton] leaves the loop
    with the accumulator, the counter and the frame already updated. *)
Definition loopBody (d : DatasetPayload) (p : Props) (s : LoopState)
  : Completion LoopState :=
  let acc' := Double.round64 (acc s - intervalMs d p) in
  let n' := S (framesToUpdate s) in
  let r := loopRefs s in
  let r1 := setCurrentFrame (advanceFrame d (currentFrameRef r)) r in
  match updateSkeleton (Some d) (currentFrameRef r1) r1 with
  | Normal r2 =>
      Normal {| acc := acc'; framesToUpdate := n';
                loopRefs := onFrameChange (currentFrameRef r2) r2 |}
  | Throws r2 => Throws {| acc := acc'; framesToUpdate := n'; loopRefs := r2 |}
  end.

(** The [while] loop, unfolded at most [fuel] times.  [tickLoop] runs it
    with [maxFrameSkip] units, which the loop cannot use up before its
    own condition fails, as each iteration increments [framesToUpdate]. *)
Fixpoint catchUp (d : DatasetPayload) (p : Props) (fuel : nat) (s : LoopState)
  : Completion LoopState :=
  match fuel with
  | O => Normal s
  | S fuel' =>
      if loopCondition d p s then
        match loopBody d p s with
        | Normal s' => catchUp d p fuel' s'
        | Throws s' => Throws s'
        end
      else Normal s
  end.

(** The timing part of a playing [tick], up to the end of the loop. *)
Definition tickLoop (d : DatasetPayload) (p : Props) (time : Q) (c : Clock)
    (r : Refs) : Completion LoopState :=
  let delta := Double.round64 (time - lastTime c) in
  catchUp d p (maxFrameSkip p)
    {| acc := Double.round64 (accumulator c + delta); framesToUpdate := 0%nat;
       loopRefs := r |}.

Record Viewer : Type := { props : Props; clock : Clock; refs : Refs }.

(** [tick(time)], for the dataset [d] of the effect (the effect does not
    start the timer when [data] is null).  The product [intervalMs * 2]
    is not rounded: doubling a double is exact. *)
Definition tick (d : DatasetPayload) (time : Q) (v : Viewer) : Completion Viewer :=
  let p := props v in
  let c := clock v in
  let r := refs v in
  let id := S (rafId c) in
  if negb (isPlaying p) || isSeekingRef r || isDraggingRef r then
    Normal {| props := p;
              clock := {| lastTime := time; accumulator := accumulator c;
                          frameSkip := frameSkip c; rafId := id |};
              refs := r |}
  else
    match tickLoop d p time c r with
    | Normal s =>
        let behind :=
          (framesToUpdate s =? 0)%nat && Qltb (intervalMs d p * 2) (acc s) in
        Normal {| props := p;
                  clock := {| lastTime := time; accumulator := acc s;
                              frameSkip := if behind then (frameSkip c + 1)%Z else 0%Z;
                              rafId := id |};
                  refs := loopRefs s |}
    | Throws s =>
        Throws {| props := p;
                  clock := {| lastTime := time; accumulator := acc s;
                              frameSkip := frameSkip c; rafId := id |};
                  refs := loopRefs s |}
    end.

(** The animation effect runs again when [isPlaying] or [targetFps]
    changes: the old timer is cancelled and a new closure starts with
    [lastTime = performance.now()]. *)
Definition restartClock (p : Props) (now : Q) (v : Viewer) : Viewer :=
  {| props := p;
     clock := {| lastTime := now; accumulator := 0; frameSkip := 0%Z;
                 rafId := S (rafId (clock v)) |};
     refs := refs v |}.

(** *** The other effects *)

(** [Math.max(0, Math.min(seekFrame, data?.numFrames ? data.numFrames - 1 : 0))] *)
Definition seekTarget (data : option DatasetPayload) (seekFrame : Z) : Z :=
  let top :=
    match data with
    | Some d => if (numFrames d =? 0)%Z then 0%Z else (numFrames d - 1)%Z
    | None => 0%Z
    end in
  Z.max 0 (Z.min seekFrame top).

(** "Handle seeking". *)
Definition seekEffect (data : option DatasetPayload) (seekFrame : option Z)
    (r : Refs) : Completion Refs :=
  match seekFrame with
  | Some s =>
      let r1 := setIsSeeking true r in
      let frame := Frame (seekTarget data s) in
      updateSkeleton data frame (setCurrentFrame frame r1)
      ;;; (fun r2 => Normal (onFrameChange frame r2))
  | None => Normal (setIsSeeking false r)
  end.

(** "Create skeleton geometry when data changes": fresh meshes, lines
    and positions at the origin, frame 0, the framing flag cleared, then
    the initial pose. *)
Definition createSkeleton (data : option DatasetPayload) (r : Refs)
  : Completion Refs :=
  match cameraRef r, data with
  | Some _, Some d =>
      updateSkeleton data (Frame 0)
        {| cameraRef := cameraRef r; controlsRef := controlsRef r;
           hasAutoCentered := false;
           jointsRef := replicate (numSensors d) vzero;
           bonesRef := replicate (length (edgeIndexPairs d)) (vzero, vzero);
           jointPositionsRef := replicate (numSensors d) vzero;
           currentFrameRef := Frame 0; isDraggingRef := isDraggingRef r;
           isSeekingRef := isSeekingRef r; selectedJointRef := selectedJointRef r;
           calibrationRef := calibrationRef r; framings := framings r;
           frameChanges := frameChanges r |}
  | _, _ => Normal r
  end.

(** The ref sync of [calibration] followed by "re-apply skeleton pose
    immediately when calibration changes". *)
Definition calibrationEffect (data : option DatasetPayload) (cal : Calibration)
    (r : Refs) : Completion Refs :=
  let r1 := setCalibrationRef cal r in
  match data with
  | Some _ =>
      if isDraggingRef r1 then Normal r1
      else updateSkeleton data (currentFrameRef r1) r1
  | None => Normal r1
  end.

(** The manipulator moves the mesh it is attached to, the mesh of the
    selected joint. *)
Definition moveAttached (d : DatasetPayload) (m : Vec3) (r : Refs) : Refs :=
  match selectedIndex d r with
  | Some idx => setJoints (fun js => <[idx := m]> js) r
  | None => r
  end.

(** *** The viewer as a transition system, for one dataset *)

Inductive Event : Type :=
| AnimationFrame (time : Q)                (* the timer fires: [tick(time)] *)
| PlaybackChanged (p : Props) (now : Q)    (* play, pause or a new target rate *)
| SeekFrameChanged (seekFrame : option Z)  (* the [seekFrame] prop changes *)
| DraggingChanged (value : bool)           (* 'dragging-changed' *)
| SelectedJointChanged (j : option string)
| CalibrationChanged (cal : Calibration)   (* the [calibration] prop changes *)
| ObjectMoved (m : Vec3).                  (* the manipulator moves its mesh *)

Definition withRefs (v : Viewer) (c : Completion Refs) : Completion Viewer :=
  match c with
  | Normal r => Normal {| props := props v; clock := clock v; refs := r |}
  | Throws r => Throws {| props := props v; clock := clock v; refs := r |}
  end.

Definition step (d : DatasetPayload) (v : Viewer) (e : Event) : Completion Viewer :=
  match e with
  | AnimationFrame time => tick d time v
  | PlaybackChanged p now => Normal (restartClock p now v)
  | SeekFrameChanged s => withRefs v (seekEffect (Some d) s (refs v))
  | DraggingChanged b => withRefs v (Normal (setIsDragging b (refs v)))
  | SelectedJointChanged j => withRefs v (Normal (setSelectedJoint j (refs v)))
  | CalibrationChanged cal => withRefs v (calibrationEffect (Some d) cal (refs v))
  | ObjectMoved m => withRefs v (Normal (moveAttached d m (refs v)))
  end.

(** A run of events; after an exception the callback or effect is over
    and the next event finds the state it left. *)
Definition run (d : DatasetPayload) (v : Viewer) (es : list Event) : Viewer :=
  fold_left (fun v e => stateOf (step d v e)) es v.

(** *** The render loop [animate] while a joint is dragged *)

(** [jointPositions[i].copy(jointsRef.current[i].position)] *)
Definition copyMeshStep (i : nat) (r : Refs) : Completion Refs :=
  match jointPositionsRef r !! i, jointsRef r !! i with
  | Some _, Some m => Normal (setJointPositions (fun ps => <[i := m]> ps) r)
  | _, _ => Throws r
  end.

(** One line of the loop over [bonesRef.current]: destructuring
    [edgeIndexPairs[i]] fails when there is no such pair; the rest is as
    in [updateSkeleton]. *)
Definition dragBoneStep (pairs : list (nat * nat)) (i : nat) (r : Refs)
  : Completion Refs :=
  match pairs !! i with
  | Some e => boneStep (i, e) r
  | None => Throws r
  end.

(** The block of [animate] that runs when a drag is active: the mesh
    positions are copied into [jointPositions] and the lines are redrawn
    from them.  [pairs] is the memo [edgeIndexPairs] of the render in
    which the initialisation effect ran. *)
Definition animateSync (pairs : list (nat * nat)) (r : Refs) : Completion Refs :=
  if isDraggingRef r && negb (length (jointsRef r) =? 0)%nat
     && negb (length (bonesRef r) =? 0)%nat
  then
    forEach copyMeshStep (seq 0 (length (jointsRef r))) r
    ;;; forEach (dragBoneStep pairs) (seq 0 (length (bonesRef r)))
  else Normal r.

(** *** Pointer coordinates: [updatePointer] *)

Record Point : Type := { clientX : Q; clientY : Q }.

(** The events the handler is registered for: a touch event has the
    lists [touches] and [changedTouches] and no [clientX]; pointer and
    mouse events carry their own coordinates. *)
Inductive InputEvent : Type :=
| TouchInput (touches changedTouches : list Point)
| PointerInput (p : Point)
| MouseInput (p : Point).

(** [renderer.domElement.getBoundingClientRect()] *)
Record Rect : Type := { rectLeft : Q; rectTop : Q; rectWidth : Q; rectHeight : Q }.

(** The pair [clientX, clientY] the handler picks; [None] when both are
    [undefined], for a touch event without any touch. *)
Definition eventPoint (e : InputEvent) : option Point :=
  match e with
  | TouchInput (p :: _) _ => Some p
  | TouchInput [] (p :: _) => Some p
  | TouchInput [] [] => None
  | PointerInput p => Some p
  | MouseInput p => Some p
  end.

(** [x / rect.width] with
    [x = Math.max(0, Math.min(rect.width, clientX - rect.left))], and the
    same for [y]; [None] stands for [NaN], which [0 / 0] gives for an
    element of size zero. *)
Definition clampedRatio (size origin client : Q) : option Q :=
  let x := Qmax 0 (Qmin size (client - origin)) in
  if Qeq_bool size 0 then None else Some (x / size).

(** The values written to [pointerRef.current.x] and [.y]:
    [(x / rect.width) * 2 - 1] and [-(y / rect.height) * 2 + 1]. *)
Definition updatePointer (rect : Rect) (e : InputEvent) : option Q * option Q :=
  match eventPoint e with
  | Some p =>
      (option_map (fun q => q * 2 - 1)
         (clampedRatio (rectWidth rect) (rectLeft rect) (clientX p)),
       option_map (fun q => - q * 2 + 1)
         (clampedRatio (rectHeight rect) (rectTop rect) (clientY p)))
  | None => (None, None)
  end.

End SkeletonViewer.

(** ** app/page.tsx: the calibration store *)

Module Page.

(** The empty object [{}] as a calibration entry. *)
Definition emptyEntry : CalEntry := {| positionOffset := None |}.

(** [{ ...entry, positionOffset: offset }]: the entry's fields with
    [positionOffset] replaced; an entry has no other field. *)
Definition withPositionOffset (entry : CalEntry) (offset : Vec3) : CalEntry :=
  {| positionOffset := Some offset |}.

(** The state update of the viewer's [onCalibrationChange] callback:
    [{ ...prev, [joint]: { ...(prev[joint] || {}), positionOffset: offset } }]. *)
Definition onCalibrationChange (joint : string) (offset : Vec3)
    (prev : Calibration) : Calibration :=
  <[joint := withPositionOffset (default emptyEntry (prev !! joint)) offset]> prev.

(** *** Calibration import *)

(** A number as [JSON.parse] can return it: an overflowing literal such
    as [1e999] parses to an infinity. *)
Inductive JsNumber : Type :=
| Finite (q : Q)
| PosInfinity
| NegInfinity
| NaN.

#[warnings="-register-all"]
Inductive Json : Type :=
| JNull
| JBool (b : bool)
| JNumber (n : JsNumber)
| JString (s : string)
| JArray (items : list Json)
| JObject (members : gmap string Json).

(** [!v] *)
Definition falsy (v : Json) : bool :=
  match v with
  | JNull => true
  | JBool b => negb b
  | JNumber (Finite q) => Qeq_bool q 0
  | JNumber NaN => true
  | JNumber _ => false
  | JString s => String.eqb s ""
  | JArray _ | JObject _ => false
  end.

(** [typeof v === 'object'] *)
Definition isObject (v : Json) : bool :=
  match v with
  | JNull | JArray _ | JObject _ => true
  | _ => false
  end.

(** The pairs [(key, raw[key])] for [key] in [Object.keys(raw)]; an
    array has its indices as keys. *)
Definition ownEntries (v : Json) : list (string * Json) :=
  match v with
  | JObject members => map_to_list members
  | JArray items => imap (fun i item => (pretty i, item)) items
  | _ => []
  end.

(** [typeof v === 'number' && Number.isFinite(v)] *)
Definition isFiniteNumber (v : Json) : bool :=
  match v with
  | JNumber (Finite _) => true
  | _ => false
  end.

(** [entry.positionOffset]: a member of an object; an array or a
    primitive has no such property. *)
Definition getMember (v : Json) (name : string) : option Json :=
  match v with
  | JObject members => members !! name
  | _ => None
  end.

(** [off[i]] as a number, for an array that passed the checks. *)
Definition numberAt (off : list Json) (i : nat) : Q :=
  match off !! i with
  | Some (JNumber (Finite q)) => q
  | _ => 0
  end.

(** The body of the import loop for one entry: the calibration entry to
    store under the key, or [None] when the entry is skipped. *)
Definition importEntry (entry : Json) : option CalEntry :=
  if falsy entry || negb (isObject entry) then None
  else
    match getMember entry "positionOffset" with
    | Some (JArray off) =>
        if (length off =? 3)%nat && forallb isFiniteNumber off then
          Some {| positionOffset :=
                    Some (mkVec3 (numberAt off 0) (numberAt off 1) (numberAt off 2)) |}
        else None
    | _ => None
    end.

(** [obj[key] = value], for an object [obj] made by the literal [{}]
    and a [value] that is an object.  The maps of this model hold the
    own properties of an object, the ones that [Object.keys], a spread
    and [JSON.stringify] see.  The key [__proto__] does not become one:
    the assignment reaches the setter that [obj] inherits from
    [Object.prototype], which makes [value] the prototype of [obj] and
    creates no property.  (The prototype itself is not part of the
    model.) *)
Definition assign {V} (key : string) (value : V) (obj : gmap string V)
  : gmap string V :=
  if String.eqb key "__proto__" then obj else <[key := value]> obj.

(** The [try] block after [JSON.parse]: [None] when it throws
    'Invalid calibration format', else the map [next].  [JSON.parse]
    gives [raw] an own property for every key of the file, [__proto__]
    included, so the loop does see an entry under that key. *)
Definition importCalibration (raw : Json) : option Calibration :=
  if falsy raw || negb (isObject raw) then None
  else
    Some (fold_left
            (fun (next : Calibration) '(key, entry) =>
               match importEntry entry with
               | Some e => assign key e next
               | None => next
               end)
            (ownEntries raw) ∅).

(** The [onChange] handler of the file input as a function of the
    calibration state: [parsed] is the result of [JSON.parse], [None]
    when reading or parsing throws.  Every exception is caught and
    logged, and the state is then left as it was. *)
Definition importHandler (parsed : option Json) (prev : Calibration) : Calibration :=
  match parsed with
  | Some raw =>
      match importCalibration raw with
      | Some next => next
      | None => prev
      end
  | None => prev
  end.

(** *** The other calibration handlers *)

(** [(v || 0) !== 0] *)
Definition nonZero (v : Q) : bool := negb (Qeq_bool v 0%Q).

(** The body of the loop of the memo [calibrationFiltered] for one key:
    the entry to put into [out], if any. *)
Definition filterEntry (e : CalEntry) : option CalEntry :=
  match positionOffset e with
  | Some off =>
      if nonZero (vx off) || nonZero (vy off) || nonZero (vz off)
      then Some {| positionOffset := Some off |}
      else None
  | None => None
  end.

(** The memo [calibrationFiltered]: "only include joints that have a
    non-zero calibration". *)
Definition calibrationFiltered (calibration : Calibration) : Calibration :=
  fold_left
    (fun (out : Calibration) '(key, e) =>
       match filterEntry e with
       | Some e' => assign key e' out
       | None => out
       end)
    (map_to_list calibration) ∅.

(** "Reset Current Joint Offset": [delete next[selectedJoint]], and
    nothing when no joint is selected. *)
Definition resetJointOffset (selectedJoint : option string) (prev : Calibration)
  : Calibration :=
  match selectedJoint with
  | Some j => if String.eqb j "" then prev else delete j prev
  | None => prev
  end.

Inductive Axis : Type := AxisX | AxisY | AxisZ.

(** [next[idx] = value] on the triple [next]. *)
Definition setAxis (axis : Axis) (value : Q) (v : Vec3) : Vec3 :=
  match axis with
  | AxisX => mkVec3 value (vy v) (vz v)
  | AxisY => mkVec3 (vx v) value (vz v)
  | AxisZ => mkVec3 (vx v) (vy v) value
  end.

(** The [onChange] handler of the offset input of one axis; [v] is
    [Number(e.target.value)]. *)
Definition offsetInputChange (selectedJoint : option string) (axis : Axis)
    (v : JsNumber) (prev : Calibration) : Calibration :=
  match selectedJoint with
  | Some key =>
      if String.eqb key "" then prev
      else
        let cur :=
          match prev !! key with
          | Some {| positionOffset := Some off |} => off
          | _ => vzero
          end in
        let value := match v with Finite q => q | _ => 0%Q end in
        <[key := withPositionOffset (default emptyEntry (prev !! key))
                   (setAxis axis value cur)]> prev
  | None => prev
  end.

(** The JSON value that the file written by "Export Calibration JSON",
    [JSON.stringify(calibration, null, 2)], parses to: an object with one
    member per joint; an entry without offset serialises as [{}]. *)
Definition entryJson (e : CalEntry) : Json :=
  JObject
    match positionOffset e with
    | Some off =>
        {[ "positionOffset" :=
             JArray [JNumber (Finite (vx off)); JNumber (Finite (vy off));
                     JNumber (Finite (vz off))] ]}
    | None => ∅
    end.

Definition exportedJson (calibration : Calibration) : Json :=
  JObject (entryJson <$> calibration).

End Page.

(** ** lib/processing: statistics and normalisation *)

Module Processing.

Local Open Scope Q_scope.

(** A series is an array of rows of finite numbers.  [row[d] ?? 0] *)
Definition cell (row : list Q) (d : nat) : Q := default 0 (row !! d).

(** The three arrays of the first pass of [computeStats].  An entry of
    [min] or [max] is [None] while it still holds the [Infinity] or
    [-Infinity] the array was filled with; a sum can overflow. *)
Record Sums : Type := {
  smin : list (option Q);
  smax : list (option Q);
  ssum : list Double.number
}.

(** The body of the inner loop of the first pass, for the column [d],
    which is below [dims], the length of the three arrays:
    [if (v < min[d]) min[d] = v; if (v > max[d]) max[d] = v; sum[d] += v]. *)
Definition statsCell (row : list Q) (d : nat) (a : Sums) : Sums :=
  let v := cell row d in
  {| smin := match smin a !! d with
             | Some None => <[d := Some v]> (smin a)
             | Some (Some m) =>
                 if SkeletonViewer.Qltb v m then <[d := Some v]> (smin a) else smin a
             | None => smin a
             end;
     smax := match smax a !! d with
             | Some None => <[d := Some v]> (smax a)
             | Some (Some m) =>
                 if SkeletonViewer.Qltb m v then <[d := Some v]> (smax a) else smax a
             | None => smax a
             end;
     ssum := match ssum a !! d with
             | Some s => <[d := Double.add s (Double.Fin v)]> (ssum a)
             | None => ssum a
             end |}.

Definition statsRow (dims : nat) (a : Sums) (row : list Q) : Sums :=
  fold_left (fun a d => statsCell row d a) (seq 0 dims) a.

(** The body of the inner loop of the second pass:
    [const diff = v - mean[d]; varSum[d] += diff * diff]. *)
Definition varCell (mean : list Double.number) (row : list Q) (d : nat)
    (varSum : list Double.number) : list Double.number :=
  match varSum !! d, mean !! d with
  | Some s, Some m =>
      let diff := Double.sub (Double.Fin (cell row d)) m in
      <[d := Double.add s (Double.mul diff diff)]> varSum
  | _, _ => varSum
  end.

Definition varRow (dims : nat) (mean : list Double.number)
    (varSum : list Double.number) (row : list Q) : list Double.number :=
  fold_left (fun vs d => varCell mean row d vs) (seq 0 dims) varSum.

Record Stats : Type := {
  min : list (option Q);
  max : list (option Q);
  mean : list Double.number;
  std : list Double.number
}.

Inductive NormalizeMode : Type :=
| ModeNone | MinMax | ZScore | VectorUnit | QuaternionUnit.

(** An entry of [min] or [max] as a number: [inf] is the infinity the
    array was filled with, and an index beyond the array gives
    [undefined], which is [NaN] in arithmetic. *)
Definition bound (inf : Double.number) (o : option (option Q)) : Double.number :=
  match o with
  | Some (Some q) => Double.Fin q
  | Some None => inf
  | None => Double.NaN
  end.

(** [((v ?? 0) - min[i]) / ((max[i] - min[i]) || 1)] *)
Definition minmaxCell (mn mx : option (option Q)) (v : Q) : Double.number :=
  let lo := bound Double.Inf mn in
  let hi := bound Double.NegInf mx in
  Double.div (Double.sub (Double.Fin v) lo) (Double.orOne (Double.sub hi lo)).

(** [((v ?? 0) - mean[i]) / (std[i] || 1)] *)
Definition zscoreCell (m s : option Double.number) (v : Q) : Double.number :=
  Double.div (Double.sub (Double.Fin v) (default Double.NaN m))
             (Double.orOne (default Double.NaN s)).

Section Math.

(** [Math.sqrt] and [Math.hypot]. *)
Variable sqrt : Double.number -> Double.number.
Variable hypot : list Q -> Double.number.

(** [computeStats(series)] *)
Definition computeStats (series : list (list Q)) : Stats :=
  match series with
  | [] => {| min := []; max := []; mean := []; std := [] |}
  | first :: _ =>
      let dims := length first in
      let n := Z.of_nat (length series) in
      let a := fold_left (statsRow dims) series
                 {| smin := replicate dims None; smax := replicate dims None;
                    ssum := replicate dims (Double.Fin 0) |} in
      let mean := map (fun s => Double.div s (Double.Fin (inject_Z n))) (ssum a) in
      let varSum := fold_left (varRow dims mean) series
                      (replicate dims (Double.Fin 0)) in
      let std :=
        map (fun v => sqrt (Double.div v (Double.Fin (inject_Z (Z.max 1 (n - 1))))))
            varSum in
      {| min := smin a; max := smax a; mean := mean; std := std |}
  end.

(** [normalizeSeries(series, mode)] *)
Definition normalizeSeries (series : list (list Q)) (mode : NormalizeMode)
  : list (list Double.number) :=
  match series with
  | [] => []
  | first :: _ =>
      let dims := length first in
      match mode with
      | ModeNone => map (map Double.Fin) series
      | VectorUnit =>
          if (3 <=? dims)%nat then
            map (fun row =>
                   let x := cell row 0 in
                   let y := cell row 1 in
                   let z := cell row 2 in
                   let len := Double.orOne (hypot [x; y; z]) in
                   Double.div (Double.Fin x) len :: Double.div (Double.Fin y) len
                   :: Double.div (Double.Fin z) len
                   :: map Double.Fin (drop 3 row)) series
          else map (map Double.Fin) series
      | QuaternionUnit =>
          if (dims =? 4)%nat then
            map (fun row =>
                   let w := cell row 0 in
                   let x := cell row 1 in
                   let y := cell row 2 in
                   let z := cell row 3 in
                   let len := Double.orOne (hypot [w; x; y; z]) in
                   [Double.div (Double.Fin w) len; Double.div (Double.Fin x) len;
                    Double.div (Double.Fin y) len; Double.div (Double.Fin z) len])
                series
          else map (map Double.Fin) series
      | MinMax =>
          let st := computeStats series in
          map (fun row =>
                 imap (fun i v => minmaxCell (min st !! i) (max st !! i) v) row)
              series
      | ZScore =>
          let st := computeStats series in
          map (fun row =>
                 imap (fun i v => zscoreCell (mean st !! i) (std st !! i) v) row)
              series
      end
  end.

End Math.

End Processing.

(** ** components/sensor-chart.tsx: the chart data *)

Module SensorChart.

Local Open Scope Q_scope.

(** [ChartPoint]; [w] is present for a quaternion sample only. *)
Record ChartPoint : Type := {
  t : Q;
  w : option Q;
  x : Q;
  y : Q;
  z : Q
}.

Definition MAX_POINTS : Q := 2000.

(** The point pushed for the sample [p = series[i]]: a sample of length
    4 is a quaternion [w, x, y, z], any other one is read as [x, y, z]. *)
Definition chartPoint (denom : Q) (i : nat) (p : list Q) : ChartPoint :=
  let time := inject_Z (Z.of_nat i) / denom in
  if (length p =? 4)%nat
  then {| t := time; w := Some (Processing.cell p 0); x := Processing.cell p 1;
          y := Processing.cell p 2; z := Processing.cell p 3 |}
  else {| t := time; w := None; x := Processing.cell p 0;
          y := Processing.cell p 1; z := Processing.cell p 2 |}.

(** [for (let i = 0; i < len; i += stride) out.push(...)], unfolded at
    most [fuel] times; [i < len] holds exactly when [series[i]] exists.
    The memo runs it with [len] units, which a stride of at least 1
    cannot use up before [i] reaches [len]. *)
Fixpoint strideLoop (fuel : nat) (series : list (list Q)) (stride : nat)
    (denom : Q) (i : nat) (out : list ChartPoint) : list ChartPoint :=
  match fuel with
  | O => out
  | S fuel' =>
      match series !! i with
      | Some p =>
          strideLoop fuel' series stride denom (i + stride)
            (out ++ [chartPoint denom i p])
      | None => out
      end
  end.

(** [Math.max(1, Math.ceil(len / MAX_POINTS))] *)
Definition strideOf (len : nat) : nat :=
  Z.to_nat (Z.max 1 (Qceiling (inject_Z (Z.of_nat len) / MAX_POINTS))).

(** The memo [data]: every [stride]-th sample, and the last sample when
    the stride does not land on it. *)
Definition data (series : list (list Q)) (frameRate : Q) : list ChartPoint :=
  match series with
  | [] => []
  | _ :: _ =>
      let len := length series in
      let stride := strideOf len in
      let denom := Qmax frameRate 1 in
      let out := strideLoop len series stride denom 0 [] in
      if ((len - 1) mod stride =? 0)%nat then out
      else
        match series !! (len - 1)%nat with
        | Some p => out ++ [chartPoint denom (len - 1) p]
        | None => out
        end
  end.

End SensorChart.

(** ** hooks/use-performance-monitor *)

Module PerformanceMonitor.

Local Open Scope Q_scope.

(** The options the hook reads; the defaults are [targetFps = 60] and
    [lowPerformanceThreshold = 0.7]. *)
Record Options : Type := { targetFps : Q; lowPerformanceThreshold : Q }.

(** [PerformanceMetrics] without [memoryUsage], which is read from the
    browser and used nowhere in the hook. *)
Record Metrics : Type := { fps : Z; frameTime : Q; isLowPerformance : bool }.

(** The calls of the two optional callbacks. *)
Inductive Callback : Type :=
| OnLowPerformance (m : Metrics)
| OnPerformanceRecover (m : Metrics).

(** The refs of the hook, and the calls made so far. *)
Record Monitor : Type := {
  frameCountRef : Z;
  lastTimeRef : Q;
  fpsRef : Z;
  frameTimeRef : Q;
  isLowPerformanceRef : bool;
  calls : list Callback
}.

(** The refs as [useRef] creates them, [now] being [performance.now()]. *)
Definition initialMonitor (now : Q) : Monitor :=
  {| frameCountRef := 0; lastTimeRef := now; fpsRef := 0; frameTimeRef := 0;
     isLowPerformanceRef := false; calls := [] |}.

(** [Math.round] *)
Definition round (x : Q) : Z := Qfloor (x + (1 # 2)).

(** [updateMetrics], called once per animation frame at time [now]. *)
Definition updateMetrics (o : Options) (now : Q) (m : Monitor) : Monitor :=
  let deltaTime := now - lastTimeRef m in
  let frameCount := (frameCountRef m + 1)%Z in
  if Qle_bool 1000 deltaTime then
    let fps := round (inject_Z frameCount * 1000 / deltaTime) in
    let frameTime := deltaTime / inject_Z frameCount in
    let isLow :=
      SkeletonViewer.Qltb (inject_Z fps) (targetFps o * lowPerformanceThreshold o) in
    if isLow && negb (isLowPerformanceRef m) then
      {| frameCountRef := 0; lastTimeRef := now; fpsRef := fps;
         frameTimeRef := frameTime; isLowPerformanceRef := true;
         calls := calls m ++ [OnLowPerformance
                                {| fps := fps; frameTime := frameTime;
                                   isLowPerformance := true |}] |}
    else if negb isLow && isLowPerformanceRef m then
      {| frameCountRef := 0; lastTimeRef := now; fpsRef := fps;
         frameTimeRef := frameTime; isLowPerformanceRef := false;
         calls := calls m ++ [OnPerformanceRecover
                                {| fps := fps; frameTime := frameTime;
                                   isLowPerformance := false |}] |}
    else
      {| frameCountRef := 0; lastTimeRef := now; fpsRef := fps;
         frameTimeRef := frameTime; isLowPerformanceRef := isLowPerformanceRef m;
         calls := calls m |}
  else
    {| frameCountRef := frameCount; lastTimeRef := lastTimeRef m;
       fpsRef := fpsRef m; frameTimeRef := frameTimeRef m;
       isLowPerformanceRef := isLowPerformanceRef m; calls := calls m |}.

(** The monitor after the animation frames at the given times. *)
Definition monitorRun (o : Options) (times : list Q) (m : Monitor) : Monitor :=
  fold_left (fun m now => updateMetrics o now m) times m.

End PerformanceMonitor.

(** * Vocabulary of the properties *)

Import SkeletonConstants SkeletonViewer.

(** The calibration file of the scenario:
    [{"head":{"positionOffset":[0.1,0,-0.2]}, "ghost":"bad"}]. *)
Definition scenarioFile : Page.Json :=
  Page.JObject
    (<["head" := Page.JObject
                   {[ "positionOffset" :=
                        Page.JArray [Page.JNumber (Page.Finite (1 # 10));
                                     Page.JNumber (Page.Finite 0);
                                     Page.JNumber (Page.Finite (- 2 # 10))] ]}]>
       {[ "ghost" := Page.JString "bad" ]}).

(** A calibration file with one entry, which is valid:
    [{"__proto__":{"positionOffset":[1,2,3]}}]. *)
Definition protoFile : Page.Json :=
  Page.JObject
    {[ "__proto__" :=
         Page.JObject
           {[ "positionOffset" :=
                Page.JArray [Page.JNumber (Page.Finite 1);
                             Page.JNumber (Page.Finite 2);
                             Page.JNumber (Page.Finite 3)] ]} ]}.

(** The sensor names lack [missing] and have every other canonical name. *)
Definition omitsExactly (names : list string) (missing : string) : bool :=
  negb (includes names missing)
  && forallb (fun n => String.eqb n missing || includes names n) SENSOR_NAMES.

(** The edge has [name] as an end point. *)
Definition touches (name : string) (e : string * string) : bool :=
  String.eqb e.1 name || String.eqb e.2 name.

(** The fourteen canonical sensor names other than [foot_right]. *)
Definition namesWithoutFootRight : list string := take 14 SENSOR_NAMES.

(** The dataset's frames have a point for every sensor, and its sensor
    names are no more than [numSensors]. *)
Definition wellFormed (d : DatasetPayload) : bool :=
  forallb (fun f => numSensors d <=? length f)%nat (frames d)
  && (length (sensorNames d) <=? numSensors d)%nat.

(** The meshes, positions and lines are those the creation effect builds
    for the dataset. *)
Definition inSync (d : DatasetPayload) (r : Refs) : bool :=
  (length (jointsRef r) =? numSensors d)%nat
  && (length (jointPositionsRef r) =? numSensors d)%nat
  && (length (bonesRef r) =? length (edgeIndexPairs d))%nat.


(** The initialisation effect has set up camera and orbit controls. *)
Definition initialised (r : Refs) : bool :=
  match cameraRef r, controlsRef r with
  | Some _, Some _ => true
  | _, _ => false
  end.

(** [0 <= currentFrame < numFrames] *)
Definition frameInRange (d : DatasetPayload) (r : Refs) : bool :=
  match currentFrameRef r with
  | Frame k => (0 <=? k)%Z && (k <? numFrames d)%Z
  | FrameNaN => false
  end.

(** [r'] differs from [r] at most in positions: of the meshes, of the
    lines and in [jointPositions], not in how many there are. *)
Definition samePlayback (r r' : Refs) : Prop :=
  currentFrameRef r' = currentFrameRef r /\
  isDraggingRef r' = isDraggingRef r /\
  isSeekingRef r' = isSeekingRef r /\
  selectedJointRef r' = selectedJointRef r /\
  calibrationRef r' = calibrationRef r /\
  frameChanges r' = frameChanges r /\
  length (jointsRef r') = length (jointsRef r) /\
  length (bonesRef r') = length (bonesRef r) /\
  length (jointPositionsRef r') = length (jointPositionsRef r).

(** Camera, orbit target, framing flag and framing count agree. *)
Definition sameView (r r' : Refs) : Prop :=
  cameraRef r' = cameraRef r /\
  controlsRef r' = controlsRef r /\
  hasAutoCentered r' = hasAutoCentered r /\
  framings r' = framings r.

(** [r'] differs from [r] at most in the pose. *)
Definition poseOnly (r r' : Refs) : Prop := samePlayback r r' /\ sameView r r'.

(** A sample session: three frames of the fifteen canonical sensors, at 30
    frames per second, played at 50 in a browser other than Safari. *)
Definition sampleDataset : DatasetPayload :=
  {| frameRate := 30; sensorNames := SENSOR_NAMES; edges := EDGES;
     numFrames := 3; numSensors := 15;
     frames := [ replicate 15 (mkVec3 1 2 3); replicate 15 (mkVec3 4 5 6);
                 replicate 15 (mkVec3 7 8 9) ] |}.

(** The refs after the initialisation effect. *)
Definition mountedRefs : Refs :=
  {| cameraRef := Some {| position := mkVec3 3 2 3; tanHalfFov := 577 # 1000 |};
     controlsRef := Some (mkVec3 0 1 0);
     hasAutoCentered := false; jointsRef := []; bonesRef := [];
     jointPositionsRef := []; currentFrameRef := Frame 0;
     isDraggingRef := false; isSeekingRef := false; selectedJointRef := None;
     calibrationRef := ∅; framings := 0; frameChanges := [] |}.

Definition sampleViewer : Viewer :=
  {| props := {| isPlaying := true; targetFps := 50; isSafari := false |};
     clock := {| lastTime := 0; accumulator := 0; frameSkip := 0; rafId := 1 |};
     refs := stateOf (createSkeleton (Some sampleDataset) mountedRefs) |}.

(** A second dataset with the same sensors at other positions, and the
    refs after the viewer, mounted with the sample dataset, has been given
    this one: the creation effect has rebuilt the skeleton for it. *)
Definition otherDataset : DatasetPayload :=
  {| frameRate := 30; sensorNames := SENSOR_NAMES; edges := EDGES;
     numFrames := 2; numSensors := 15;
     frames := [ replicate 15 (mkVec3 10 20 30); replicate 15 (mkVec3 40 50 60) ] |}.

Definition switchedRefs : Refs :=
  stateOf (createSkeleton (Some otherDataset) (refs sampleViewer)).

(** A dataset without frames. *)
Definition emptyDataset : DatasetPayload :=
  {| frameRate := 30; sensorNames := SENSOR_NAMES; edges := EDGES;
     numFrames := 0; numSensors := 15; frames := [] |}.

Definition emptyViewer : Viewer :=
  {| props := {| isPlaying := true; targetFps := 50; isSafari := false |};
     clock := {| lastTime := 0; accumulator := 0; frameSkip := 0; rafId := 1 |};
     refs := stateOf (createSkeleton (Some emptyDataset) mountedRefs) |}.

(** [updateSkeleton] gets past its early returns: there is a camera, a
    mesh, a line, and the frame exists. *)
Definition poseDue (d : DatasetPayload) (f : FrameNumber) (r : Refs) : bool :=
  match cameraRef r, frameAt d f with
  | Some _, Some _ =>
      negb (length (jointsRef r) =? 0)%nat && negb (length (bonesRef r) =? 0)%nat
  | _, _ => false
  end.

(** Every event of the run is handled without an exception. *)
Fixpoint allNormal (d : DatasetPayload) (v : Viewer) (es : list Event) : Prop :=
  match es with
  | [] => True
  | e :: es' => exists v', step d v e = Normal v' /\ allNormal d v' es'
  end.

(** The scene of [sampleViewer] during a drag. *)
Definition draggingRefs : Refs :=
  setIsDragging true (refs sampleViewer).

(** A dataset recorded without the right foot sensor: thirteen of the
    fourteen canonical edges have both end points. *)
Definition staleDataset : DatasetPayload :=
  {| frameRate := 30; sensorNames := namesWithoutFootRight; edges := EDGES;
     numFrames := 1; numSensors := 14;
     frames := [ replicate 14 (mkVec3 1 2 3) ] |}.

(** The time a playing tick has to spend: [accumulator += time -
    lastTime], as doubles. *)
Definition accumulated (c : Clock) (time : Q) : Q :=
  Double.round64 (accumulator c + Double.round64 (time - lastTime c)).

(** The accumulator after [n] times [accumulator -= intervalMs]. *)
Fixpoint drained (i : Q) (n : nat) (a : Q) : Q :=
  match n with
  | O => a
  | S n' => Double.round64 (drained i n' a - i)
  end.

(** The sample viewer, playing at 30 frames per second. *)
Definition viewerAt30 : Viewer :=
  {| props := {| isPlaying := true; targetFps := 30; isSafari := false |};
     clock := clock sampleViewer; refs := refs sampleViewer |}.

(** The smaller, or larger, of a value and the entry of [min], or [max],
    seen so far. *)
Definition lower (v : Q) (o : option Q) : option Q :=
  match o with
  | None => Some v
  | Some m => if Qltb v m then Some v else Some m
  end.

Definition higher (v : Q) (o : option Q) : option Q :=
  match o with
  | None => Some v
  | Some m => if Qltb m v then Some v else Some m
  end.

(** Smallest value, largest value and sum of the column [d] of the rows,
    in the order of the rows; every addition of the sum is rounded. *)
Definition columnMin (rows : list (list Q)) (d : nat) (o : option Q) : option Q :=
  fold_left (fun o row => lower (Processing.cell row d) o) rows o.

Definition columnMax (rows : list (list Q)) (d : nat) (o : option Q) : option Q :=
  fold_left (fun o row => higher (Processing.cell row d) o) rows o.

Definition columnSum (rows : list (list Q)) (d : nat) (s : Double.number)
  : Double.number :=
  fold_left (fun s row => Double.add s (Double.Fin (Processing.cell row d))) rows s.

(** What [Double.roundPos] rounds: the exponent of the spacing of the
    doubles around [n / d], and [n / d] over that spacing as a fraction
    of integers. *)
Definition ulpExp (n : Z) (d : positive) : Z :=
  (Z.max (Double.binade n d) (-1022) - 52)%Z.

Definition scaledNum (n : Z) (d : positive) : Z :=
  if (0 <=? ulpExp n d)%Z then n else (n * 2 ^ (- ulpExp n d))%Z.

Definition scaledDen (n : Z) (d : positive) : Z :=
  if (0 <=? ulpExp n d)%Z then (Zpos d * 2 ^ ulpExp n d)%Z else Zpos d.







(** * Properties *)

#[local] Arguments updateSkeleton : simpl never.
#[local] Arguments tick : simpl never.
#[local] Arguments edgeIndexPairs : simpl never.

(** ** Calibration store *)

(** C10. A calibration change reported for one joint leaves the entry of
    every other joint name as it was. *)
Theorem onCalibrationChange_other_joints
    (joint other : string) (offset : Vec3) (prev : Calibration) :
  other ≠ joint ->
  Page.onCalibrationChange joint offset prev !! other = prev !! other.
Proof.
  intros Hne. unfold Page.onCalibrationChange.
  apply lookup_insert_ne. congruence.
Qed.

Lemma onCalibrationChange_other_joints_witness :
  "head" ≠ "lumbar" /\
  Page.onCalibrationChange "lumbar" (mkVec3 5 0 0)
    {[ "head" := {| positionOffset := Some (mkVec3 1 2 3) |} ]} !! "head"
  = ({[ "head" := {| positionOffset := Some (mkVec3 1 2 3) |} ]} : Calibration) !! "head".
Proof.
  split; [discriminate |].
  apply (onCalibrationChange_other_joints "lumbar" "head"). discriminate.
Defined.

Lemma onCalibrationChange_same_joint
    (joint : string) (offset : Vec3) (prev : Calibration) :
  Page.onCalibrationChange joint offset prev !! joint
  = Some {| positionOffset := Some offset |}.
Proof. unfold Page.onCalibrationChange. apply lookup_insert_eq. Qed.

(** ** Calibration import *)

(** The entries the import loop keeps: objects whose [positionOffset] is
    an array of three finite numbers. *)
Lemma importEntry_Some (entry : Page.Json) (e : CalEntry) :
  Page.importEntry entry = Some e <->
  exists members x y z,
    entry = Page.JObject members /\
    members !! "positionOffset"
      = Some (Page.JArray [Page.JNumber (Page.Finite x);
                           Page.JNumber (Page.Finite y);
                           Page.JNumber (Page.Finite z)]) /\
    e = {| positionOffset := Some (mkVec3 x y z) |}.
Proof.
  split.
  - unfold Page.importEntry.
    destruct (Page.falsy entry || negb (Page.isObject entry)); [discriminate |].
    destruct entry as [| b | n | s | items | members]; simpl; try discriminate.
    destruct (members !! "positionOffset") as [[| | | | off |] |] eqn:Hoff;
      try discriminate.
    destruct (length off =? 3)%nat eqn:Hlen; [| discriminate].
    destruct (forallb Page.isFiniteNumber off) eqn:Hfin; [| discriminate].
    apply Nat.eqb_eq in Hlen.
    destruct off as [| a [| b [| c [| w off]]]]; try discriminate Hlen.
    simpl in Hfin.
    destruct a as [| | [x | | |] | | |]; try discriminate Hfin.
    destruct b as [| | [y | | |] | | |]; try discriminate Hfin.
    destruct c as [| | [z | | |] | | |]; try discriminate Hfin.
    simpl. intros [= <-]. now exists members, x, y, z.
  - intros (members & x & y & z & -> & Hoff & ->).
    unfold Page.importEntry. simpl. now rewrite Hoff.
Qed.

(** A loop that assigns under each key what [f] makes of its entry. *)
Lemma assign_fold_lookup {V W} (f : V -> option W) (l : list (string * V))
    (out : gmap string W) (key : string) :
  NoDup l.*1 ->
  fold_left
    (fun (out : gmap string W) '(k, e) =>
       match f e with
       | Some e' => Page.assign k e' out
       | None => out
       end) l out !! key
  = match (if String.eqb key "__proto__" then None
           else (list_to_map l : gmap string V) !! key ≫= f) with
    | Some e => Some e
    | None => out !! key
    end.
Proof.
  revert out. induction l as [| [k entry] l IH]; intros out Hnd.
  - simpl. rewrite lookup_empty. now destruct (String.eqb key "__proto__").
  - apply NoDup_cons in Hnd as [Hk Hnd]. simpl fold_left.
    rewrite IH by exact Hnd. simpl list_to_map.
    destruct (String.eqb key "__proto__") eqn:Hproto.
    + apply String.eqb_eq in Hproto. subst key.
      destruct (f entry); [| reflexivity].
      unfold Page.assign.
      destruct (String.eqb k "__proto__") eqn:Hk'; [reflexivity |].
      apply String.eqb_neq in Hk'. now rewrite lookup_insert_ne.
    + destruct (decide (k = key)) as [-> | Hne].
      * rewrite lookup_insert_eq.
        assert ((list_to_map l : gmap string V) !! key = None) as ->
          by now apply not_elem_of_list_to_map_1.
        simpl. destruct (f entry) as [e |]; [| reflexivity].
        unfold Page.assign. rewrite Hproto. now rewrite lookup_insert_eq.
      * rewrite (lookup_insert_ne _ k key) by exact Hne.
        destruct ((list_to_map l : gmap string V) !! key ≫= f); [reflexivity |].
        destruct (f entry); [| reflexivity].
        unfold Page.assign.
        destruct (String.eqb k "__proto__"); [reflexivity |].
        now apply lookup_insert_ne.
Qed.

Lemma importHandler_object_lookup (members : gmap string Page.Json)
    (prev : Calibration) (key : string) :
  Page.importHandler (Some (Page.JObject members)) prev !! key
  = if String.eqb key "__proto__" then None
    else members !! key ≫= Page.importEntry.
Proof.
  unfold Page.importHandler, Page.importCalibration. simpl.
  rewrite (assign_fold_lookup Page.importEntry) by apply NoDup_fst_map_to_list.
  rewrite list_to_map_to_list, lookup_empty.
  destruct (String.eqb key "__proto__"); [reflexivity |].
  now destruct (members !! key ≫= Page.importEntry).
Qed.

(** C4 fails on the code.  Importing a calibration file that parses to a
    JSON object never throws, and the new calibration has under a key
    other than [__proto__] exactly the offset of the file's entry under
    that key when that entry is an object whose [positionOffset] is an
    array of three finite numbers, and no entry otherwise, whatever the
    previous calibration was; the file of the scenario gives the map with
    the single key [head] and offset [0.1, 0, -0.2].  But a valid entry
    under the key [__proto__] is lost: the file
    [{"__proto__":{"positionOffset":[1,2,3]}}], whose one entry passes the
    checks of the loop, gives the empty calibration. *)
Theorem import_loses_valid_entry_under_proto :
  (forall (members : gmap string Page.Json) (prev : Calibration)
          (key : string) (e : CalEntry),
      Page.importHandler (Some (Page.JObject members)) prev !! key = Some e <->
      key <> "__proto__" /\
      exists entry x y z,
        members !! key = Some (Page.JObject entry) /\
        entry !! "positionOffset"
          = Some (Page.JArray [Page.JNumber (Page.Finite x);
                               Page.JNumber (Page.Finite y);
                               Page.JNumber (Page.Finite z)]) /\
        e = {| positionOffset := Some (mkVec3 x y z) |}) /\
  (forall prev : Calibration,
      Page.importHandler (Some scenarioFile) prev
      = {[ "head" := {| positionOffset := Some (mkVec3 (1 # 10) 0 (- 2 # 10)) |} ]}) /\
  (exists entry,
      Page.getMember protoFile "__proto__" = Some entry /\
      Page.importEntry entry = Some {| positionOffset := Some (mkVec3 1 2 3) |}) /\
  (forall prev : Calibration, Page.importHandler (Some protoFile) prev = ∅).
Proof.
  split; [| split; [| split]].
  - intros members prev key e. rewrite importHandler_object_lookup.
    destruct (String.eqb key "__proto__") eqn:Hproto.
    + apply String.eqb_eq in Hproto.
      split; [discriminate | now intros [Hne _]].
    + apply String.eqb_neq in Hproto.
      destruct (members !! key) as [entry |] eqn:Hkey; simpl.
      * rewrite importEntry_Some. split.
        -- intros (ms & x & y & z & -> & Hoff & ->).
           split; [exact Hproto |]. now exists ms, x, y, z.
        -- intros (_ & ms & x & y & z & [= ->] & Hoff & ->).
           now exists ms, x, y, z.
      * split; [discriminate |]. now intros (_ & ? & ? & ? & ? & [=] & _).
  - intros prev. apply map_eq. intros key.
    unfold scenarioFile. rewrite importHandler_object_lookup.
    destruct (decide (key = "head")) as [-> | Hhead].
    + now rewrite !lookup_insert_eq.
    + rewrite (lookup_singleton_ne "head" key) by congruence.
      destruct (String.eqb key "__proto__"); [reflexivity |].
      rewrite lookup_insert_ne by congruence.
      destruct (decide (key = "ghost")) as [-> | Hghost].
      * now rewrite lookup_singleton_eq.
      * now rewrite lookup_singleton_ne by congruence.
  - eexists. split; [apply lookup_singleton_eq | reflexivity].
  - intros prev. apply map_eq. intros key.
    unfold protoFile. rewrite importHandler_object_lookup, lookup_empty.
    destruct (String.eqb key "__proto__") eqn:Hproto; [reflexivity |].
    apply String.eqb_neq in Hproto.
    now rewrite lookup_singleton_ne by congruence.
Qed.

(** ** Skeleton structure *)

Lemma includes_true (names : list string) (name : string) :
  includes names name = true <-> name ∈ names.
Proof.
  unfold includes. rewrite existsb_exists. split.
  - intros (x & Hin & Heq). apply String.eqb_eq in Heq as ->.
    now apply list_elem_of_In.
  - intros Hin. exists name. split; [now apply list_elem_of_In |].
    apply String.eqb_refl.
Qed.

Lemma includes_false (names : list string) (name : string) :
  includes names name = false <-> name ∉ names.
Proof.
  rewrite <- includes_true. now destruct (includes names name).
Qed.

(** The map built from the [(name, index)] pairs: a name that occurs is
    bound to an index at which it stands, any other name is unbound. *)
Lemma nameToIdx_fold (l : list string) (g : nat -> nat) (m0 : gmap string nat)
    (n : string) :
  let m := fold_left (fun m '(i, n) => <[n := i]> m)
             (imap (fun i n => (g i, n)) l) m0 in
  (n ∈ l -> exists i, m !! n = Some (g i) /\ l !! i = Some n) /\
  (n ∉ l -> m !! n = m0 !! n).
Proof.
  revert g m0. induction l as [| x l IH]; intros g m0; simpl.
  - split; [intros H; inversion H | reflexivity].
  - destruct (IH (fun i => g (S i)) (<[x := g 0%nat]> m0)) as [IHin IHout].
    change (imap ((fun i (n0 : string) => (g i, n0)) ∘ S) l)
      with (imap (fun i (n0 : string) => (g (S i), n0)) l).
    split.
    + intros Hin. destruct (decide (n ∈ l)) as [Hl | Hl].
      * destruct (IHin Hl) as (i & Hm & Hi). now exists (S i).
      * apply elem_of_cons in Hin as [-> | Hin]; [| contradiction].
        exists 0%nat. split; [| reflexivity].
        rewrite (IHout Hl). apply lookup_insert_eq.
    + intros Hout. apply not_elem_of_cons in Hout as [Hne Hout].
      rewrite (IHout Hout). apply lookup_insert_ne. congruence.
Qed.

Lemma nameToIdx_present (names : list string) (n : string) :
  n ∈ names ->
  exists i, nameToIdx names !! n = Some i /\ names !! i = Some n.
Proof.
  intros Hin. destruct (nameToIdx_fold names id ∅ n) as [H _].
  exact (H Hin).
Qed.

Lemma nameToIdx_absent (names : list string) (n : string) :
  n ∉ names -> nameToIdx names !! n = None.
Proof.
  intros Hout. destruct (nameToIdx_fold names id ∅ n) as [_ H].
  etrans; [exact (H Hout) | apply lookup_empty].
Qed.

Lemma nameToIdx_Some (names : list string) (n : string) (i : nat) :
  nameToIdx names !! n = Some i -> names !! i = Some n.
Proof.
  intros Hi. destruct (decide (n ∈ names)) as [Hin | Hout].
  - destruct (nameToIdx_present names n Hin) as (j & Hj & Hn). congruence.
  - rewrite (nameToIdx_absent names n Hout) in Hi. discriminate.
Qed.

Lemma omitsExactly_includes (names : list string) (missing n : string) :
  omitsExactly names missing = true ->
  In n SENSOR_NAMES ->
  includes names n = negb (String.eqb n missing).
Proof.
  unfold omitsExactly. intros [Hm Hall]%andb_prop Hn.
  rewrite forallb_forall in Hall. specialize (Hall n Hn).
  destruct (String.eqb n missing) eqn:Heq.
  - apply String.eqb_eq in Heq as ->. now apply negb_true_iff in Hm.
  - exact Hall.
Qed.

Lemma edges_between_canonical_names (e : string * string) :
  In e EDGES -> In e.1 SENSOR_NAMES /\ In e.2 SENSOR_NAMES.
Proof.
  intros He.
  assert (H : forallb (fun e => includes SENSOR_NAMES e.1 && includes SENSOR_NAMES e.2)
                EDGES = true) by (vm_compute; reflexivity).
  rewrite forallb_forall in H. apply H in He as [H1 H2]%andb_prop.
  split; apply list_elem_of_In; now apply includes_true.
Qed.

Lemma omap_map_filter {A B} (f : A -> option B) (g : A -> B) (p : A -> bool)
    (l : list A) :
  (forall a, In a l -> f a = if p a then Some (g a) else None) ->
  omap id (map f l) = map g (List.filter p l).
Proof.
  induction l as [| a l IH]; intros H; [reflexivity |].
  specialize (IH (fun b Hb => H b (or_intror Hb))).
  cbn [map List.filter].
  change (omap id (f a :: map f l))
    with (match f a with
          | Some y => y :: omap id (map f l)
          | None => omap id (map f l)
          end).
  rewrite (H a) by now left.
  destruct (p a); cbn [map]; now rewrite IH.
Qed.

(** C9. When the sensor names of a dataset omit exactly [foot_right],
    validation reports [missingSensors = ["foot_right"]], and the edge
    index pairs are the canonical edges that do not touch [foot_right], in
    their order, each as the pair of positions of its two end points in
    the sensor names: the edge to [foot_right] is dropped and each of the
    thirteen edges with both end points present is kept. *)
Theorem missing_foot_right_drops_its_edge (d : DatasetPayload) :
  omitsExactly (sensorNames d) "foot_right" = true ->
  missingSensors (skeletonValidation d) = ["foot_right"] /\
  exists idx : string -> nat,
    (forall n, n ∈ sensorNames d -> sensorNames d !! idx n = Some n) /\
    edgeIndexPairs d
    = map (fun e => (idx e.1, idx e.2))
          (List.filter (fun e => negb (touches "foot_right" e)) EDGES) /\
    length (edgeIndexPairs d) = 13%nat.
Proof.
  intros Homit. split.
  - unfold skeletonValidation, validateSkeletonStructure, missingSensors.
    rewrite (filter_ext_in _ (fun n => String.eqb n "foot_right")).
    + vm_compute; reflexivity.
    + intros n Hn. rewrite (omitsExactly_includes _ _ _ Homit Hn).
      apply negb_involutive.
  - exists (fun n => default 0%nat (nameToIdx (sensorNames d) !! n)).
    assert (Hpairs :
      edgeIndexPairs d
      = map (fun e => (default 0%nat (nameToIdx (sensorNames d) !! e.1),
                       default 0%nat (nameToIdx (sensorNames d) !! e.2)))
            (List.filter (fun e => negb (touches "foot_right" e)) EDGES));
      [| split; [| split; [exact Hpairs |]]].
    + unfold edgeIndexPairs. apply omap_map_filter. intros [a b] He.
      destruct (edges_between_canonical_names _ He) as [Ha Hb].
      pose proof (omitsExactly_includes _ _ _ Homit Ha) as Ia.
      pose proof (omitsExactly_includes _ _ _ Homit Hb) as Ib.
      unfold edgeLookup, touches. cbn [fst snd] in *.
      destruct (String.eqb a "foot_right").
      * apply includes_false in Ia. now rewrite (nameToIdx_absent _ _ Ia).
      * apply includes_true in Ia.
        destruct (nameToIdx_present _ _ Ia) as (i & -> & _).
        destruct (String.eqb b "foot_right").
        -- apply includes_false in Ib. now rewrite (nameToIdx_absent _ _ Ib).
        -- apply includes_true in Ib.
           destruct (nameToIdx_present _ _ Ib) as (j & -> & _). reflexivity.
    + intros n Hn. apply nameToIdx_Some.
      destruct (nameToIdx_present _ _ Hn) as (i & -> & _). reflexivity.
    + rewrite Hpairs, length_map. vm_compute; reflexivity.
Qed.

Lemma missing_foot_right_drops_its_edge_witness :
  let d := {| frameRate := 30; sensorNames := namesWithoutFootRight;
              edges := EDGES; numFrames := 1; numSensors := 14;
              frames := [replicate 14 vzero] |} in
  omitsExactly (sensorNames d) "foot_right" = true /\
  missingSensors (skeletonValidation d) = ["foot_right"] /\
  exists idx : string -> nat,
    (forall n, n ∈ sensorNames d -> sensorNames d !! idx n = Some n) /\
    edgeIndexPairs d
    = map (fun e => (idx e.1, idx e.2))
          (List.filter (fun e => negb (touches "foot_right" e)) EDGES) /\
    length (edgeIndexPairs d) = 13%nat.
Proof.
  intros d. split; [vm_compute; reflexivity |].
  apply (missing_foot_right_drops_its_edge d). vm_compute; reflexivity.
Defined.

(** ** Raw-sensor glyphs *)

Lemma glyphGain_pos (c : VectorChannel) : (0 < glyphGain c)%Q.
Proof. destruct c; reflexivity. Qed.

Lemma vectorGlyphLength_ge_gain (c : VectorChannel) (m : Q) :
  (m * glyphGain c <= vectorGlyphLength c m)%Q.
Proof. apply Q.le_max_l. Qed.

Lemma vectorGlyphLength_ge_min (c : VectorChannel) (m : Q) :
  (glyphMinLength c <= vectorGlyphLength c m)%Q.
Proof. apply Q.le_max_r. Qed.

Lemma vectorGlyphLength_unbounded (c : VectorChannel) (bound : Q) :
  exists m, (0 <= m /\ bound < vectorGlyphLength c m)%Q.
Proof.
  exists (Qmax 0 ((bound + 1) / glyphGain c)). split; [apply Q.le_max_l |].
  pose proof (glyphGain_pos c) as Hg.
  eapply Qlt_le_trans; [| apply vectorGlyphLength_ge_gain].
  apply Qlt_le_trans with ((bound + 1) / glyphGain c * glyphGain c)%Q.
  - assert (E : ((bound + 1) / glyphGain c * glyphGain c == bound + 1)%Q)
      by (field; lra).
    rewrite E. lra.
  - apply Qmult_le_compat_r; [apply Q.le_max_r | lra].
Qed.

(** C8, as the source has it.  For every vector channel the glyph length
    is a non-decreasing function of the sample's magnitude and is never
    below the channel's minimum length; it has no upper cap: for every
    bound some magnitude gives a longer glyph. *)
Theorem vectorGlyphLength_monotone_floored (c : VectorChannel) (m1 m2 : Q) :
  (m1 <= m2)%Q ->
  (vectorGlyphLength c m1 <= vectorGlyphLength c m2)%Q /\
  (glyphMinLength c <= vectorGlyphLength c m1)%Q /\
  (forall bound : Q, exists m, 0 <= m /\ bound < vectorGlyphLength c m)%Q.
Proof.
  intros Hle. split; [| split].
  - unfold vectorGlyphLength. apply Q.max_le_compat_r.
    apply Qmult_le_compat_r; [exact Hle |].
    apply Qlt_le_weak, glyphGain_pos.
  - apply vectorGlyphLength_ge_min.
  - apply vectorGlyphLength_unbounded.
Qed.

Lemma vectorGlyphLength_monotone_floored_witness :
  (1 <= 2)%Q /\
  (vectorGlyphLength Gyroscope 1 <= vectorGlyphLength Gyroscope 2)%Q /\
  (glyphMinLength Gyroscope <= vectorGlyphLength Gyroscope 1)%Q /\
  (forall bound : Q, exists m, 0 <= m /\ bound < vectorGlyphLength Gyroscope m)%Q.
Proof.
  split; [discriminate |].
  apply (vectorGlyphLength_monotone_floored Gyroscope 1 2). discriminate.
Defined.

(** C8, as stated, fails: the gyroscope glyph has no cap above. *)
Lemma vectorGlyphLength_has_no_cap :
  ~ exists cap : Q, forall m : Q, (0 <= m)%Q ->
      (vectorGlyphLength Gyroscope m <= cap)%Q.
Proof.
  intros [cap Hcap].
  destruct (vectorGlyphLength_unbounded Gyroscope cap) as (m & Hm & Hlt).
  specialize (Hcap m Hm). lra.
Qed.

(** ** Loops and completions *)

Lemma forEach_preserves {I A} (R : A -> A -> Prop) (body : I -> A -> Completion A)
    (l : list I) (a : A) :
  (forall a, R a a) ->
  (forall a b c, R a b -> R b c -> R a c) ->
  (forall i a, R a (stateOf (body i a))) ->
  R a (stateOf (forEach body l a)).
Proof.
  intros Hrefl Htrans Hbody. revert a.
  induction l as [| i l IH]; intros a; simpl; [apply Hrefl |].
  pose proof (Hbody i a) as Hstep.
  destruct (body i a) as [a' | a']; simpl in *; [| exact Hstep].
  eapply Htrans; [exact Hstep | apply IH].
Qed.

Lemma forEach_normal {I A} (Inv : A -> Prop) (body : I -> A -> Completion A)
    (l : list I) (a : A) :
  Inv a ->
  (forall i a, i ∈ l -> Inv a -> exists a', body i a = Normal a' /\ Inv a') ->
  exists a', forEach body l a = Normal a' /\ Inv a'.
Proof.
  revert a. induction l as [| i l IH]; intros a Ha Hbody; simpl.
  - now exists a.
  - destruct (Hbody i a) as (a1 & -> & Ha1); [left | exact Ha |].
    simpl. apply IH; [exact Ha1 |].
    intros j b Hj. apply Hbody. now right.
Qed.

(** ** What [updateSkeleton] leaves alone *)

Lemma poseOnly_refl (r : Refs) : poseOnly r r.
Proof. repeat split. Qed.

Lemma poseOnly_trans (a b c : Refs) : poseOnly a b -> poseOnly b c -> poseOnly a c.
Proof.
  unfold poseOnly, samePlayback, sameView.
  intros [(?&?&?&?&?&?&?&?&?) (?&?&?&?)] [(?&?&?&?&?&?&?&?&?) (?&?&?&?)].
  repeat split; congruence.
Qed.

Lemma jointStep_poseOnly (d : DatasetPayload) (frame : list Vec3)
    (sel : option nat) (i : nat) (r : Refs) :
  poseOnly r (stateOf (jointStep d frame sel i r)).
Proof.
  unfold jointStep.
  destruct (jointPositionsRef r !! i); [| apply poseOnly_refl].
  destruct (frame !! i); [| apply poseOnly_refl].
  destruct (bool_decide (sel = Some i) && isDraggingRef r);
    [| destruct (jointsRef r !! i)];
    repeat split; simpl; try reflexivity; apply length_insert.
Qed.

Lemma boneStep_poseOnly (ie : nat * (nat * nat)) (r : Refs) :
  poseOnly r (stateOf (boneStep ie r)).
Proof.
  destruct ie as [i [a b]]. unfold boneStep.
  destruct (bonesRef r !! i) as [[qa qb] |]; [| apply poseOnly_refl].
  destruct (jointPositionsRef r !! a); [| apply poseOnly_refl].
  destruct (jointPositionsRef r !! b);
    repeat split; simpl; try reflexivity; apply length_insert.
Qed.

Lemma autoCenter_samePlayback (f : FrameNumber) (r : Refs) :
  samePlayback r (autoCenter f r).
Proof.
  unfold autoCenter.
  destruct f as [[| |] |], (cameraRef r), (controlsRef r), (hasAutoCentered r);
    repeat split.
Qed.

Lemma autoCenter_framed (f : FrameNumber) (r : Refs) :
  hasAutoCentered r = true -> autoCenter f r = r.
Proof.
  intros H. unfold autoCenter. rewrite H.
  now destruct f as [[| |] |], (cameraRef r), (controlsRef r).
Qed.

(** The state [updateSkeleton] returns or throws with is the given one
    up to positions, possibly followed by the framing block. *)
Lemma updateSkeleton_shape (data : option DatasetPayload) (f : FrameNumber)
    (r : Refs) :
  exists r1, poseOnly r r1 /\
    (stateOf (updateSkeleton data f r) = r1 \/
     stateOf (updateSkeleton data f r) = autoCenter f r1).
Proof.
  unfold updateSkeleton.
  destruct data as [d |]; [| exists r; split; [apply poseOnly_refl | now left]].
  destruct (cameraRef r); [| exists r; split; [apply poseOnly_refl | now left]].
  destruct ((length (jointsRef r) =? 0)%nat || (length (bonesRef r) =? 0)%nat);
    [exists r; split; [apply poseOnly_refl | now left] |].
  destruct (frameAt d f) as [frame |];
    [| exists r; split; [apply poseOnly_refl | now left]].
  pose proof (forEach_preserves poseOnly (jointStep d frame (selectedIndex d r))
                (seq 0 (numSensors d)) r poseOnly_refl poseOnly_trans
                (jointStep_poseOnly d frame (selectedIndex d r))) as H1.
  destruct (forEach (jointStep d frame (selectedIndex d r)) (seq 0 (numSensors d)) r)
    as [r1 | r1]; simpl in *; [| exists r1; split; [exact H1 | now left]].
  pose proof (forEach_preserves poseOnly boneStep
                (imap (fun i e => (i, e)) (edgeIndexPairs d)) r1
                poseOnly_refl poseOnly_trans boneStep_poseOnly) as H2.
  destruct (forEach boneStep (imap (fun i e => (i, e)) (edgeIndexPairs d)) r1)
    as [r2 | r2]; simpl in *.
  - exists r2. split; [eapply poseOnly_trans; eassumption | now right].
  - exists r2. split; [eapply poseOnly_trans; eassumption | now left].
Qed.

Lemma samePlayback_trans (a b c : Refs) :
  samePlayback a b -> samePlayback b c -> samePlayback a c.
Proof.
  unfold samePlayback.
  intros (?&?&?&?&?&?&?&?&?) (?&?&?&?&?&?&?&?&?). repeat split; congruence.
Qed.

Lemma updateSkeleton_samePlayback (data : option DatasetPayload)
    (f : FrameNumber) (r : Refs) :
  samePlayback r (stateOf (updateSkeleton data f r)).
Proof.
  destruct (updateSkeleton_shape data f r) as (r1 & [Hp _] & [-> | ->]).
  - exact Hp.
  - eapply samePlayback_trans; [exact Hp | apply autoCenter_samePlayback].
Qed.


(** ** The pose loops on a scene built for the dataset *)

Lemma edgeIndexPairs_bound (d : DatasetPayload) (a b : nat) :
  (a, b) ∈ edgeIndexPairs d ->
  (a < length (sensorNames d))%nat /\ (b < length (sensorNames d))%nat.
Proof.
  unfold edgeIndexPairs. intros Hin.
  apply list_elem_of_omap in Hin as (o & Ho & Hid). simpl in Hid. subst o.
  apply list_elem_of_In, in_map_iff in Ho as (e & He & _).
  unfold edgeLookup in He.
  destruct (nameToIdx (sensorNames d) !! e.1) as [ia |] eqn:Ha; [| discriminate].
  destruct (nameToIdx (sensorNames d) !! e.2) as [ib |] eqn:Hb; [| discriminate].
  injection He as -> ->.
  apply nameToIdx_Some in Ha, Hb. split; eapply lookup_lt_Some; eassumption.
Qed.

Lemma jointStep_normal (d : DatasetPayload) (frame : list Vec3)
    (sel : option nat) (i : nat) (r : Refs) (p : Vec3) :
  (i < length (jointPositionsRef r))%nat ->
  (i < length (jointsRef r))%nat ->
  frame !! i = Some p ->
  jointStep d frame sel i r
  = Normal
      (let pos := resolvedPosition d (calibrationRef r) i p in
       let r1 := setJointPositions (fun ps => <[i := pos]> ps) r in
       if bool_decide (sel = Some i) && isDraggingRef r then r1
       else setJoints (fun js => <[i := pos]> js) r1).
Proof.
  intros Hp Hj Hf. unfold jointStep.
  destruct (lookup_lt_is_Some_2 _ _ Hp) as [q ->].
  destruct (lookup_lt_is_Some_2 _ _ Hj) as [m Hm].
  rewrite Hf. cbv zeta.
  destruct (bool_decide (sel = Some i) && isDraggingRef r); [reflexivity |].
  cbn [jointsRef setJointPositions]. now rewrite Hm.
Qed.

(** The joint loop over the indices [a, a + n): it completes, writes the
    resolved position of every joint in that range to [jointPositions] and,
    unless the joint is the one being dragged, to its mesh, and leaves the
    other joints and the lines alone. *)
Lemma jointLoop_spec (d : DatasetPayload) (frame : list Vec3) (sel : option nat)
    (n a : nat) (r : Refs) :
  (a + n <= length (jointPositionsRef r))%nat ->
  (a + n <= length (jointsRef r))%nat ->
  (a + n <= length frame)%nat ->
  exists r',
    forEach (jointStep d frame sel) (seq a n) r = Normal r' /\
    bonesRef r' = bonesRef r /\
    length (jointPositionsRef r') = length (jointPositionsRef r) /\
    (forall i, (a <= i < a + n)%nat ->
       exists p, frame !! i = Some p /\
         jointPositionsRef r' !! i
           = Some (resolvedPosition d (calibrationRef r) i p) /\
         jointsRef r' !! i
           = if bool_decide (sel = Some i) && isDraggingRef r
             then jointsRef r !! i
             else Some (resolvedPosition d (calibrationRef r) i p)) /\
    (forall i, ~ (a <= i < a + n)%nat ->
       jointPositionsRef r' !! i = jointPositionsRef r !! i /\
       jointsRef r' !! i = jointsRef r !! i).
Proof.
  revert a r. induction n as [| n IH]; intros a r Hp Hj Hf.
  - exists r. simpl. repeat split; intros; lia.
  - destruct (lookup_lt_is_Some_2 frame a) as [p Hpa]; [lia |].
    simpl forEach.
    rewrite (jointStep_normal d frame sel a r p) by (lia || exact Hpa).
    cbv zeta. simpl andThen.
    set (pos := resolvedPosition d (calibrationRef r) a p).
    set (r1 := if bool_decide (sel = Some a) && isDraggingRef r
               then setJointPositions (fun ps => <[a := pos]> ps) r
               else setJoints (fun js => <[a := pos]> js)
                      (setJointPositions (fun ps => <[a := pos]> ps) r)).
    assert (Hr1 : jointPositionsRef r1 = <[a := pos]> (jointPositionsRef r) /\
                  jointsRef r1
                  = (if bool_decide (sel = Some a) && isDraggingRef r
                     then jointsRef r else <[a := pos]> (jointsRef r)) /\
                  bonesRef r1 = bonesRef r /\
                  calibrationRef r1 = calibrationRef r /\
                  isDraggingRef r1 = isDraggingRef r).
    { subst r1. destruct (bool_decide (sel = Some a) && isDraggingRef r);
        repeat split. }
    destruct Hr1 as (Hps & Hjs & Hbs & Hcal & Hdrag).
    destruct (IH (S a) r1) as (r' & Hrun & Hb' & Hl' & Hin & Hout).
    { rewrite Hps, length_insert. lia. }
    { rewrite Hjs. destruct (bool_decide (sel = Some a) && isDraggingRef r);
        rewrite ?length_insert; lia. }
    { lia. }
    exists r'. split; [exact Hrun |]. split; [congruence |].
    split; [rewrite Hl', Hps; apply length_insert |]. split.
    + intros i Hi. destruct (decide (i = a)) as [-> | Hne].
      * exists p. split; [exact Hpa |].
        destruct (Hout a) as [Hpo Hjo]; [lia |].
        rewrite Hpo, Hjo, Hps, Hjs. split.
        -- apply list_lookup_insert_eq. lia.
        -- destruct (bool_decide (sel = Some a) && isDraggingRef r);
             [reflexivity |]. apply list_lookup_insert_eq. lia.
      * destruct (Hin i) as (q & Hq & Hpq & Hjq); [lia |].
        exists q. rewrite Hcal, Hdrag in *. split; [exact Hq |].
        split; [exact Hpq |]. rewrite Hjq.
        destruct (bool_decide (sel = Some i) && isDraggingRef r); [| reflexivity].
        rewrite Hjs. destruct (bool_decide (sel = Some a) && isDraggingRef r);
          [reflexivity |]. apply list_lookup_insert_ne. lia.
    + intros i Hi. destruct (Hout i) as [Hpo Hjo]; [lia |].
      rewrite Hpo, Hjo, Hps, Hjs. split.
      * apply list_lookup_insert_ne. lia.
      * destruct (bool_decide (sel = Some a) && isDraggingRef r);
          [reflexivity |]. apply list_lookup_insert_ne. lia.
Qed.

(** The bone loop completes when every index pair points into
    [jointPositions] and every pair has its line; it moves no joint. *)
Lemma boneLoop_normal (pairs : list (nat * nat)) (r : Refs) :
  (forall a b, (a, b) ∈ pairs ->
     (a < length (jointPositionsRef r))%nat /\ (b < length (jointPositionsRef r))%nat) ->
  (length pairs <= length (bonesRef r))%nat ->
  exists r',
    forEach boneStep (imap (fun i e => (i, e)) pairs) r = Normal r' /\
    jointsRef r' = jointsRef r /\
    jointPositionsRef r' = jointPositionsRef r.
Proof.
  intros Hpairs Hlen.
  destruct (forEach_normal
              (fun r' => jointsRef r' = jointsRef r /\
                         jointPositionsRef r' = jointPositionsRef r /\
                         length (bonesRef r') = length (bonesRef r))
              boneStep (imap (fun i e => (i, e)) pairs) r)
    as (r' & Hrun & Hj & Hp & _).
  - repeat split.
  - intros [i [a b]] s Hin (Hj & Hp & Hb).
    apply elem_of_lookup_imap in Hin as (i' & e & [= -> <-] & Hi).
    destruct (Hpairs a b) as [Ha Hb']; [eapply list_elem_of_lookup_2; exact Hi |].
    apply lookup_lt_Some in Hi.
    unfold boneStep.
    destruct (lookup_lt_is_Some_2 (bonesRef s) i') as [[qa qb] ->]; [lia |].
    rewrite Hp.
    destruct (lookup_lt_is_Some_2 _ _ Ha) as [pa ->].
    destruct (lookup_lt_is_Some_2 _ _ Hb') as [pb ->].
    eexists. split; [reflexivity |]. simpl. repeat split; try assumption.
    rewrite length_insert. exact Hb.
  - exists r'. now repeat split.
Qed.

Lemma wellFormed_frame (d : DatasetPayload) (f : FrameNumber) (frame : list Vec3) :
  wellFormed d = true -> frameAt d f = Some frame ->
  (numSensors d <= length frame)%nat.
Proof.
  unfold wellFormed. intros [Hall _]%andb_prop Hf.
  rewrite forallb_forall in Hall. apply Nat.leb_le, Hall.
  apply list_elem_of_In. destruct f as [k |]; [| discriminate]. simpl in Hf.
  destruct (0 <=? k)%Z; [| discriminate].
  eapply list_elem_of_lookup_2; exact Hf.
Qed.

Lemma inSync_lengths (d : DatasetPayload) (r : Refs) :
  inSync d r = true <->
  length (jointsRef r) = numSensors d /\
  length (jointPositionsRef r) = numSensors d /\
  length (bonesRef r) = length (edgeIndexPairs d).
Proof.
  unfold inSync. rewrite !andb_true_iff, !Nat.eqb_eq. tauto.
Qed.

Lemma inSync_samePlayback (d : DatasetPayload) (r r' : Refs) :
  samePlayback r r' -> inSync d r = true -> inSync d r' = true.
Proof.
  intros (_&_&_&_&_&_&Hj&Hb&Hp). rewrite !inSync_lengths. intros (?&?&?).
  repeat split; congruence.
Qed.

(** On a scene built for a well-formed dataset [updateSkeleton] does not
    throw; it either returns at once, changing nothing, or resolves every
    joint of the frame and then reaches the framing block. *)
Lemma updateSkeleton_resolves (d : DatasetPayload) (f : FrameNumber) (r : Refs) :
  wellFormed d = true -> inSync d r = true ->
  exists r',
    updateSkeleton (Some d) f r = Normal r' /\
    ((r' = r /\
      (cameraRef r = None \/ jointsRef r = [] \/ bonesRef r = [] \/
       frameAt d f = None)) \/
     exists frame r1,
       frameAt d f = Some frame /\ r' = autoCenter f r1 /\ poseOnly r r1 /\
       forall i, (i < numSensors d)%nat ->
         exists p, frame !! i = Some p /\
           jointPositionsRef r1 !! i
             = Some (resolvedPosition d (calibrationRef r) i p) /\
           jointsRef r1 !! i
             = if bool_decide (selectedIndex d r = Some i) && isDraggingRef r
               then jointsRef r !! i
               else Some (resolvedPosition d (calibrationRef r) i p)).
Proof.
  intros Hwf Hsync. pose proof Hsync as Hlen.
  apply inSync_lengths in Hlen as (Hj & Hp & Hb).
  unfold updateSkeleton.
  destruct (cameraRef r) eqn:Hcam;
    [| exists r; split; [reflexivity | left; split; [reflexivity | now left]]].
  destruct ((length (jointsRef r) =? 0)%nat || (length (bonesRef r) =? 0)%nat)
    eqn:Hguard.
  { exists r. split; [reflexivity |]. left. split; [reflexivity |].
    right. apply orb_prop in Hguard as [H | H]; apply Nat.eqb_eq in H;
      apply length_zero_iff_nil in H; [now left | right; now left]. }
  destruct (frameAt d f) as [frame |] eqn:Hframe;
    [| exists r; split; [reflexivity |]; left; split; [reflexivity |];
       right; right; now right].
  pose proof (wellFormed_frame d f frame Hwf Hframe) as Hfl.
  pose proof (forEach_preserves poseOnly (jointStep d frame (selectedIndex d r))
                (seq 0 (numSensors d)) r poseOnly_refl poseOnly_trans
                (jointStep_poseOnly d frame (selectedIndex d r))) as Hpose1.
  destruct (jointLoop_spec d frame (selectedIndex d r) (numSensors d) 0 r)
    as (r1 & Hrun1 & Hb1 & Hl1 & Hin & Hout); simpl; try lia.
  rewrite Hrun1 in *. cbn [stateOf andThen] in *.
  pose proof (forEach_preserves poseOnly boneStep
                (imap (fun i e => (i, e)) (edgeIndexPairs d)) r1
                poseOnly_refl poseOnly_trans boneStep_poseOnly) as Hpose2.
  destruct (boneLoop_normal (edgeIndexPairs d) r1) as (r2 & Hrun2 & Hj2 & Hp2).
  { intros a b Hab. apply edgeIndexPairs_bound in Hab.
    unfold wellFormed in Hwf. apply andb_prop in Hwf as [_ Hn%Nat.leb_le]. lia. }
  { rewrite Hb1. lia. }
  rewrite Hrun2 in *. cbn [stateOf andThen] in *.
  eexists. split; [reflexivity |]. right.
  exists frame, r2. split; [reflexivity |]. split; [reflexivity |].
  split; [eapply poseOnly_trans; eassumption |].
  intros i Hi. destruct (Hin i) as (p & Hfp & Hpp & Hjp); [lia |].
  exists p. now rewrite Hj2, Hp2.
Qed.

(** ** IEEE doubles: rounding keeps the sign and the order *)

Lemma roundEven_nonneg (num den : Z) :
  (0 <= num)%Z -> (0 < den)%Z -> (0 <= Double.roundEven num den)%Z.
Proof.
  intros Hn Hd. unfold Double.roundEven.
  assert (0 <= num / den)%Z by (apply Z.div_pos; lia).
  destruct (2 * (num mod den) ?= den)%Z; [destruct (Z.even (num / den)) | |]; lia.
Qed.

Lemma roundPos_nonneg (n : Z) (d : positive) :
  (0 <= n)%Z -> (0 <= Double.roundPos n d)%Q.
Proof.
  intros Hn. unfold Double.roundPos.
  set (u := (Z.max (Double.binade n d) (-1022) - 52)%Z).
  destruct (0 <=? u)%Z eqn:Hu.
  - apply Z.leb_le in Hu.
    change 0%Q with (inject_Z 0). rewrite <- Zle_Qle.
    apply Z.mul_nonneg_nonneg; [| apply Z.pow_nonneg; lia].
    apply roundEven_nonneg; [exact Hn |].
    apply Z.mul_pos_pos; [lia | apply Z.pow_pos_nonneg; lia].
  - unfold Qle. cbn [Qnum Qden]. rewrite Z.mul_1_r. cbn.
    apply roundEven_nonneg; [| lia].
    apply Z.mul_nonneg_nonneg; [exact Hn | apply Z.pow_nonneg; lia].
Qed.

Lemma round64_nonneg (q : Q) : (0 <= q)%Q -> (0 <= Double.round64 q)%Q.
Proof.
  destruct q as [n d]. unfold Double.round64. cbn [Qnum Qden].
  destruct n as [| n | n]; intros Hq.
  - apply Qle_refl.
  - apply roundPos_nonneg. lia.
  - unfold Qle in Hq. cbn in Hq. lia.
Qed.

Lemma pow2_pos (k : Z) : (0 < 2 ^ k)%Q.
Proof. now apply Qpower_0_lt. Qed.

Lemma pow2_add (a b : Z) : (2 ^ (a + b) == 2 ^ a * 2 ^ b)%Q.
Proof. now apply Qpower_plus. Qed.

Lemma pow2_inject (k : Z) : (0 <= k)%Z -> (2 ^ k == inject_Z (2 ^ k))%Q.
Proof. intros Hk. now rewrite Zpower_Qpower. Qed.

Lemma pow2_mono (a b : Z) : (a <= b)%Z -> (2 ^ a <= 2 ^ b)%Q.
Proof. intros H. now apply Qpower_le_compat_l. Qed.

Lemma pow2_opp (k : Z) : (2 ^ (- k) == / 2 ^ k)%Q.
Proof. apply Qpower_opp. Qed.

(** [roundEven] is between the floor and the floor plus one. *)
Lemma roundEven_floor (num den : Z) :
  (num / den <= Double.roundEven num den <= num / den + 1)%Z.
Proof.
  unfold Double.roundEven.
  destruct (2 * (num mod den) ?= den)%Z; [destruct (Z.even (num / den)) | |]; lia.
Qed.

Lemma roundEven_mono (n1 d1 n2 d2 : Z) :
  (0 < d1)%Z -> (0 < d2)%Z -> (n1 * d2 <= n2 * d1)%Z ->
  (Double.roundEven n1 d1 <= Double.roundEven n2 d2)%Z.
Proof.
  intros H1 H2 Hle.
  pose proof (Z.div_mod n1 d1 ltac:(lia)) as E1.
  pose proof (Z.div_mod n2 d2 ltac:(lia)) as E2.
  pose proof (Z.mod_pos_bound n1 d1 H1) as B1.
  pose proof (Z.mod_pos_bound n2 d2 H2) as B2.
  assert (Hf : (n1 / d1 <= n2 / d2)%Z).
  { apply Z.div_le_lower_bound; [exact H2 |].
    (* d2 * (n1 / d1) <= n2 *)
    assert ((n1 / d1) * d1 <= n1)%Z by lia.
    apply (Z.mul_le_mono_pos_r _ _ d1); [exact H1 |]. nia. }
  destruct (Z.eq_dec (n1 / d1)%Z (n2 / d2)%Z) as [Heq | Hne].
  - unfold Double.roundEven. rewrite <- Heq.
    set (f := (n1 / d1)%Z) in *.
    assert (Hr : ((n1 mod d1) * d2 <= (n2 mod d2) * d1)%Z) by nia.
    destruct (Z.compare_spec (2 * (n1 mod d1))%Z d1) as [C1 | C1 | C1];
      destruct (Z.compare_spec (2 * (n2 mod d2))%Z d2) as [C2 | C2 | C2];
      try (destruct (Z.even f)); try lia; exfalso; nia.
  - pose proof (roundEven_floor n1 d1). pose proof (roundEven_floor n2 d2). lia.
Qed.

Lemma roundEven_integer (k : Z) : Double.roundEven k 1 = k.
Proof.
  unfold Double.roundEven. rewrite Z.mod_1_r, Z.div_1_r. reflexivity.
Qed.

Lemma roundEven_lower (k num den : Z) :
  (0 < den)%Z -> (k * den <= num)%Z -> (k <= Double.roundEven num den)%Z.
Proof.
  intros Hd H. rewrite <- (roundEven_integer k) at 1.
  apply roundEven_mono; lia.
Qed.

Lemma roundEven_upper (k num den : Z) :
  (0 < den)%Z -> (num <= k * den)%Z -> (Double.roundEven num den <= k)%Z.
Proof.
  intros Hd H. rewrite <- (roundEven_integer k) at 1.
  apply roundEven_mono; lia.
Qed.

Lemma scaledDen_pos (n : Z) (d : positive) : (0 < scaledDen n d)%Z.
Proof.
  unfold scaledDen. destruct (0 <=? ulpExp n d)%Z eqn:E; [| lia].
  apply Z.leb_le in E. apply Z.mul_pos_pos; [lia | apply Z.pow_pos_nonneg; lia].
Qed.

Lemma scaled_value (n : Z) (d : positive) :
  (inject_Z (scaledNum n d) == (n # d) / 2 ^ ulpExp n d * inject_Z (scaledDen n d))%Q.
Proof.
  unfold scaledNum, scaledDen.
  pose proof (pow2_pos (ulpExp n d)) as Hp.
  destruct (0 <=? ulpExp n d)%Z eqn:E.
  - apply Z.leb_le in E. rewrite inject_Z_mult, <- pow2_inject by exact E.
    rewrite (Qmake_Qdiv n d). field. split; [discriminate | lra].
  - apply Z.leb_gt in E. rewrite inject_Z_mult, <- pow2_inject by lia.
    rewrite pow2_opp. rewrite (Qmake_Qdiv n d). field. split; [discriminate | lra].
Qed.

Lemma roundPos_repr (n : Z) (d : positive) :
  (Double.roundPos n d
   == inject_Z (Double.roundEven (scaledNum n d) (scaledDen n d)) * 2 ^ ulpExp n d)%Q.
Proof.
  unfold Double.roundPos, scaledNum, scaledDen. fold (ulpExp n d).
  destruct (0 <=? ulpExp n d)%Z eqn:E.
  - apply Z.leb_le in E. rewrite inject_Z_mult, <- pow2_inject by exact E.
    reflexivity.
  - apply Z.leb_gt in E. rewrite Qmake_Qdiv.
    rewrite Z2Pos.id by (apply Z.pow_pos_nonneg; lia).
    rewrite <- pow2_inject by lia. rewrite pow2_opp.
    pose proof (pow2_pos (ulpExp n d)). field. lra.
Qed.

(** The scaled fraction against an integer. *)
Lemma scaled_le (n : Z) (d : positive) (k : Z) :
  ((n # d) <= inject_Z k * 2 ^ ulpExp n d)%Q ->
  (scaledNum n d <= k * scaledDen n d)%Z.
Proof.
  intros H. pose proof (scaledDen_pos n d) as Hd. pose proof (pow2_pos (ulpExp n d)) as Hp.
  rewrite Zle_Qle, inject_Z_mult, scaled_value.
  apply Qmult_le_compat_r; [| change 0%Q with (inject_Z 0); rewrite <- Zle_Qle; lia].
  apply Qle_shift_div_r; assumption.
Qed.

Lemma scaled_ge (n : Z) (d : positive) (k : Z) :
  (inject_Z k * 2 ^ ulpExp n d <= (n # d))%Q ->
  (k * scaledDen n d <= scaledNum n d)%Z.
Proof.
  intros H. pose proof (scaledDen_pos n d) as Hd. pose proof (pow2_pos (ulpExp n d)) as Hp.
  rewrite Zle_Qle, inject_Z_mult, scaled_value.
  apply Qmult_le_compat_r; [| change 0%Q with (inject_Z 0); rewrite <- Zle_Qle; lia].
  apply Qle_shift_div_l; assumption.
Qed.

Lemma frac_lt_iff (N D P : Q) : (0 < D)%Q -> (N / D < P <-> N < P * D)%Q.
Proof.
  intros HD. split.
  - intros H. apply (Qmult_lt_r _ _ D HD) in H.
    assert (E : (N / D * D == N)%Q) by (field; lra).
    rewrite E in H. exact H.
  - now apply Qlt_shift_div_r.
Qed.

Lemma frac_ge_iff (N D P : Q) : (0 < D)%Q -> (P <= N / D <-> P * D <= N)%Q.
Proof.
  intros HD. split.
  - intros H. apply (Qmult_le_r _ _ D HD) in H.
    assert (E : (N / D * D == N)%Q) by (field; lra).
    rewrite E in H. exact H.
  - now apply Qle_shift_div_l.
Qed.

(** The exponent found by [binade]. *)
Lemma binade_spec (n : Z) (d : positive) :
  (0 < n)%Z ->
  (2 ^ Double.binade n d <= (n # d))%Q /\ ((n # d) < 2 ^ (Double.binade n d + 1))%Q.
Proof.
  intros Hn. unfold Double.binade.
  destruct (Z.log2_spec n Hn) as [Ha1 Ha2].
  destruct (Z.log2_spec (Zpos d) ltac:(lia)) as [Hb1 Hb2].
  rewrite <- Z.add_1_r in Ha2, Hb2.
  pose proof (Z.log2_nonneg n) as Ha0.
  pose proof (Z.log2_nonneg (Zpos d)) as Hb0.
  set (a := Z.log2 n) in *. set (b := Z.log2 (Zpos d)) in *.
  rewrite Zle_Qle in Ha1, Hb1. rewrite Zlt_Qlt in Ha2, Hb2.
  rewrite <- pow2_inject in Ha1, Ha2, Hb1, Hb2 by lia.
  rewrite (Qmake_Qdiv n d).
  set (N := inject_Z n) in *. set (D := inject_Z (Zpos d)) in *.
  assert (HD : (0 < D)%Q) by (pose proof (pow2_pos b); lra).
  set (e := (a - b)%Z).
  assert (Hlow : (2 ^ (e - 1) <= N / D)%Q).
  { apply frac_ge_iff; [exact HD |].
    assert (Hp : (2 ^ (e - 1) * 2 ^ (b + 1) == 2 ^ a)%Q).
    { rewrite <- pow2_add. now replace (e - 1 + (b + 1))%Z with a by (unfold e; lia). }
    pose proof (pow2_pos (e - 1)). nra. }
  assert (Hhigh : (N / D < 2 ^ (e + 1))%Q).
  { apply frac_lt_iff; [exact HD |].
    assert (Hp : (2 ^ (e + 1) * 2 ^ b == 2 ^ (a + 1))%Q).
    { rewrite <- pow2_add. now replace (e + 1 + b)%Z with (a + 1)%Z by (unfold e; lia). }
    pose proof (pow2_pos (e + 1)). nra. }
  assert (Htest : (if (0 <=? e)%Z then (n <? Zpos d * 2 ^ e)%Z
                   else (n * 2 ^ (- e) <? Zpos d)%Z) = true
                  <-> (N / D < 2 ^ e)%Q).
  { rewrite frac_lt_iff by exact HD. destruct (0 <=? e)%Z eqn:E.
    - apply Z.leb_le in E.
      rewrite Z.ltb_lt, Zlt_Qlt, inject_Z_mult, <- pow2_inject by exact E.
      fold N D. split; intros H; lra.
    - apply Z.leb_gt in E.
      rewrite Z.ltb_lt, Zlt_Qlt, inject_Z_mult, <- pow2_inject by lia.
      fold N D.
      assert (Hinv : (2 ^ e * 2 ^ (- e) == 1)%Q).
      { rewrite <- pow2_add. now replace (e + - e)%Z with 0%Z by lia. }
      pose proof (pow2_pos e) as Pe. pose proof (pow2_pos (- e)) as Pne.
      split; intros H.
      + assert (H2 : (N * 2 ^ (- e) * 2 ^ e < D * 2 ^ e)%Q)
          by (apply Qmult_lt_r; assumption).
        assert (E' : (N * 2 ^ (- e) * 2 ^ e == N * (2 ^ e * 2 ^ (- e)))%Q) by ring.
        rewrite E', Hinv in H2. lra.
      + assert (H2 : (N * 2 ^ (- e) < 2 ^ e * D * 2 ^ (- e))%Q)
          by (apply Qmult_lt_r; assumption).
        assert (E' : (2 ^ e * D * 2 ^ (- e) == D * (2 ^ e * 2 ^ (- e)))%Q) by ring.
        rewrite E', Hinv in H2. lra. }
  fold e.
  destruct (if (0 <=? e)%Z then (n <? Zpos d * 2 ^ e)%Z
            else (n * 2 ^ (- e) <? Zpos d)%Z) eqn:T.
  - split; [exact Hlow |].
    replace (e - 1 + 1)%Z with e by lia. now apply Htest.
  - split; [| exact Hhigh].
    apply Qnot_lt_le. intros H. apply Htest in H. congruence.
Qed.

Lemma binade_mono (n1 : Z) (d1 : positive) (n2 : Z) (d2 : positive) :
  (0 < n1)%Z -> (0 < n2)%Z -> ((n1 # d1) <= (n2 # d2))%Q ->
  (Double.binade n1 d1 <= Double.binade n2 d2)%Z.
Proof.
  intros H1 H2 Hle.
  destruct (binade_spec n1 d1 H1) as [L1 _].
  destruct (binade_spec n2 d2 H2) as [_ U2].
  assert (Hlt : (2 ^ Double.binade n1 d1 < 2 ^ (Double.binade n2 d2 + 1))%Q) by lra.
  apply Qpower_lt_compat_l_inv in Hlt; [lia | reflexivity].
Qed.

Lemma roundPos_mono (n1 : Z) (d1 : positive) (n2 : Z) (d2 : positive) :
  (0 < n1)%Z -> ((n1 # d1) <= (n2 # d2))%Q ->
  (Double.roundPos n1 d1 <= Double.roundPos n2 d2)%Q.
Proof.
  intros H1 Hle.
  assert (H2 : (0 < n2)%Z).
  { unfold Qle in Hle. cbn [Qnum Qden] in Hle. nia. }
  pose proof (binade_mono n1 d1 n2 d2 H1 H2 Hle) as He.
  destruct (binade_spec n1 d1 H1) as [L1 U1].
  destruct (binade_spec n2 d2 H2) as [L2 U2].
  rewrite !roundPos_repr.
  pose proof (scaledDen_pos n1 d1) as D1. pose proof (scaledDen_pos n2 d2) as D2.
  pose proof (pow2_pos (ulpExp n1 d1)) as P1. pose proof (pow2_pos (ulpExp n2 d2)) as P2.
  destruct (Z.eq_dec (ulpExp n1 d1) (ulpExp n2 d2)) as [Hu | Hu].
  - (* the same spacing *)
    rewrite <- Hu in *. apply Qmult_le_compat_r; [| lra].
    rewrite <- Zle_Qle. apply roundEven_mono; [exact D1 | exact D2 |].
    rewrite Zle_Qle, !inject_Z_mult.
    pose proof (scaled_value n1 d1) as V1. pose proof (scaled_value n2 d2) as V2.
    rewrite <- Hu in V2.
    assert (Hx : ((n1 # d1) / 2 ^ ulpExp n1 d1 <= (n2 # d2) / 2 ^ ulpExp n1 d1)%Q).
    { apply Qmult_le_compat_r; [exact Hle |]. apply Qlt_le_weak, Qinv_lt_0_compat, P1. }
    rewrite Zlt_Qlt in D1, D2. change (inject_Z 0) with 0%Q in D1, D2.
    rewrite V1, V2.
    set (x1 := ((n1 # d1) / 2 ^ ulpExp n1 d1)%Q) in *.
    set (x2 := ((n2 # d2) / 2 ^ ulpExp n1 d1)%Q) in *.
    set (A := inject_Z (scaledDen n1 d1)) in *.
    set (B := inject_Z (scaledDen n2 d2)) in *.
    assert (HAB : (0 <= A * B)%Q) by nra.
    pose proof (Qmult_le_compat_r _ _ (A * B) Hx HAB) as Hm.
    assert (E1 : (x1 * A * B == x1 * (A * B))%Q) by ring.
    assert (E2 : (x2 * B * A == x2 * (A * B))%Q) by ring.
    rewrite E1, E2. exact Hm.
  - (* a wider spacing: a power of two lies between *)
    assert (Hlt : (ulpExp n1 d1 < ulpExp n2 d2)%Z) by (unfold ulpExp in *; lia).
    assert (Hm1 : (Double.roundEven (scaledNum n1 d1) (scaledDen n1 d1) <= 2 ^ 53)%Z).
    { apply roundEven_upper; [exact D1 |]. apply scaled_le.
      rewrite <- pow2_inject by lia. rewrite <- pow2_add.
      apply Qle_trans with (2 ^ (Double.binade n1 d1 + 1))%Q; [lra |].
      apply pow2_mono. unfold ulpExp. lia. }
    assert (Hm2 : (2 ^ 52 <= Double.roundEven (scaledNum n2 d2) (scaledDen n2 d2))%Z).
    { apply roundEven_lower; [exact D2 |]. apply scaled_ge.
      rewrite <- pow2_inject by lia. rewrite <- pow2_add.
      apply Qle_trans with (2 ^ Double.binade n2 d2)%Q; [| exact L2].
      apply pow2_mono. unfold ulpExp in *. lia. }
    rewrite Zle_Qle in Hm1, Hm2. rewrite <- pow2_inject in Hm1, Hm2 by lia.
    apply Qle_trans with (2 ^ 53 * 2 ^ ulpExp n1 d1)%Q;
      [apply Qmult_le_compat_r; [exact Hm1 | lra] |].
    apply Qle_trans with (2 ^ 52 * 2 ^ ulpExp n2 d2)%Q;
      [| apply Qmult_le_compat_r; [exact Hm2 | lra]].
    rewrite <- !pow2_add. apply pow2_mono. lia.
Qed.

(** The double for a larger number is not smaller. *)
Lemma round64_mono (q1 q2 : Q) :
  (q1 <= q2)%Q -> (Double.round64 q1 <= Double.round64 q2)%Q.
Proof.
  destruct q1 as [n1 d1], q2 as [n2 d2]. intros Hle.
  unfold Double.round64. cbn [Qnum Qden].
  assert (Hz : (n1 * Zpos d2 <= n2 * Zpos d1)%Z) by exact Hle.
  destruct n1 as [| p1 | p1], n2 as [| p2 | p2]; try lia.
  - apply Qle_refl.
  - apply roundPos_nonneg. lia.
  - apply roundPos_mono; [lia | exact Hle].
  - pose proof (roundPos_nonneg (- Z.neg p1) d1 ltac:(lia)). lra.
  - pose proof (roundPos_nonneg (- Z.neg p1) d1 ltac:(lia)).
    pose proof (roundPos_nonneg (Z.pos p2) d2 ltac:(lia)). lra.
  - apply Qopp_le_compat. apply roundPos_mono; [lia |].
    unfold Qle. cbn [Qnum Qden]. lia.
Qed.

#[local] Instance round64_proper : Proper (Qeq ==> Qeq) Double.round64.
Proof.
  intros q1 q2 Heq. apply Qle_antisym; apply round64_mono; lra.
Qed.

Lemma round64_unit_interval (q : Q) :
  (0 <= q)%Q -> (q <= 1)%Q -> (0 <= Double.round64 q /\ Double.round64 q <= 1)%Q.
Proof.
  intros H0 H1. split; [now apply round64_nonneg |].
  apply Qle_trans with (Double.round64 1); [now apply round64_mono |].
  vm_compute. discriminate.
Qed.

(** ** The playback clock *)

Lemma Qltb_true (x y : Q) : Qltb x y = true <-> (x < y)%Q.
Proof.
  unfold Qltb. rewrite negb_true_iff. split.
  - intros H. apply Qnot_le_lt. intros Hle. apply Qle_bool_iff in Hle. congruence.
  - intros H. destruct (Qle_bool y x) eqn:E; [| reflexivity].
    apply Qle_bool_iff in E. lra.
Qed.

Lemma Qle_bool_false (x y : Q) : Qle_bool x y = false <-> (y < x)%Q.
Proof.
  split.
  - intros H. apply Qnot_le_lt. intros Hle. apply Qle_bool_iff in Hle. congruence.
  - intros H. destruct (Qle_bool x y) eqn:E; [| reflexivity].
    apply Qle_bool_iff in E. lra.
Qed.

Lemma fps_pos (d : DatasetPayload) (p : Props) :
  (0 <= frameRate d)%Q -> (0 < fps d p)%Q.
Proof.
  intros Hrate. unfold fps.
  destruct (Qltb 0 (targetFps p)) eqn:Ht; [now apply Qltb_true |].
  destruct (Qeq_bool (frameRate d) 0) eqn:Hz; [reflexivity |].
  apply Qeq_bool_neq in Hz. lra.
Qed.

Lemma intervalMs_nonneg (d : DatasetPayload) (p : Props) :
  (0 <= frameRate d)%Q -> (0 <= intervalMs d p)%Q.
Proof.
  intros Hrate. unfold intervalMs. apply round64_nonneg.
  apply Qlt_le_weak, Qlt_shift_div_l.
  - now apply fps_pos.
  - pose proof (fps_pos d p Hrate). lra.
Qed.

(** A count as a rational. *)
Lemma inject_count_S (k : nat) :
  (inject_Z (Z.of_nat (S k)) == inject_Z (Z.of_nat k) + 1)%Q.
Proof. rewrite Nat2Z.inj_succ, <- Z.add_1_r, inject_Z_plus. reflexivity. Qed.

(** Taking one interval off first, then [k] more. *)
Lemma drained_shift (i : Q) (k : nat) (a : Q) :
  drained i (S k) a = drained i k (Double.round64 (a - i)).
Proof.
  induction k as [| k IH]; [reflexivity |].
  change (drained i (S (S k)) a) with (Double.round64 (drained i (S k) a - i)).
  rewrite IH. reflexivity.
Qed.

(** When no subtraction rounds, [k] intervals are gone after [k]
    iterations. *)
Lemma drained_exact (i : Q) (n : nat) (a : Q) :
  (forall k, (k < n)%nat ->
     (Double.round64 (drained i k a - i) == drained i k a - i)%Q) ->
  forall k, (k <= n)%nat ->
    (drained i k a == a - inject_Z (Z.of_nat k) * i)%Q.
Proof.
  intros Hexact k. induction k as [| k IH]; intros Hk.
  - cbn [drained]. change (inject_Z (Z.of_nat 0)) with 0%Q. ring.
  - cbn [drained]. rewrite Hexact by lia. rewrite IH by lia.
    rewrite inject_count_S. ring.
Qed.

(** The count of a loop that stops as the source's does, when no
    subtraction rounds: the whole number of intervals in the accumulated
    time, or the cap. *)
Lemma exact_count (i total : Q) (n cap : nat) :
  (0 < i)%Q -> (n <= cap)%nat ->
  (forall k, (k < n)%nat -> (i <= drained i k total)%Q) ->
  ((n < cap)%nat -> (drained i n total < i)%Q) ->
  (forall k, (k < n)%nat ->
     (Double.round64 (drained i k total - i) == drained i k total - i)%Q) ->
  n = Z.to_nat (Z.min (Qfloor (total / i)) (Z.of_nat cap)).
Proof.
  intros Hi Hcap Hfits Hstop Hexact.
  pose proof (drained_exact i n total Hexact) as Hd.
  assert (Hlo : (0 < n)%nat -> (Z.of_nat n <= Qfloor (total / i))%Z).
  { intros Hn. destruct n as [| m]; [lia |].
    specialize (Hfits m ltac:(lia)). rewrite (Hd m) in Hfits by lia.
    rewrite <- (Qfloor_Z (Z.of_nat (S m))). apply Qfloor_resp_le.
    apply Qle_shift_div_l; [exact Hi |]. rewrite inject_count_S. lra. }
  destruct (decide (n < cap)%nat) as [Hlt | Hge].
  - specialize (Hstop Hlt). rewrite (Hd n) in Hstop by lia.
    assert (Hhi : (Qfloor (total / i) < Z.of_nat n + 1)%Z).
    { rewrite Zlt_Qlt. eapply Qle_lt_trans; [apply Qfloor_le |].
      apply Qlt_shift_div_r; [exact Hi |]. rewrite inject_Z_plus.
      change (inject_Z 1) with 1%Q. lra. }
    destruct n as [| m]; [lia |]. specialize (Hlo ltac:(lia)). lia.
  - assert (n = cap) by lia. subst n.
    destruct cap as [| m]; [lia |]. specialize (Hlo ltac:(lia)). lia.
Qed.

(** One iteration of the loop on a scene built for the dataset. *)
Lemma loopBody_normal (d : DatasetPayload) (p : Props) (s : LoopState) :
  wellFormed d = true -> inSync d (loopRefs s) = true ->
  exists r,
    loopBody d p s
    = Normal {| acc := Double.round64 (acc s - intervalMs d p);
                framesToUpdate := S (framesToUpdate s);
                loopRefs := r |} /\
    inSync d r = true /\
    currentFrameRef r = advanceFrame d (currentFrameRef (loopRefs s)) /\
    frameChanges r
    = advanceFrame d (currentFrameRef (loopRefs s)) :: frameChanges (loopRefs s).
Proof.
  intros Hwf Hsync. unfold loopBody.
  set (r1 := setCurrentFrame (advanceFrame d (currentFrameRef (loopRefs s))) (loopRefs s)).
  assert (Hsync1 : inSync d r1 = true) by exact Hsync.
  destruct (updateSkeleton_resolves d (currentFrameRef r1) r1 Hwf Hsync1)
    as (r2 & Hrun & _).
  pose proof (updateSkeleton_samePlayback (Some d) (currentFrameRef r1) r1) as Hsame.
  rewrite Hrun in *. simpl in Hsame.
  eexists. split; [reflexivity |].
  pose proof Hsame as (Hc & _ & _ & _ & _ & Hlog & _).
  split; [| split].
  - change (inSync d r2 = true).
    exact (inSync_samePlayback d r1 r2 Hsame Hsync1).
  - simpl. rewrite Hc. reflexivity.
  - simpl. rewrite Hc, Hlog. reflexivity.
Qed.

(** The loop with [fuel] iterations left of the [maxFrameSkip] allowed:
    it makes [k] iterations, each entered with at least one interval in
    the accumulator, taking one interval off it and advancing the frame
    once; it stops early only when less than an interval is left. *)
Lemma catchUp_spec (d : DatasetPayload) (p : Props) (fuel : nat) (s : LoopState) :
  wellFormed d = true -> inSync d (loopRefs s) = true ->
  (framesToUpdate s + fuel = maxFrameSkip p)%nat ->
  exists s' k,
    catchUp d p fuel s = Normal s' /\
    (k <= fuel)%nat /\
    framesToUpdate s' = (framesToUpdate s + k)%nat /\
    acc s' = drained (intervalMs d p) k (acc s) /\
    (forall j, (j < k)%nat ->
       (intervalMs d p <= drained (intervalMs d p) j (acc s))%Q) /\
    ((k < fuel)%nat -> (acc s' < intervalMs d p)%Q) /\
    inSync d (loopRefs s') = true /\
    currentFrameRef (loopRefs s')
    = Nat.iter k (advanceFrame d) (currentFrameRef (loopRefs s)) /\
    length (frameChanges (loopRefs s')) = (length (frameChanges (loopRefs s)) + k)%nat.
Proof.
  intros Hwf. revert s. induction fuel as [| fuel IH]; intros s Hsync Hfuel.
  - exists s, 0%nat. split; [reflexivity |].
    split; [lia |]. split; [lia |]. split; [reflexivity |].
    split; [intros; lia |]. split; [intros; lia |].
    split; [exact Hsync |]. split; [reflexivity | lia].
  - simpl catchUp. unfold loopCondition.
    assert ((framesToUpdate s <? maxFrameSkip p)%nat = true) as ->
      by (apply Nat.ltb_lt; lia).
    rewrite andb_true_r.
    destruct (Qle_bool (intervalMs d p) (acc s)) eqn:Hcond.
    + apply Qle_bool_iff in Hcond.
      destruct (loopBody_normal d p s Hwf Hsync) as (r & -> & Hsync' & Hcur & Hlog).
      destruct (IH {| acc := Double.round64 (acc s - intervalMs d p);
                      framesToUpdate := S (framesToUpdate s);
                      loopRefs := r |})
        as (s' & k & Hrun & Hk & Hn & Hacc & Hfits & Hstop & Hs & Hc & Hl);
        [exact Hsync' | simpl; lia |].
      cbn [acc framesToUpdate loopRefs] in *.
      exists s', (S k). split; [exact Hrun |].
      split; [lia |]. split; [lia |]. split.
      { rewrite drained_shift. exact Hacc. }
      split.
      { intros [| j] Hj; [exact Hcond |].
        rewrite drained_shift. apply Hfits. lia. }
      split; [intros; apply Hstop; lia |].
      split; [exact Hs |]. split.
      { rewrite Hc, Hcur. symmetry. apply Nat.iter_succ_r. }
      { rewrite Hl, Hlog. cbn [length]. lia. }
    + apply Qle_bool_false in Hcond. exists s, 0%nat.
      split; [reflexivity |]. split; [lia |]. split; [lia |].
      split; [reflexivity |]. split; [intros; lia |].
      split; [intros _; exact Hcond |].
      split; [exact Hsync |]. split; [reflexivity | lia].
Qed.

(** The loop started by a tick. *)
Lemma tickLoop_spec (d : DatasetPayload) (p : Props) (time : Q) (c : Clock)
    (r : Refs) :
  wellFormed d = true -> inSync d r = true ->
  exists s,
    tickLoop d p time c r = Normal s /\
    (framesToUpdate s <= maxFrameSkip p)%nat /\
    acc s = drained (intervalMs d p) (framesToUpdate s) (accumulated c time) /\
    (forall k, (k < framesToUpdate s)%nat ->
       (intervalMs d p <= drained (intervalMs d p) k (accumulated c time))%Q) /\
    ((framesToUpdate s < maxFrameSkip p)%nat -> (acc s < intervalMs d p)%Q) /\
    inSync d (loopRefs s) = true /\
    currentFrameRef (loopRefs s)
    = Nat.iter (framesToUpdate s) (advanceFrame d) (currentFrameRef r) /\
    length (frameChanges (loopRefs s))
    = (length (frameChanges r) + framesToUpdate s)%nat.
Proof.
  intros Hwf Hsync. unfold tickLoop.
  destruct (catchUp_spec d p (maxFrameSkip p)
              {| acc := accumulated c time; framesToUpdate := 0; loopRefs := r |}
              Hwf Hsync)
    as (s & k & Hrun & Hk & Hn & Hacc & Hfits & Hstop & Hs & Hc & Hl);
    [reflexivity |].
  cbn [acc framesToUpdate loopRefs Nat.add] in *. subst k.
  exists s. split; [exact Hrun |]. now repeat split.
Qed.


(** ** Invariants of a run *)


Lemma refs_withRefs (v : Viewer) (c : Completion Refs) :
  refs (stateOf (withRefs v c)) = stateOf c.
Proof. now destruct c. Qed.

Section RunInvariant.

Variable d : DatasetPayload.
Variable P : Refs -> Prop.

Hypothesis P_update :
  forall f r, P r -> P (stateOf (updateSkeleton (Some d) f r)).
Hypothesis P_advance :
  forall r, P r -> P (setCurrentFrame (advanceFrame d (currentFrameRef r)) r).
Hypothesis P_seek :
  forall s r, P r -> P (setCurrentFrame (Frame (seekTarget (Some d) s)) r).
Hypothesis P_notify : forall f r, P r -> P (onFrameChange f r).
Hypothesis P_seeking : forall b r, P r -> P (setIsSeeking b r).
Hypothesis P_dragging : forall b r, P r -> P (setIsDragging b r).
Hypothesis P_select : forall j r, P r -> P (setSelectedJoint j r).
Hypothesis P_calibration : forall c r, P r -> P (setCalibrationRef c r).
Hypothesis P_joints : forall f r, P r -> P (setJoints f r).

Lemma loopBody_invariant (p : Props) (s : LoopState) :
  P (loopRefs s) -> P (loopRefs (stateOf (loopBody d p s))).
Proof.
  intros H. unfold loopBody.
  set (r1 := setCurrentFrame (advanceFrame d (currentFrameRef (loopRefs s))) (loopRefs s)).
  pose proof (P_update (currentFrameRef r1) r1 (P_advance _ H)) as H1.
  destruct (updateSkeleton (Some d) (currentFrameRef r1) r1); simpl in *.
  - now apply P_notify.
  - exact H1.
Qed.

Lemma catchUp_invariant (p : Props) (fuel : nat) (s : LoopState) :
  P (loopRefs s) -> P (loopRefs (stateOf (catchUp d p fuel s))).
Proof.
  revert s. induction fuel as [| fuel IH]; intros s H; simpl; [exact H |].
  destruct (loopCondition d p s); [| exact H].
  pose proof (loopBody_invariant p s H) as H1.
  destruct (loopBody d p s) as [s' | s']; simpl in *.
  - now apply IH.
  - exact H1.
Qed.

Lemma tick_invariant (time : Q) (v : Viewer) :
  P (refs v) -> P (refs (stateOf (tick d time v))).
Proof.
  intros H. unfold tick.
  destruct (negb (isPlaying (props v)) || isSeekingRef (refs v)
            || isDraggingRef (refs v)); [exact H |].
  pose proof (catchUp_invariant (props v) (maxFrameSkip (props v))
                {| acc := accumulated (clock v) time;
                   framesToUpdate := 0; loopRefs := refs v |} H) as H1.
  unfold tickLoop.
  destruct (catchUp d (props v) (maxFrameSkip (props v)) _); exact H1.
Qed.

Lemma step_invariant (v : Viewer) (e : Event) :
  P (refs v) -> P (refs (stateOf (step d v e))).
Proof.
  intros H. destruct e as [time | p now | s | b | j | cal | m];
    cbn [step]; rewrite ?refs_withRefs.
  - now apply tick_invariant.
  - exact H.
  - unfold seekEffect. destruct s as [s |]; [| now apply P_seeking].
    pose proof (P_update (Frame (seekTarget (Some d) s)) _
                  (P_seek s _ (P_seeking true _ H))) as H1.
    destruct (updateSkeleton (Some d) (Frame (seekTarget (Some d) s)) _);
      simpl in *; [now apply P_notify | exact H1].
  - now apply P_dragging.
  - now apply P_select.
  - unfold calibrationEffect.
    destruct (isDraggingRef (setCalibrationRef cal (refs v)));
      [now apply P_calibration |].
    exact (P_update _ _ (P_calibration cal _ H)).
  - unfold moveAttached. destruct (selectedIndex d (refs v)); simpl;
      [now apply P_joints | exact H].
Qed.

Lemma run_invariant (v : Viewer) (es : list Event) :
  P (refs v) -> P (refs (run d v es)).
Proof.
  revert v. induction es as [| e es IH]; intros v H; simpl; [exact H |].
  apply IH. now apply step_invariant.
Qed.

End RunInvariant.

(** ** The playback clock: claims *)

(** C1, as the source has it.  Take a tick while playing, neither
    seeking nor dragging, of a viewer whose skeleton was built for its
    well-formed dataset.  The time since the last tick is added to the
    accumulator, each operation rounded to a double; this is [total].
    The loop then advances the frame [n] times, with [n] at most
    [maxFrameSkip], which is 3 on Safari and 5 otherwise: each advance is
    made with at least one interval in the accumulator and takes one
    interval off it, again rounded, and when [n] is below the cap what is
    left is less than one interval.  The listener is notified [n] times
    and the accumulator keeps what the [n] subtractions left of [total]:
    what the cap leaves unconsumed stays there for the ticks to come.
    When the interval is positive and none of the subtractions rounds,
    [n = min(floor(total / intervalMs), maxFrameSkip)]. *)
Theorem tick_advances_while_interval_fits (d : DatasetPayload) (v : Viewer)
    (time : Q) :
  wellFormed d = true -> inSync d (refs v) = true ->
  isPlaying (props v) = true ->
  isSeekingRef (refs v) = false -> isDraggingRef (refs v) = false ->
  let i := intervalMs d (props v) in
  let cap := maxFrameSkip (props v) in
  let total := accumulated (clock v) time in
  cap = (if isSafari (props v) then 3 else 5)%nat /\
  exists (n : nat) s v',
    tickLoop d (props v) time (clock v) (refs v) = Normal s /\
    framesToUpdate s = n /\
    (n <= cap)%nat /\
    (forall k, (k < n)%nat -> (i <= drained i k total)%Q) /\
    ((n < cap)%nat -> (drained i n total < i)%Q) /\
    tick d time v = Normal v' /\
    currentFrameRef (refs v') = Nat.iter n (advanceFrame d) (currentFrameRef (refs v)) /\
    length (frameChanges (refs v')) = (length (frameChanges (refs v)) + n)%nat /\
    accumulator (clock v') = drained i n total /\
    ((0 < i)%Q ->
     (forall k, (k < n)%nat ->
        (Double.round64 (drained i k total - i) == drained i k total - i)%Q) ->
     n = Z.to_nat (Z.min (Qfloor (total / i)) (Z.of_nat cap))).
Proof.
  intros Hwf Hsync Hplay Hseek Hdrag i cap total.
  split; [reflexivity |].
  destruct (tickLoop_spec d (props v) time (clock v) (refs v) Hwf Hsync)
    as (s & Hrun & Hcap & Hacc & Hfits & Hstop & _ & Hcur & Hlog).
  fold i total cap in Hcap, Hacc, Hfits, Hstop.
  unfold tick. rewrite Hplay, Hseek, Hdrag, Hrun. cbn [negb orb].
  exists (framesToUpdate s), s. eexists.
  split; [reflexivity |]. split; [reflexivity |]. split; [exact Hcap |].
  split; [exact Hfits |].
  split; [intros Hlt; rewrite <- Hacc; now apply Hstop |].
  split; [reflexivity |]. cbn [refs clock accumulator].
  split; [exact Hcur |]. split; [exact Hlog |]. split; [exact Hacc |].
  intros Hi Hexact. apply exact_count; try assumption.
  intros Hlt. rewrite <- Hacc. now apply Hstop.
Qed.

Lemma tick_advances_while_interval_fits_witness :
  let i := intervalMs sampleDataset (props sampleViewer) in
  let cap := maxFrameSkip (props sampleViewer) in
  let total := accumulated (clock sampleViewer) 70 in
  cap = (if isSafari (props sampleViewer) then 3 else 5)%nat /\
  exists (n : nat) s v',
    tickLoop sampleDataset (props sampleViewer) 70 (clock sampleViewer)
      (refs sampleViewer) = Normal s /\
    framesToUpdate s = n /\
    (n <= cap)%nat /\
    (forall k, (k < n)%nat -> (i <= drained i k total)%Q) /\
    ((n < cap)%nat -> (drained i n total < i)%Q) /\
    tick sampleDataset 70 sampleViewer = Normal v' /\
    currentFrameRef (refs v')
    = Nat.iter n (advanceFrame sampleDataset) (currentFrameRef (refs sampleViewer)) /\
    length (frameChanges (refs v'))
    = (length (frameChanges (refs sampleViewer)) + n)%nat /\
    accumulator (clock v') = drained i n total /\
    ((0 < i)%Q ->
     (forall k, (k < n)%nat ->
        (Double.round64 (drained i k total - i) == drained i k total - i)%Q) ->
     n = Z.to_nat (Z.min (Qfloor (total / i)) (Z.of_nat cap))).
Proof.
  apply (tick_advances_while_interval_fits sampleDataset sampleViewer 70).
  - vm_compute; reflexivity.
  - vm_compute; reflexivity.
  - reflexivity.
  - vm_compute; reflexivity.
  - vm_compute; reflexivity.
Defined.

(** C1, as stated, fails twice.  With an interval of 20 ms and the cap of
    five, a tick after 200 ms hits the cap; the accumulator then holds
    100 ms, not 0, and the next tick, with no time elapsed at all,
    advances five more frames out of it.  And at 30 frames per second the
    interval [1000 / 30] is the double 33.333333333333336, so that a tick
    after 100 ms advances two frames and leaves 33.33333333333332 ms,
    where [floor(100 / (1000 / 30))] is three and the cap is five. *)
Lemma tick_cap_hit_keeps_backlog :
  let v1 := stateOf (tick sampleDataset 200 sampleViewer) in
  let v2 := stateOf (tick sampleDataset 200 v1) in
  let v30 := stateOf (tick sampleDataset 100 viewerAt30) in
  (Z.of_nat (maxFrameSkip (props sampleViewer))
   < Qfloor (200 / (1000 / targetFps (props sampleViewer))))%Z /\
  (accumulator (clock v1) == 100)%Q /\
  ~ (accumulator (clock v1) == 0)%Q /\
  length (frameChanges (refs v1)) = 5%nat /\
  length (frameChanges (refs v2)) = 10%nat /\
  Z.min (Qfloor (100 / (1000 / targetFps (props viewerAt30))))
        (Z.of_nat (maxFrameSkip (props viewerAt30))) = 3%Z /\
  length (frameChanges (refs v30)) = 2%nat /\
  (intervalMs sampleDataset (props viewerAt30)
   == 4691249611844267 # 140737488355328)%Q /\
  (accumulator (clock v30) == 4691249611844265 # 140737488355328)%Q.
Proof.
  cbv zeta. split; [vm_compute; reflexivity |].
  split; [vm_compute; reflexivity |].
  split; [vm_compute; discriminate |].
  split; [vm_compute; reflexivity |].
  split; [vm_compute; reflexivity |].
  split; [vm_compute; reflexivity |].
  split; [vm_compute; reflexivity |].
  split; vm_compute; reflexivity.
Qed.


Lemma advanceFrame_in_range (d : DatasetPayload) (k : Z) :
  (0 <= k < numFrames d)%Z ->
  exists k', advanceFrame d (Frame k) = Frame k' /\ (0 <= k' < numFrames d)%Z.
Proof.
  intros Hk. unfold advanceFrame, jsAdd1, jsRem.
  destruct (numFrames d =? 0)%Z eqn:E; [apply Z.eqb_eq in E; lia |].
  eexists. split; [reflexivity |]. apply Z.rem_bound_pos; lia.
Qed.

Lemma advanceFrame_wraps (d : DatasetPayload) :
  (1 <= numFrames d)%Z -> advanceFrame d (Frame (numFrames d - 1)) = Frame 0.
Proof.
  intros Hn. unfold advanceFrame, jsAdd1, jsRem.
  destruct (numFrames d =? 0)%Z eqn:E; [apply Z.eqb_eq in E; lia |].
  rewrite Z.sub_add, Z.rem_same by lia. reflexivity.
Qed.

Lemma frameInRange_spec (d : DatasetPayload) (r : Refs) :
  frameInRange d r = true <->
  exists k, currentFrameRef r = Frame k /\ (0 <= k < numFrames d)%Z.
Proof.
  unfold frameInRange. destruct (currentFrameRef r) as [k |].
  - rewrite andb_true_iff, Z.leb_le, Z.ltb_lt. split.
    + intros H. now exists k.
    + now intros (k' & [= <-] & H).
  - split; [discriminate | now intros (k & [=] & _)].
Qed.

(** C3. For a dataset with [numFrames >= 1], once [currentFrame] is in
    [0, numFrames) (as it is when the skeleton has been created) it stays
    there through every run of ticks, seeks, drags, playback, selection
    and calibration changes; and advancing from [numFrames - 1] gives 0. *)
Theorem currentFrame_stays_in_range (d : DatasetPayload) (v : Viewer)
    (es : list Event) :
  (1 <= numFrames d)%Z ->
  frameInRange d (refs v) = true ->
  frameInRange d (refs (run d v es)) = true /\
  advanceFrame d (Frame (numFrames d - 1)) = Frame 0.
Proof.
  intros Hn Hstart. split; [| now apply advanceFrame_wraps].
  apply (run_invariant d (fun r => frameInRange d r = true));
    try (intros; assumption).
  - intros f r Hr. unfold frameInRange in *.
    destruct (updateSkeleton_samePlayback (Some d) f r) as (-> & _). exact Hr.
  - intros r Hr. apply frameInRange_spec in Hr as (k & Hk & Hrange).
    apply frameInRange_spec. rewrite Hk.
    destruct (advanceFrame_in_range d k Hrange) as (k' & -> & Hk').
    now exists k'.
  - intros s r _. apply frameInRange_spec. eexists. split; [reflexivity |].
    unfold seekTarget. destruct (numFrames d =? 0)%Z eqn:E; lia.
Qed.

Lemma currentFrame_stays_in_range_witness :
  (1 <= numFrames sampleDataset)%Z /\
  frameInRange sampleDataset (refs sampleViewer) = true /\
  frameInRange sampleDataset
    (refs (run sampleDataset sampleViewer
             [AnimationFrame 200; SeekFrameChanged (Some 7%Z);
              SeekFrameChanged None; AnimationFrame 300])) = true /\
  advanceFrame sampleDataset (Frame (numFrames sampleDataset - 1)) = Frame 0.
Proof.
  split; [vm_compute; discriminate |].
  split; [vm_compute; reflexivity |].
  apply (currentFrame_stays_in_range sampleDataset sampleViewer).
  - vm_compute; discriminate.
  - vm_compute; reflexivity.
Defined.

(** The skeleton creation effect puts the frame counter in range. *)
Lemma createSkeleton_frameInRange (d : DatasetPayload) (r : Refs) :
  (1 <= numFrames d)%Z -> cameraRef r <> None ->
  frameInRange d (stateOf (createSkeleton (Some d) r)) = true.
Proof.
  intros Hn Hcam. unfold createSkeleton.
  destruct (cameraRef r) as [cam |] eqn:Ecam; [| contradiction].
  match goal with
  | |- context [updateSkeleton ?data ?f ?r0] =>
      destruct (updateSkeleton_samePlayback data f r0) as (Hc & _)
  end.
  unfold frameInRange. rewrite Hc. cbn [currentFrameRef].
  apply andb_true_iff. split; [reflexivity | apply Z.ltb_lt; lia].
Qed.

(** C5. While seeking or dragging, any number of ticks leaves every ref
    as it was, [currentFrame] included; each tick still requests the next
    animation frame; the accumulator does not grow and [lastTime] follows
    the ticks, so that the first tick after the suspension starts its loop
    from the old accumulator plus the time since the last suspended tick
    only (sum and difference as doubles). *)
Theorem suspended_ticks_hold_frame (d : DatasetPayload) (v : Viewer)
    (times : list Q) :
  isSeekingRef (refs v) || isDraggingRef (refs v) = true ->
  let v' := run d v (map AnimationFrame times) in
  refs v' = refs v /\
  props v' = props v /\
  accumulator (clock v') = accumulator (clock v) /\
  lastTime (clock v') = default (lastTime (clock v)) (last times) /\
  rafId (clock v') = (rafId (clock v) + length times)%nat /\
  forall (t : Q) (r : Refs),
    tickLoop d (props v') t (clock v') r
    = catchUp d (props v) (maxFrameSkip (props v))
        {| acc := Double.round64
                    (accumulator (clock v)
                     + Double.round64
                         (t - default (lastTime (clock v)) (last times)));
           framesToUpdate := 0; loopRefs := r |}.
Proof.
  intros Hsusp. cbv zeta.
  assert (H : refs (run d v (map AnimationFrame times)) = refs v /\
              props (run d v (map AnimationFrame times)) = props v /\
              accumulator (clock (run d v (map AnimationFrame times)))
              = accumulator (clock v) /\
              lastTime (clock (run d v (map AnimationFrame times)))
              = default (lastTime (clock v)) (last times) /\
              rafId (clock (run d v (map AnimationFrame times)))
              = (rafId (clock v) + length times)%nat).
  { revert v Hsusp. induction times as [| t times IH]; intros v Hsusp.
    - simpl. repeat split. lia.
    - cbn [map run fold_left step].
      assert (Htick : stateOf (tick d t v)
                      = {| props := props v;
                           clock := {| lastTime := t;
                                       accumulator := accumulator (clock v);
                                       frameSkip := frameSkip (clock v);
                                       rafId := S (rafId (clock v)) |};
                           refs := refs v |}).
      { unfold tick.
        assert (negb (isPlaying (props v)) || isSeekingRef (refs v)
                || isDraggingRef (refs v) = true) as ->; [| reflexivity].
        rewrite <- orb_assoc, Hsusp. apply orb_true_r. }
      rewrite Htick.
      match goal with
      | |- context [fold_left ?f (map AnimationFrame times) ?v0] =>
          change (fold_left f (map AnimationFrame times) v0)
            with (run d v0 (map AnimationFrame times));
          destruct (IH v0) as (Hr & Hp & Ha & Hl & Hid); [exact Hsusp |]
      end.
      rewrite Hr, Hp, Ha, Hl, Hid. cbn [refs props clock accumulator lastTime rafId].
      repeat split; [| cbn [length]; lia].
      rewrite last_cons. now destruct (last times). }
  destruct H as (Hr & Hp & Ha & Hl & Hid).
  repeat split; try assumption.
  intros t r. unfold tickLoop. now rewrite Hp, Ha, Hl.
Qed.

Lemma suspended_ticks_hold_frame_witness :
  let v := stateOf (step sampleDataset sampleViewer (DraggingChanged true)) in
  let v' := run sampleDataset v (map AnimationFrame [16%Q; 33%Q; 50%Q]) in
  isSeekingRef (refs v) || isDraggingRef (refs v) = true /\
  refs v' = refs v /\
  props v' = props v /\
  accumulator (clock v') = accumulator (clock v) /\
  lastTime (clock v') = default (lastTime (clock v)) (last [16%Q; 33%Q; 50%Q]) /\
  rafId (clock v') = (rafId (clock v) + length [16%Q; 33%Q; 50%Q])%nat /\
  forall (t : Q) (r : Refs),
    tickLoop sampleDataset (props v') t (clock v') r
    = catchUp sampleDataset (props v) (maxFrameSkip (props v))
        {| acc := Double.round64
                    (accumulator (clock v)
                     + Double.round64
                         (t - default (lastTime (clock v))
                                (last [16%Q; 33%Q; 50%Q])));
           framesToUpdate := 0; loopRefs := r |}.
Proof.
  intros v v'. split; [reflexivity |].
  apply (suspended_ticks_hold_frame sampleDataset v [16%Q; 33%Q; 50%Q]). reflexivity.
Defined.

Lemma advanceFrame_zero_frames (d : DatasetPayload) (f : FrameNumber) :
  numFrames d = 0%Z -> advanceFrame d f = FrameNaN.
Proof.
  intros H. unfold advanceFrame, jsRem. rewrite H. now destruct f.
Qed.

(** C6 fails on the code.  With [numFrames = 0] the seek effect holds the
    frame at 0, as it guards the empty dataset, but a playing tick
    computes [(0 + 1) % 0]: after one tick of 20 ms at 50 frames per
    second the frame counter is [NaN], and [NaN] is what the listener is
    told. *)
Theorem tick_on_empty_dataset_gives_NaN :
  numFrames emptyDataset = 0%Z /\
  currentFrameRef (refs emptyViewer) = Frame 0 /\
  currentFrameRef (stateOf (seekEffect (Some emptyDataset) (Some 7%Z) (refs emptyViewer)))
  = Frame 0 /\
  currentFrameRef (refs (stateOf (tick emptyDataset 20 emptyViewer))) = FrameNaN /\
  frameChanges (refs (stateOf (tick emptyDataset 20 emptyViewer))) = [FrameNaN].
Proof. repeat split; vm_compute; reflexivity. Qed.

(** ** Camera framing *)


Lemma autoCenter_joints (f : FrameNumber) (r : Refs) :
  jointsRef (autoCenter f r) = jointsRef r /\
  jointPositionsRef (autoCenter f r) = jointPositionsRef r.
Proof.
  unfold autoCenter.
  now destruct f as [[| |] |], (cameraRef r), (controlsRef r), (hasAutoCentered r).
Qed.

(** The framing block runs on frame 0 of an initialised viewer whose flag
    is clear: it sets the flag and counts one framing. *)
Lemma autoCenter_runs (r : Refs) :
  initialised r = true -> hasAutoCentered r = false ->
  hasAutoCentered (autoCenter (Frame 0) r) = true /\
  framings (autoCenter (Frame 0) r) = S (framings r).
Proof.
  unfold initialised, autoCenter. intros Hinit ->.
  destruct (cameraRef r), (controlsRef r); try discriminate. now split.
Qed.

(** ** Drag and release *)

Lemma indexOf_Some (names : list string) (name : string) (i : nat) :
  indexOf names name = Some i -> names !! i = Some name.
Proof.
  revert i. induction names as [| n names IH]; intros i; simpl; [discriminate |].
  destruct (String.eqb n name) eqn:E.
  - intros [= <-]. apply String.eqb_eq in E. now subst.
  - destruct (indexOf names name) as [j |]; [| discriminate].
    intros [= <-]. now apply IH.
Qed.

(** The resolved position of a joint whose calibration offset is the one
    a drag to [m] reports. *)
Lemma resolvedPosition_of_drag (d : DatasetPayload) (cal : Calibration)
    (j : string) (idx : nat) (p m : Vec3) :
  sensorNames d !! idx = Some j -> truthy j = true ->
  veq (resolvedPosition d
         (Page.onCalibrationChange j
            (mkVec3 ((vx m - vx (scaled p)) / SCALE_FACTOR)
                    ((vy m - vy (scaled p)) / SCALE_FACTOR)
                    ((vz m - vz (scaled p)) / SCALE_FACTOR)) cal) idx p) m.
Proof.
  intros Hname Htruthy. unfold resolvedPosition.
  rewrite Hname, Htruthy, onCalibrationChange_same_joint.
  unfold veq, vadd, scaled, SCALE_FACTOR; cbn [vx vy vz].
  repeat split; field.
Qed.

(** The round trip while the dataset shown is the one the handler holds.
    For the selected joint at the current frame, a movement of the
    manipulator to [m] reports the offset [(m - base) / SCALE_FACTOR],
    where [base] is the uncalibrated, scaled source position of the joint
    at that frame; once the host has stored that offset and the drag is
    over, resolving the pose gives the joint the position [m]: the pose
    resolver's position for the joint equals [m], and the calibration
    effect returns with the joint's mesh at [m]. *)
Lemma drag_release_round_trip (d : DatasetPayload) (r : Refs) (cal : Calibration)
    (j : string) (idx : nat) (frame : list Vec3) (p m : Vec3) :
  wellFormed d = true -> inSync d r = true ->
  selectedJointRef r = Some j -> truthy j = true ->
  indexOf (sensorNames d) j = Some idx ->
  frameAt d (currentFrameRef r) = Some frame -> frame !! idx = Some p ->
  jointsRef r !! idx = Some m ->
  exists off,
    handleTransformChange (Some d) r = Some (j, off) /\
    off = mkVec3 ((vx m - vx p * SCALE_FACTOR) / SCALE_FACTOR)
                 ((vy m - vy p * SCALE_FACTOR) / SCALE_FACTOR)
                 ((vz m - vz p * SCALE_FACTOR) / SCALE_FACTOR) /\
    veq (resolvedPosition d (Page.onCalibrationChange j off cal) idx p) m /\
    exists r' pos,
      calibrationEffect (Some d) (Page.onCalibrationChange j off cal)
        (setIsDragging false r) = Normal r' /\
      jointsRef r' !! idx = Some pos /\ veq pos m.
Proof.
  intros Hwf Hsync Hsel Htruthy Hidx Hframe Hp Hm.
  pose proof (indexOf_Some _ _ _ Hidx) as Hname.
  eexists. split; [| split; [reflexivity |]].
  { unfold handleTransformChange, getBasePositionForJoint.
    now rewrite Hsel, Htruthy, Hidx, Hm, Hframe, Hp. }
  pose proof (resolvedPosition_of_drag d cal j idx p m Hname Htruthy) as Hres.
  split; [exact Hres |].
  set (cal' := Page.onCalibrationChange j _ cal) in *.
  unfold calibrationEffect. cbn [isDraggingRef setCalibrationRef setIsDragging].
  set (r0 := setCalibrationRef cal' (setIsDragging false r)).
  change (updateSkeleton (Some d) _ _)
    with (updateSkeleton (Some d) (currentFrameRef r) r0).
  destruct (updateSkeleton_resolves d (currentFrameRef r) r0 Hwf Hsync)
    as (r' & Hrun & [[-> _] | (frame' & r1 & Hframe' & -> & _ & Hjoints)]).
  - exists r0, m. split; [exact Hrun |]. split; [exact Hm |]. now repeat split.
  - assert (frame' = frame) as -> by congruence.
    destruct (Hjoints idx) as (p' & Hp' & _ & Hmesh).
    { apply inSync_lengths in Hsync as (Hlen & _). rewrite <- Hlen.
      eapply lookup_lt_Some. exact Hm. }
    assert (p' = p) as -> by congruence.
    rewrite andb_false_r in Hmesh.
    exists (autoCenter (currentFrameRef r) r1), (resolvedPosition d cal' idx p).
    split; [exact Hrun |]. split; [| exact Hres].
    destruct (autoCenter_joints (currentFrameRef r) r1) as [-> _]. exact Hmesh.
Qed.

(** The scenario of the specification: the joint [lumbar] of the sample
    session, dragged 0.05 along x from its place in frame 0. *)
Example drag_release_round_trip_sample :
  let r := setJoints (fun js => <[4%nat := mkVec3 (6 # 100) (2 # 100) (3 # 100)]> js)
             (setIsDragging true (setSelectedJoint (Some "lumbar") (refs sampleViewer))) in
  let m := mkVec3 (6 # 100) (2 # 100) (3 # 100) in
  let p := mkVec3 1 2 3 in
  exists off,
    handleTransformChange (Some sampleDataset) r = Some ("lumbar", off) /\
    off = mkVec3 ((vx m - vx p * SCALE_FACTOR) / SCALE_FACTOR)
                 ((vy m - vy p * SCALE_FACTOR) / SCALE_FACTOR)
                 ((vz m - vz p * SCALE_FACTOR) / SCALE_FACTOR) /\
    veq (resolvedPosition sampleDataset (Page.onCalibrationChange "lumbar" off ∅) 4 p) m /\
    exists r' pos,
      calibrationEffect (Some sampleDataset) (Page.onCalibrationChange "lumbar" off ∅)
        (setIsDragging false r) = Normal r' /\
      jointsRef r' !! 4%nat = Some pos /\ veq pos m.
Proof.
  intros r m p.
  apply (drag_release_round_trip sampleDataset r ∅ "lumbar" 4
           (replicate 15 (mkVec3 1 2 3)) p m);
    vm_compute; reflexivity.
Qed.

Lemma drag_scenario_offset :
  let r := setJoints (fun js => <[4%nat := mkVec3 (6 # 100) (2 # 100) (3 # 100)]> js)
             (setIsDragging true (setSelectedJoint (Some "lumbar") (refs sampleViewer))) in
  exists off, handleTransformChange (Some sampleDataset) r = Some ("lumbar", off) /\
              veq off (mkVec3 5 0 0).
Proof.
  eexists. split; [vm_compute; reflexivity |]. repeat split.
Qed.

(** C2 fails on the code once the dataset has been switched.  The viewer
    was mounted with the sample dataset and now shows the other one, where
    [lumbar] stands at (0.1, 0.2, 0.3) in frame 0.  The joint is dragged by
    0.05 along x, to [m] = (0.15, 0.2, 0.3).  The handler still measures
    from the sample dataset's position and reports the offset
    (14, 18, 27), not (5, 0, 0); with that offset stored and the drag over,
    the pose resolver puts the joint at (0.24, 0.38, 0.57), not at [m]. *)
Theorem drag_after_dataset_switch_misses :
  let m := mkVec3 (15 # 100) (20 # 100) (30 # 100) in
  let r := setJoints (fun js => <[4%nat := m]> js)
             (setIsDragging true (setSelectedJoint (Some "lumbar") switchedRefs)) in
  frameAt otherDataset (currentFrameRef r) = Some (replicate 15 (mkVec3 10 20 30)) /\
  exists off r' pos,
    handleTransformChange (Some sampleDataset) r = Some ("lumbar", off) /\
    veq off (mkVec3 14 18 27) /\
    ~ veq off (mkVec3 5 0 0) /\
    calibrationEffect (Some otherDataset) (Page.onCalibrationChange "lumbar" off ∅)
      (setIsDragging false r) = Normal r' /\
    jointsRef r' !! 4%nat = Some pos /\
    veq pos (mkVec3 (24 # 100) (38 # 100) (57 # 100)) /\
    ~ veq pos m.
Proof.
  cbv zeta. split; [vm_compute; reflexivity |].
  eexists. eexists. eexists.
  split; [vm_compute; reflexivity |].
  split; [vm_compute; repeat split |].
  split; [vm_compute; intros (H & _); discriminate H |].
  split; [vm_compute; reflexivity |].
  split; [vm_compute; reflexivity |].
  split; [vm_compute; repeat split |].
  vm_compute. intros (H & _). discriminate H.
Qed.


(** ** The calibration store: filtering, reset, typed offsets, export *)

Lemma calibrationFiltered_lookup (cal : Calibration) (key : string) :
  Page.calibrationFiltered cal !! key
  = if String.eqb key "__proto__" then None else cal !! key ≫= Page.filterEntry.
Proof.
  unfold Page.calibrationFiltered.
  rewrite (assign_fold_lookup Page.filterEntry) by apply NoDup_fst_map_to_list.
  rewrite list_to_map_to_list, lookup_empty.
  destruct (String.eqb key "__proto__"); [reflexivity |].
  now destruct (cal !! key ≫= Page.filterEntry).
Qed.

Lemma nonZero_false (v : Q) : Page.nonZero v = false -> (v == 0)%Q.
Proof.
  unfold Page.nonZero. intros H. apply negb_false_iff in H.
  now apply Qeq_bool_iff.
Qed.

(** X1. The filtered calibration shown as JSON keeps exactly the entries
    with an offset that is not zero and a key other than [__proto__]: an
    entry under that key, which a drag of a joint of that name stores, is
    never shown.  For every joint not named [__proto__], of every frame,
    the filtered calibration resolves to the same position as the
    calibration itself: leaving out zero offsets does not change the
    pose. *)
Theorem calibrationFiltered_same_pose (d : DatasetPayload) (cal : Calibration)
    (i : nat) (p : Vec3) :
  (sensorNames d !! i <> Some "__proto__" ->
   veq (resolvedPosition d (Page.calibrationFiltered cal) i p)
       (resolvedPosition d cal i p)) /\
  (forall (key : string) (e : CalEntry),
     Page.calibrationFiltered cal !! key = Some e <->
     key <> "__proto__" /\
     exists off,
       cal !! key = Some {| positionOffset := Some off |} /\
       e = {| positionOffset := Some off |} /\
       ~ (vx off == 0 /\ vy off == 0 /\ vz off == 0)%Q) /\
  forall off : Vec3,
    Page.calibrationFiltered (Page.onCalibrationChange "__proto__" off cal)
      !! "__proto__" = None.
Proof.
  split; [| split].
  - intros Hname. unfold resolvedPosition.
    destruct (sensorNames d !! i) as [j |]; [| repeat split; reflexivity].
    destruct (truthy j); [| repeat split; reflexivity].
    rewrite calibrationFiltered_lookup.
    assert (String.eqb j "__proto__" = false) as ->
      by (apply String.eqb_neq; congruence).
    destruct (cal !! j) as [[[off |]] |]; simpl;
      try (repeat split; reflexivity).
    unfold Page.filterEntry; simpl.
    destruct (Page.nonZero (vx off)) eqn:Hx; simpl;
      [repeat split; reflexivity |].
    destruct (Page.nonZero (vy off)) eqn:Hy; simpl;
      [repeat split; reflexivity |].
    destruct (Page.nonZero (vz off)) eqn:Hz; simpl;
      [repeat split; reflexivity |].
    apply nonZero_false in Hx, Hy, Hz.
    unfold veq, vadd, scaled; cbn [vx vy vz].
    rewrite Hx, Hy, Hz. repeat split; ring.
  - intros key e. rewrite calibrationFiltered_lookup.
    destruct (String.eqb key "__proto__") eqn:Hproto.
    { apply String.eqb_eq in Hproto.
      split; [discriminate | now intros [Hne _]]. }
    apply String.eqb_neq in Hproto.
    destruct (cal !! key) as [[[off |]] |]; simpl.
    + unfold Page.filterEntry; simpl.
      destruct (Page.nonZero (vx off) || Page.nonZero (vy off)
                || Page.nonZero (vz off)) eqn:Hnz.
      * split.
        -- intros [= <-]. split; [exact Hproto |]. exists off. repeat split.
           intros (Hx & Hy & Hz). unfold Page.nonZero in Hnz.
           apply Qeq_bool_iff in Hx, Hy, Hz. now rewrite Hx, Hy, Hz in Hnz.
        -- now intros (_ & off' & [= <-] & -> & _).
      * split; [discriminate |].
        intros (_ & off' & [= <-] & _ & Hnot). exfalso. apply Hnot.
        apply orb_false_elim in Hnz as [[Hx Hy]%orb_false_elim Hz].
        repeat split; now apply nonZero_false.
    + split; [discriminate | now intros (_ & off' & [=] & _)].
    + split; [discriminate | now intros (_ & off' & [=] & _)].
  - intros off. now rewrite calibrationFiltered_lookup.
Qed.

Lemma calibrationFiltered_same_pose_witness :
  (sensorNames sampleDataset !! 0%nat <> Some "__proto__" ->
   veq (resolvedPosition sampleDataset
          (Page.calibrationFiltered
             {[ "head" := {| positionOffset := Some vzero |} ]}) 0 (mkVec3 1 2 3))
       (resolvedPosition sampleDataset
          {[ "head" := {| positionOffset := Some vzero |} ]} 0 (mkVec3 1 2 3))) /\
  (forall (key : string) (e : CalEntry),
     Page.calibrationFiltered
       {[ "head" := {| positionOffset := Some vzero |} ]} !! key = Some e <->
     key <> "__proto__" /\
     exists off,
       ({[ "head" := {| positionOffset := Some vzero |} ]} : Calibration) !! key
       = Some {| positionOffset := Some off |} /\
       e = {| positionOffset := Some off |} /\
       ~ (vx off == 0 /\ vy off == 0 /\ vz off == 0)%Q) /\
  forall off : Vec3,
    Page.calibrationFiltered
      (Page.onCalibrationChange "__proto__" off
         {[ "head" := {| positionOffset := Some vzero |} ]})
      !! "__proto__" = None.
Proof.
  exact (calibrationFiltered_same_pose sampleDataset
           {[ "head" := {| positionOffset := Some vzero |} ]} 0 (mkVec3 1 2 3)).
Defined.

(** X2. "Reset Current Joint Offset" removes the joint's entry: the joint then
    resolves to its uncalibrated position, every other joint keeps its
    entry, and a reset after a drag report for a joint that had no entry
    gives back the calibration from before the drag. *)
Theorem resetJointOffset_restores (d : DatasetPayload) (prev : Calibration)
    (j : string) (i : nat) (p off : Vec3) :
  truthy j = true ->
  sensorNames d !! i = Some j ->
  resolvedPosition d (Page.resetJointOffset (Some j) prev) i p = scaled p /\
  (forall other, other ≠ j ->
     Page.resetJointOffset (Some j) prev !! other = prev !! other) /\
  (prev !! j = None ->
     Page.resetJointOffset (Some j) (Page.onCalibrationChange j off prev) = prev).
Proof.
  intros Htruthy Hname. unfold truthy in Htruthy.
  apply negb_true_iff in Htruthy. unfold Page.resetJointOffset. rewrite Htruthy.
  split; [| split].
  - unfold resolvedPosition. rewrite Hname. unfold truthy. rewrite Htruthy.
    simpl. now rewrite lookup_delete_eq.
  - intros other Hne. apply lookup_delete_ne. congruence.
  - intros Hnone. unfold Page.onCalibrationChange.
    rewrite delete_insert_eq. now apply delete_id.
Qed.

Lemma resetJointOffset_restores_witness :
  let prev : Calibration := {[ "head" := {| positionOffset := Some (mkVec3 5 0 0) |} ]} in
  truthy "lumbar" = true /\
  sensorNames sampleDataset !! 4%nat = Some "lumbar" /\
  prev !! "lumbar" = None /\
  resolvedPosition sampleDataset
    (Page.resetJointOffset (Some "lumbar") prev) 4 (mkVec3 1 2 3)
  = scaled (mkVec3 1 2 3) /\
  (forall other, other ≠ "lumbar" ->
     Page.resetJointOffset (Some "lumbar") prev !! other = prev !! other) /\
  (prev !! "lumbar" = None ->
   Page.resetJointOffset (Some "lumbar")
     (Page.onCalibrationChange "lumbar" (mkVec3 1 1 1) prev)
   = prev).
Proof.
  intros prev. split; [reflexivity |]. split; [reflexivity |].
  split; [reflexivity |].
  apply (resetJointOffset_restores sampleDataset prev "lumbar" 4); reflexivity.
Defined.

(** X3. Typing an offset into the three axis inputs, one axis after the
    other, stores the same entry as one drag report with that offset; an
    input that is not a finite number ([NaN] or an infinity) counts as 0,
    on every axis. *)
Theorem offsetInputChange_axis_by_axis (key : string) (x y z : Q)
    (prev : Calibration) :
  truthy key = true ->
  Page.offsetInputChange (Some key) Page.AxisZ (Page.Finite z)
    (Page.offsetInputChange (Some key) Page.AxisY (Page.Finite y)
       (Page.offsetInputChange (Some key) Page.AxisX (Page.Finite x) prev))
  = Page.onCalibrationChange key (mkVec3 x y z) prev /\
  forall (axis : Page.Axis) (v : Page.JsNumber),
    Page.isFiniteNumber (Page.JNumber v) = false ->
    Page.offsetInputChange (Some key) axis v prev
    = Page.offsetInputChange (Some key) axis (Page.Finite 0) prev.
Proof.
  intros Htruthy. unfold truthy in Htruthy. apply negb_true_iff in Htruthy.
  split.
  - unfold Page.offsetInputChange, Page.onCalibrationChange. rewrite Htruthy.
    rewrite !lookup_insert_eq. cbn [Page.withPositionOffset Page.setAxis vx vy vz].
    now rewrite !insert_insert_eq.
  - intros axis v Hv. destruct v as [q | | |]; [discriminate Hv | | |];
      reflexivity.
Qed.

Lemma offsetInputChange_axis_by_axis_witness :
  truthy "head" = true /\
  Page.offsetInputChange (Some "head") Page.AxisZ (Page.Finite 3)
    (Page.offsetInputChange (Some "head") Page.AxisY (Page.Finite 2)
       (Page.offsetInputChange (Some "head") Page.AxisX (Page.Finite 1) ∅))
  = Page.onCalibrationChange "head" (mkVec3 1 2 3) ∅ /\
  forall (axis : Page.Axis) (v : Page.JsNumber),
    Page.isFiniteNumber (Page.JNumber v) = false ->
    Page.offsetInputChange (Some "head") axis v ∅
    = Page.offsetInputChange (Some "head") axis (Page.Finite 0) ∅.
Proof.
  split; [reflexivity |].
  apply (offsetInputChange_axis_by_axis "head" 1 2 3 ∅). reflexivity.
Defined.

Lemma importEntry_entryJson (e : CalEntry) :
  Page.importEntry (Page.entryJson e)
  = match positionOffset e with
    | Some _ => Some e
    | None => None
    end.
Proof.
  destruct e as [[[x y z] |]]; unfold Page.importEntry, Page.entryJson; simpl.
  - now rewrite lookup_singleton_eq.
  - now rewrite lookup_empty.
Qed.

(** X4. Exporting the calibration and importing the exported file gives back
    every entry that has an offset and a key other than [__proto__], and
    drops the entries without an offset and the entry under [__proto__],
    whatever calibration was there before the import; every joint not
    named [__proto__] resolves to the same position as before the
    export. *)
Theorem export_import_round_trip (cal prev : Calibration) :
  (forall key,
     Page.importHandler (Some (Page.exportedJson cal)) prev !! key
     = if String.eqb key "__proto__" then None
       else match cal !! key with
            | Some {| positionOffset := Some off |} =>
                Some {| positionOffset := Some off |}
            | _ => None
            end) /\
  (forall (d : DatasetPayload) (i : nat) (p : Vec3),
     sensorNames d !! i <> Some "__proto__" ->
     resolvedPosition d (Page.importHandler (Some (Page.exportedJson cal)) prev) i p
     = resolvedPosition d cal i p) /\
  forall off : Vec3,
    Page.importHandler
      (Some (Page.exportedJson (Page.onCalibrationChange "__proto__" off cal)))
      prev !! "__proto__" = None.
Proof.
  assert (Hlookup : forall cal key,
     Page.importHandler (Some (Page.exportedJson cal)) prev !! key
     = if String.eqb key "__proto__" then None
       else match cal !! key with
            | Some {| positionOffset := Some off |} =>
                Some {| positionOffset := Some off |}
            | _ => None
            end).
  { intros cal' key. unfold Page.exportedJson.
    rewrite importHandler_object_lookup, lookup_fmap.
    destruct (String.eqb key "__proto__"); [reflexivity |].
    destruct (cal' !! key) as [e |]; simpl; [| reflexivity].
    rewrite importEntry_entryJson. now destruct e as [[off |]]. }
  split; [apply Hlookup |]. split.
  - intros d i p Hname. unfold resolvedPosition.
    destruct (sensorNames d !! i) as [j |]; [| reflexivity].
    destruct (truthy j); [| reflexivity].
    rewrite Hlookup.
    assert (String.eqb j "__proto__" = false) as ->
      by (apply String.eqb_neq; congruence).
    now destruct (cal !! j) as [[[off |]] |].
  - intros off. now rewrite Hlookup.
Qed.

(** ** The resolved pose in full *)

Lemma refs_ext (a b : Refs) :
  cameraRef a = cameraRef b -> controlsRef a = controlsRef b ->
  hasAutoCentered a = hasAutoCentered b -> jointsRef a = jointsRef b ->
  bonesRef a = bonesRef b -> jointPositionsRef a = jointPositionsRef b ->
  currentFrameRef a = currentFrameRef b -> isDraggingRef a = isDraggingRef b ->
  isSeekingRef a = isSeekingRef b -> selectedJointRef a = selectedJointRef b ->
  calibrationRef a = calibrationRef b -> framings a = framings b ->
  frameChanges a = frameChanges b -> a = b.
Proof. destruct a, b; simpl; intros; subst; reflexivity. Qed.

Lemma autoCenter_bones (f : FrameNumber) (r : Refs) :
  bonesRef (autoCenter f r) = bonesRef r.
Proof.
  unfold autoCenter.
  now destruct f as [[| |] |], (cameraRef r), (controlsRef r), (hasAutoCentered r).
Qed.

Lemma autoCenter_idempotent (f : FrameNumber) (r : Refs) :
  autoCenter f (autoCenter f r) = autoCenter f r.
Proof.
  destruct (hasAutoCentered r) eqn:Eh.
  - rewrite (autoCenter_framed f r Eh). apply autoCenter_framed, Eh.
  - assert (Hcases : autoCenter f r = r \/ (f = Frame 0 /\ initialised r = true)).
    { unfold autoCenter, initialised.
      destruct f as [[| |] |]; try (now left).
      destruct (cameraRef r); [| now left].
      destruct (controlsRef r); [| now left]. now right. }
    destruct Hcases as [H | [-> Hi]]; [now rewrite !H |].
    apply autoCenter_framed. now apply autoCenter_runs.
Qed.

(** The bone loop with its values: the lines with an index pair are drawn
    between the two joint positions of the pair, the others are left. *)
Lemma boneLoop_values (pairs : list (nat * nat)) (k : nat) (r : Refs) :
  (forall a b, (a, b) ∈ pairs ->
     (a < length (jointPositionsRef r))%nat /\ (b < length (jointPositionsRef r))%nat) ->
  (k + length pairs <= length (bonesRef r))%nat ->
  exists r',
    forEach boneStep (imap (fun i e => (k + i, e)%nat) pairs) r = Normal r' /\
    jointsRef r' = jointsRef r /\
    jointPositionsRef r' = jointPositionsRef r /\
    length (bonesRef r') = length (bonesRef r) /\
    (forall i a b, pairs !! i = Some (a, b) ->
       exists pa pb,
         jointPositionsRef r !! a = Some pa /\
         jointPositionsRef r !! b = Some pb /\
         bonesRef r' !! (k + i)%nat = Some (pa, pb)) /\
    (forall i, ~ (k <= i < k + length pairs)%nat ->
       bonesRef r' !! i = bonesRef r !! i).
Proof.
  revert k r. induction pairs as [| [a b] pairs IH]; intros k r Hb Hlen.
  - exists r. simpl. repeat split; try reflexivity.
    intros i a b H. rewrite lookup_nil in H. discriminate.
  - simpl in Hlen. rewrite imap_cons.
    change (imap ((fun i (e : nat * nat) => ((k + i)%nat, e)) ∘ S) pairs)
      with (imap (fun i (e : nat * nat) => ((k + S i)%nat, e)) pairs).
    assert (Himap : imap (fun i (e : nat * nat) => ((k + S i)%nat, e)) pairs
                    = imap (fun i (e : nat * nat) => ((S k + i)%nat, e)) pairs).
    { apply imap_ext. intros i e _. f_equal. lia. }
    rewrite Himap. clear Himap. simpl forEach. rewrite Nat.add_0_r.
    destruct (Hb a b) as [Ha Hb']; [left |].
    destruct (lookup_lt_is_Some_2 (bonesRef r) k) as [[qa qb] Hk]; [lia |].
    destruct (lookup_lt_is_Some_2 _ _ Ha) as [pa Hpa].
    destruct (lookup_lt_is_Some_2 _ _ Hb') as [pb Hpb].
    unfold boneStep at 1. rewrite Hk, Hpa, Hpb. simpl andThen.
    set (r1 := setBones (fun bs => <[k := (pa, pb)]> bs) r).
    destruct (IH (S k) r1) as (r' & Hrun & Hj & Hp & Hl & Hin & Hout).
    { intros a' b' Hab. apply Hb. now right. }
    { subst r1. cbn [bonesRef setBones]. rewrite length_insert. lia. }
    exists r'. split; [exact Hrun |]. split; [exact Hj |]. split; [exact Hp |].
    split; [rewrite Hl; subst r1; cbn [bonesRef setBones]; apply length_insert |].
    split.
    + intros i a' b' Hi. destruct i as [| i].
      * injection Hi as <- <-. exists pa, pb. split; [exact Hpa |].
        split; [exact Hpb |]. rewrite Nat.add_0_r, Hout by lia.
        subst r1. cbn [bonesRef setBones]. apply list_lookup_insert_eq. lia.
      * simpl in Hi. destruct (Hin i a' b' Hi) as (pa' & pb' & H1 & H2 & H3).
        exists pa', pb'. split; [exact H1 |]. split; [exact H2 |].
        now replace (k + S i)%nat with (S k + i)%nat by lia.
    + intros i Hi. simpl in Hi. rewrite Hout by lia.
      subst r1. cbn [bonesRef setBones]. apply list_lookup_insert_ne. lia.
Qed.

Lemma poseDue_false (d : DatasetPayload) (f : FrameNumber) (r : Refs) :
  poseDue d f r = false -> updateSkeleton (Some d) f r = Normal r.
Proof.
  unfold poseDue, updateSkeleton.
  destruct (cameraRef r); [| reflexivity].
  destruct (frameAt d f).
  - intros H. apply andb_false_iff in H.
    destruct (length (jointsRef r) =? 0)%nat; [reflexivity |].
    destruct (length (bonesRef r) =? 0)%nat; [reflexivity |].
    destruct H; discriminate.
  - intros _. now destruct ((length (jointsRef r) =? 0)%nat
                            || (length (bonesRef r) =? 0)%nat).
Qed.

(** A full resolve, with everything it writes. *)
Lemma updateSkeleton_full (d : DatasetPayload) (f : FrameNumber) (r : Refs) :
  wellFormed d = true -> inSync d r = true -> poseDue d f r = true ->
  exists frame r2,
    frameAt d f = Some frame /\
    updateSkeleton (Some d) f r = Normal (autoCenter f r2) /\
    poseOnly r r2 /\
    (forall i, (i < numSensors d)%nat ->
       exists p, frame !! i = Some p /\
         jointPositionsRef r2 !! i
           = Some (resolvedPosition d (calibrationRef r) i p) /\
         jointsRef r2 !! i
           = if bool_decide (selectedIndex d r = Some i) && isDraggingRef r
             then jointsRef r !! i
             else Some (resolvedPosition d (calibrationRef r) i p)) /\
    (forall i a b, edgeIndexPairs d !! i = Some (a, b) ->
       exists pa pb,
         jointPositionsRef r2 !! a = Some pa /\
         jointPositionsRef r2 !! b = Some pb /\
         bonesRef r2 !! i = Some (pa, pb)).
Proof.
  intros Hwf Hsync Hdue. pose proof Hsync as Hlen.
  apply inSync_lengths in Hlen as (Hj & Hp & Hb).
  unfold poseDue in Hdue. unfold updateSkeleton.
  destruct (cameraRef r) eqn:Hcam; [| discriminate].
  destruct (frameAt d f) as [frame |] eqn:Hframe; [| discriminate].
  apply andb_prop in Hdue as [Hj0 Hb0].
  apply negb_true_iff in Hj0, Hb0. rewrite Hj0, Hb0. cbn [orb].
  pose proof (wellFormed_frame d f frame Hwf Hframe) as Hfl.
  pose proof (forEach_preserves poseOnly (jointStep d frame (selectedIndex d r))
                (seq 0 (numSensors d)) r poseOnly_refl poseOnly_trans
                (jointStep_poseOnly d frame (selectedIndex d r))) as Hpose1.
  destruct (jointLoop_spec d frame (selectedIndex d r) (numSensors d) 0 r)
    as (r1 & Hrun1 & Hb1 & Hl1 & Hin & Hout); simpl; try lia.
  rewrite Hrun1 in *. cbn [stateOf andThen] in *.
  pose proof (forEach_preserves poseOnly boneStep
                (imap (fun i e => (i, e)) (edgeIndexPairs d)) r1
                poseOnly_refl poseOnly_trans boneStep_poseOnly) as Hpose2.
  destruct (boneLoop_values (edgeIndexPairs d) 0 r1)
    as (r2 & Hrun2 & Hj2 & Hp2 & Hl2 & Hbones & _).
  { intros a b Hab. apply edgeIndexPairs_bound in Hab.
    unfold wellFormed in Hwf. apply andb_prop in Hwf as [_ Hn%Nat.leb_le]. lia. }
  { rewrite Hb1. simpl. lia. }
  change (imap (fun i (e : nat * nat) => ((0 + i)%nat, e)) (edgeIndexPairs d))
    with (imap (fun i (e : nat * nat) => (i, e)) (edgeIndexPairs d)) in Hrun2.
  rewrite Hrun2 in *. cbn [stateOf andThen] in *.
  exists frame, r2. split; [reflexivity |]. split; [reflexivity |].
  split; [eapply poseOnly_trans; eassumption |]. split.
  - intros i Hi. destruct (Hin i) as (p & Hfp & Hpp & Hjp); [lia |].
    exists p. now rewrite Hj2, Hp2.
  - intros i a b Hi. destruct (Hbones i a b Hi) as (pa & pb & H1 & H2 & H3).
    exists pa, pb. now rewrite Hp2.
Qed.

Lemma poseDue_autoCenter (d : DatasetPayload) (f : FrameNumber) (r r2 : Refs) :
  poseOnly r r2 -> poseDue d f (autoCenter f r2) = poseDue d f r.
Proof.
  intros [Hp Hv]. unfold poseDue.
  destruct (autoCenter_samePlayback f r2) as (_&_&_&_&_&_&Hj&Hb&_).
  rewrite Hj, Hb.
  destruct Hp as (_&_&_&_&_&_&Hj2&Hb2&_). rewrite Hj2, Hb2.
  destruct Hv as (Hc&_). 
  assert (Hcam : is_Some (cameraRef (autoCenter f r2)) <-> is_Some (cameraRef r)).
  { rewrite <- Hc. unfold autoCenter.
    destruct f as [[| |] |]; try reflexivity.
    destruct (cameraRef r2) eqn:E1; [| now rewrite E1].
    destruct (controlsRef r2); [| now rewrite E1].
    destruct (hasAutoCentered r2); [now rewrite E1 |].
    cbn [cameraRef setFraming]. split; intros _; eexists; reflexivity. }
  destruct (cameraRef (autoCenter f r2)), (cameraRef r); try reflexivity.
  - destruct Hcam as [H _]. destruct H as [? H]; [eexists; reflexivity | discriminate].
  - destruct Hcam as [_ H]. destruct H as [? H]; [eexists; reflexivity | discriminate].
Qed.

Lemma selectedIndex_ext (d : DatasetPayload) (r r' : Refs) :
  selectedJointRef r' = selectedJointRef r -> selectedIndex d r' = selectedIndex d r.
Proof. unfold selectedIndex. now intros ->. Qed.

(** A full resolve, in terms of the state it returns. *)
Lemma updateSkeleton_final (d : DatasetPayload) (f : FrameNumber) (r : Refs) :
  wellFormed d = true -> inSync d r = true -> poseDue d f r = true ->
  exists frame s,
    frameAt d f = Some frame /\
    updateSkeleton (Some d) f r = Normal s /\
    samePlayback r s /\
    (forall i, (i < numSensors d)%nat ->
       exists p, frame !! i = Some p /\
         jointPositionsRef s !! i
           = Some (resolvedPosition d (calibrationRef r) i p) /\
         jointsRef s !! i
           = if bool_decide (selectedIndex d r = Some i) && isDraggingRef r
             then jointsRef r !! i
             else Some (resolvedPosition d (calibrationRef r) i p)) /\
    (forall i a b, edgeIndexPairs d !! i = Some (a, b) ->
       exists pa pb,
         jointPositionsRef s !! a = Some pa /\
         jointPositionsRef s !! b = Some pb /\
         bonesRef s !! i = Some (pa, pb)).
Proof.
  intros Hwf Hsync Hdue.
  destruct (updateSkeleton_full d f r Hwf Hsync Hdue)
    as (frame & r2 & Hframe & Hrun & Hpose & Hjoints & Hbones).
  exists frame, (autoCenter f r2).
  destruct (autoCenter_joints f r2) as [Hj Hp].
  rewrite Hj, Hp, autoCenter_bones.
  split; [exact Hframe |]. split; [exact Hrun |].
  split; [| split; assumption].
  eapply samePlayback_trans; [exact (proj1 Hpose) | apply autoCenter_samePlayback].
Qed.

Lemma poseDue_intro (d : DatasetPayload) (f : FrameNumber) (r : Refs)
    (frame : list Vec3) :
  wellFormed d = true -> inSync d r = true -> cameraRef r <> None ->
  edgeIndexPairs d <> [] -> frameAt d f = Some frame ->
  poseDue d f r = true.
Proof.
  intros Hwf Hsync Hcam Hpairs Hframe. unfold poseDue.
  destruct (cameraRef r); [| contradiction]. rewrite Hframe.
  apply inSync_lengths in Hsync as (Hj & _ & Hb). rewrite Hj, Hb.
  destruct (edgeIndexPairs d) as [| [a b] l] eqn:E; [contradiction |].
  assert (Ha : (a < length (sensorNames d))%nat).
  { apply (edgeIndexPairs_bound d a b). rewrite E. left. }
  unfold wellFormed in Hwf. apply andb_prop in Hwf as [_ Hw%Nat.leb_le].
  destruct (numSensors d); [lia | reflexivity].
Qed.

(** ** Camera framing: once per dataset, when there is something to draw *)









(** ** What a resolve draws *)

(** X5. On a scene built for a well-formed dataset, a call of
    [updateSkeleton] that gets past its early returns gives every sensor's
    entry of [jointPositions] the resolved position of the frame's point
    (scaled, plus the scaled calibration offset of the sensor's name);
    every mesh is moved there too, except the mesh of the selected joint
    while it is dragged, which stays where the manipulator has put it;
    and every line is drawn between the entries of [jointPositions] of
    its two sensors, so that during a drag the lines at the dragged joint
    end at its resolved position, not at its mesh. *)
Theorem updateSkeleton_draws_resolved_pose (d : DatasetPayload)
    (f : FrameNumber) (r : Refs) :
  wellFormed d = true -> inSync d r = true -> poseDue d f r = true ->
  exists frame s,
    frameAt d f = Some frame /\
    updateSkeleton (Some d) f r = Normal s /\
    (forall i, (i < numSensors d)%nat ->
       exists p, frame !! i = Some p /\
         jointPositionsRef s !! i
           = Some (resolvedPosition d (calibrationRef r) i p) /\
         jointsRef s !! i
           = if bool_decide (selectedIndex d r = Some i) && isDraggingRef r
             then jointsRef r !! i
             else Some (resolvedPosition d (calibrationRef r) i p)) /\
    (forall i a b, edgeIndexPairs d !! i = Some (a, b) ->
       exists pa pb,
         jointPositionsRef s !! a = Some pa /\
         jointPositionsRef s !! b = Some pb /\
         bonesRef s !! i = Some (pa, pb)) /\
    length (jointsRef s) = numSensors d /\
    length (bonesRef s) = length (edgeIndexPairs d).
Proof.
  intros Hwf Hsync Hdue.
  destruct (updateSkeleton_final d f r Hwf Hsync Hdue)
    as (frame & s & Hframe & Hrun & Hsame & Hjoints & Hbones).
  exists frame, s.
  split; [exact Hframe |]. split; [exact Hrun |].
  split; [exact Hjoints |]. split; [exact Hbones |].
  apply inSync_lengths in Hsync as (H1 & _ & H3).
  destruct Hsame as (_&_&_&_&_&_&Hlj&Hlb&_). split; congruence.
Qed.

Lemma updateSkeleton_draws_resolved_pose_witness :
  exists frame s,
    frameAt sampleDataset (Frame 1) = Some frame /\
    updateSkeleton (Some sampleDataset) (Frame 1) (refs sampleViewer) = Normal s /\
    (forall i, (i < numSensors sampleDataset)%nat ->
       exists p, frame !! i = Some p /\
         jointPositionsRef s !! i
           = Some (resolvedPosition sampleDataset
                     (calibrationRef (refs sampleViewer)) i p) /\
         jointsRef s !! i
           = if bool_decide (selectedIndex sampleDataset (refs sampleViewer) = Some i)
                && isDraggingRef (refs sampleViewer)
             then jointsRef (refs sampleViewer) !! i
             else Some (resolvedPosition sampleDataset
                          (calibrationRef (refs sampleViewer)) i p)) /\
    (forall i a b, edgeIndexPairs sampleDataset !! i = Some (a, b) ->
       exists pa pb,
         jointPositionsRef s !! a = Some pa /\
         jointPositionsRef s !! b = Some pb /\
         bonesRef s !! i = Some (pa, pb)) /\
    length (jointsRef s) = numSensors sampleDataset /\
    length (bonesRef s) = length (edgeIndexPairs sampleDataset).
Proof.
  apply (updateSkeleton_draws_resolved_pose sampleDataset (Frame 1)
           (refs sampleViewer)); vm_compute; reflexivity.
Defined.

(** X6. Drawing a frame twice is the same as drawing it once: on a scene
    built for a well-formed dataset, [updateSkeleton] returns normally,
    and calling it again for the same frame on the state it returned
    changes nothing, whether or not a joint is being dragged and whether
    or not the first call framed the camera. *)
Theorem updateSkeleton_idempotent (d : DatasetPayload) (f : FrameNumber)
    (r : Refs) :
  wellFormed d = true -> inSync d r = true ->
  exists s,
    updateSkeleton (Some d) f r = Normal s /\
    updateSkeleton (Some d) f s = Normal s.
Proof.
  intros Hwf Hsync. destruct (poseDue d f r) eqn:Hdue.
  2: { exists r. split; now apply poseDue_false. }
  destruct (updateSkeleton_full d f r Hwf Hsync Hdue)
    as (frame & r2 & Hframe & Hrun & Hpose & Hjoints & Hbones).
  set (s := autoCenter f r2) in *.
  exists s. split; [exact Hrun |].
  assert (Hsp : samePlayback r s).
  { eapply samePlayback_trans; [exact (proj1 Hpose) | apply autoCenter_samePlayback]. }
  pose proof (inSync_samePlayback d r s Hsp Hsync) as Hsync'.
  assert (Hdue' : poseDue d f s = true)
    by (unfold s; now rewrite (poseDue_autoCenter d f r r2 Hpose)).
  destruct (updateSkeleton_full d f s Hwf Hsync' Hdue')
    as (frame' & r2' & Hframe' & Hrun' & Hpose' & Hjoints' & Hbones').
  assert (frame' = frame) as -> by congruence.
  destruct (autoCenter_joints f r2) as [Haj Hap]. fold s in Haj, Hap.
  pose proof (autoCenter_bones f r2) as Hab. fold s in Hab.
  destruct Hsp as (_ & Hdrag & _ & Hsel & Hcal & _).
  pose proof (selectedIndex_ext d r s Hsel) as Hidx.
  apply inSync_lengths in Hsync' as (Hl1 & Hl2 & Hl3).
  destruct Hpose' as [(Hf' & Hd' & Hk' & Hs' & Hc' & Hn' & Hlj' & Hlb' & Hlp')
                       (Hv1 & Hv2 & Hv3 & Hv4)].
  assert (Hpos : jointPositionsRef r2' = jointPositionsRef s).
  { apply list_eq. intros i. destruct (decide (i < numSensors d)%nat) as [Hi | Hi].
    - destruct (Hjoints i Hi) as (p & Hp & Hjp & _).
      destruct (Hjoints' i Hi) as (p' & Hp' & Hjp' & _).
      rewrite Hjp', Hap, Hjp, Hcal. congruence.
    - rewrite !lookup_ge_None_2; [reflexivity | lia | lia]. }
  assert (Hmesh : jointsRef r2' = jointsRef s).
  { apply list_eq. intros i. destruct (decide (i < numSensors d)%nat) as [Hi | Hi].
    - destruct (Hjoints i Hi) as (p & Hp & _ & Hjm).
      destruct (Hjoints' i Hi) as (p' & Hp' & _ & Hjm').
      rewrite Hjm', Hidx, Hdrag, Hcal.
      destruct (bool_decide (selectedIndex d r = Some i) && isDraggingRef r);
        [reflexivity |].
      rewrite Haj, Hjm. congruence.
    - rewrite !lookup_ge_None_2; [reflexivity | lia | lia]. }
  assert (Hline : bonesRef r2' = bonesRef s).
  { apply list_eq. intros i.
    destruct (edgeIndexPairs d !! i) as [[a b] |] eqn:Hi.
    - destruct (Hbones i a b Hi) as (pa & pb & Ha & Hb & Hl).
      destruct (Hbones' i a b Hi) as (pa' & pb' & Ha' & Hb' & Hl').
      rewrite Hl', Hab, Hl. rewrite Hpos, Hap in Ha', Hb'. congruence.
    - apply lookup_ge_None in Hi.
      rewrite !lookup_ge_None_2; [reflexivity | lia | lia]. }
  assert (r2' = s) as ->.
  { apply refs_ext; assumption. }
  rewrite Hrun'. f_equal. apply autoCenter_idempotent.
Qed.

Lemma updateSkeleton_idempotent_witness :
  exists s,
    updateSkeleton (Some sampleDataset) (Frame 2) (refs sampleViewer) = Normal s /\
    updateSkeleton (Some sampleDataset) (Frame 2) s = Normal s.
Proof.
  apply (updateSkeleton_idempotent sampleDataset (Frame 2) (refs sampleViewer));
    vm_compute; reflexivity.
Defined.

(** ** No handler throws *)

Lemma createSkeleton_inSync (d : DatasetPayload) (r : Refs) :
  wellFormed d = true -> cameraRef r <> None ->
  exists r0, createSkeleton (Some d) r = Normal r0 /\ inSync d r0 = true.
Proof.
  intros Hwf Hcam. unfold createSkeleton.
  destruct (cameraRef r) as [cam |] eqn:Ecam; [| contradiction].
  match goal with
  | |- context [updateSkeleton ?data ?f ?r0] =>
      assert (Hs : inSync d r0 = true);
        [| destruct (updateSkeleton_resolves d f r0 Hwf Hs) as (r' & Hrun & _);
           pose proof (updateSkeleton_samePlayback data f r0) as Hsp ]
  end.
  { apply inSync_lengths. cbn [jointsRef jointPositionsRef bonesRef].
    now rewrite !length_replicate. }
  rewrite Hrun in *. exists r'. split; [reflexivity |].
  eapply inSync_samePlayback; eassumption.
Qed.

Lemma updateSkeleton_inSync (d : DatasetPayload) (f : FrameNumber) (r : Refs) :
  wellFormed d = true -> inSync d r = true ->
  exists r', updateSkeleton (Some d) f r = Normal r' /\ inSync d r' = true.
Proof.
  intros Hwf Hsync.
  destruct (updateSkeleton_resolves d f r Hwf Hsync) as (r' & Hrun & _).
  pose proof (updateSkeleton_samePlayback (Some d) f r) as Hsp.
  rewrite Hrun in Hsp. exists r'. split; [exact Hrun |].
  eapply inSync_samePlayback; eassumption.
Qed.

Lemma step_normal (d : DatasetPayload) (v : Viewer) (e : Event) :
  wellFormed d = true -> inSync d (refs v) = true ->
  exists v', step d v e = Normal v' /\ inSync d (refs v') = true.
Proof.
  intros Hwf Hsync. destruct e as [time | p now | s | b | j | cal | m]; cbn [step].
  - unfold tick.
    destruct (negb (isPlaying (props v)) || isSeekingRef (refs v)
              || isDraggingRef (refs v)); [eexists; split; [reflexivity | exact Hsync] |].
    destruct (tickLoop_spec d (props v) time (clock v) (refs v) Hwf Hsync)
      as (s' & Hrun & _ & _ & _ & _ & Hs' & _).
    rewrite Hrun. eexists. split; [reflexivity | exact Hs'].
  - eexists. split; [reflexivity | exact Hsync].
  - unfold seekEffect. destruct s as [s |].
    + match goal with
      | |- context [updateSkeleton _ ?f ?r0] =>
          destruct (updateSkeleton_inSync d f r0 Hwf) as (r' & Hrun & Hs');
            [exact Hsync | rewrite Hrun]
      end.
      eexists. split; [reflexivity | exact Hs'].
    + eexists. split; [reflexivity | exact Hsync].
  - eexists. split; [reflexivity | exact Hsync].
  - eexists. split; [reflexivity | exact Hsync].
  - unfold calibrationEffect.
    destruct (isDraggingRef (setCalibrationRef cal (refs v)));
      [eexists; split; [reflexivity | exact Hsync] |].
    destruct (updateSkeleton_inSync d (currentFrameRef (setCalibrationRef cal (refs v)))
                (setCalibrationRef cal (refs v)) Hwf Hsync) as (r' & Hrun & Hs').
    rewrite Hrun. eexists. split; [reflexivity | exact Hs'].
  - eexists. split; [reflexivity |]. cbn [refs]. unfold moveAttached.
    destruct (selectedIndex d (refs v)); [| exact Hsync].
    apply inSync_lengths in Hsync as (H1 & H2 & H3). apply inSync_lengths.
    cbn [setJoints jointsRef jointPositionsRef bonesRef].
    now rewrite length_insert.
Qed.

Lemma allNormal_run (d : DatasetPayload) (v : Viewer) (es : list Event) :
  wellFormed d = true -> inSync d (refs v) = true ->
  allNormal d v es /\ inSync d (refs (run d v es)) = true.
Proof.
  intros Hwf. revert v. induction es as [| e es IH]; intros v Hsync.
  - split; [exact I | exact Hsync].
  - destruct (step_normal d v e Hwf Hsync) as (v' & Hstep & Hs').
    destruct (IH v' Hs') as [Hall Hend]. split.
    + exists v'. split; assumption.
    + unfold run in *. cbn [fold_left]. now rewrite Hstep.
Qed.

(** X7. From the scene the creation effect builds for a dataset whose
    frames have a point for every sensor, nothing throws: the creation
    effect itself returns normally, and so does the handler of every
    event of every run of ticks, playback changes, seeks to any frame,
    drags, selections and calibration changes, also when the dataset has
    no frames, when the frame counter is [NaN] or when a seek asks for a
    frame out of range.  The meshes, positions and lines stay those of
    the dataset. *)
Theorem handlers_never_throw (d : DatasetPayload) (r : Refs) (v : Viewer)
    (es : list Event) :
  wellFormed d = true -> cameraRef r <> None ->
  refs v = stateOf (createSkeleton (Some d) r) ->
  isNormal (createSkeleton (Some d) r) = true /\
  allNormal d v es /\
  inSync d (refs (run d v es)) = true.
Proof.
  intros Hwf Hcam Hv.
  destruct (createSkeleton_inSync d r Hwf Hcam) as (r0 & Hrun & Hsync).
  rewrite Hrun in *. split; [reflexivity |].
  apply allNormal_run; [exact Hwf |]. now rewrite Hv.
Qed.

Lemma handlers_never_throw_witness :
  isNormal (createSkeleton (Some emptyDataset) mountedRefs) = true /\
  allNormal emptyDataset emptyViewer
    [AnimationFrame 20; SeekFrameChanged (Some 7%Z); AnimationFrame 45;
     CalibrationChanged ∅] /\
  inSync emptyDataset
    (refs (run emptyDataset emptyViewer
             [AnimationFrame 20; SeekFrameChanged (Some 7%Z); AnimationFrame 45;
              CalibrationChanged ∅])) = true.
Proof.
  apply (handlers_never_throw emptyDataset mountedRefs emptyViewer).
  - vm_compute; reflexivity.
  - discriminate.
  - reflexivity.
Defined.

(** ** The render loop during a drag *)

Lemma forEach_throws {I A} (body : I -> A -> Completion A) (l : list I)
    (x : I) (a : A) :
  In x l -> (forall a', isNormal (body x a') = false) ->
  isNormal (forEach body l a) = false.
Proof.
  intros Hin Hx. revert a. induction l as [| y l IH]; intros a; [destruct Hin |].
  cbn [forEach]. destruct Hin as [-> | Hin].
  - specialize (Hx a). now destruct (body x a).
  - destruct (body y a) as [a' | a']; [apply (IH Hin) | reflexivity].
Qed.

(** The copy loop: every entry of [jointPositions] becomes the position
    of its mesh. *)
Lemma copyLoop_spec (n k : nat) (r : Refs) :
  (k + n <= length (jointsRef r))%nat ->
  (k + n <= length (jointPositionsRef r))%nat ->
  exists r',
    forEach copyMeshStep (seq k n) r = Normal r' /\
    jointsRef r' = jointsRef r /\ bonesRef r' = bonesRef r /\
    length (jointPositionsRef r') = length (jointPositionsRef r) /\
    (forall i, (k <= i < k + n)%nat ->
       jointPositionsRef r' !! i = jointsRef r !! i) /\
    (forall i, ~ (k <= i < k + n)%nat ->
       jointPositionsRef r' !! i = jointPositionsRef r !! i).
Proof.
  revert k r. induction n as [| n IH]; intros k r Hj Hp.
  - exists r. repeat split; try reflexivity. intros i Hi. lia.
  - cbn [seq forEach].
    destruct (lookup_lt_is_Some_2 (jointPositionsRef r) k) as [q Hq]; [lia |].
    destruct (lookup_lt_is_Some_2 (jointsRef r) k) as [m Hm]; [lia |].
    unfold copyMeshStep at 1. rewrite Hq, Hm. cbn [andThen].
    set (r1 := setJointPositions (fun ps => <[k := m]> ps) r).
    destruct (IH (S k) r1) as (r' & Hrun & Hjr & Hbr & Hlen & Hin & Hout).
    { subst r1. cbn [jointsRef setJointPositions]. lia. }
    { subst r1. cbn [jointPositionsRef setJointPositions].
      rewrite length_insert. lia. }
    exists r'. split; [exact Hrun |]. split; [exact Hjr |]. split; [exact Hbr |].
    split; [rewrite Hlen; subst r1; cbn [jointPositionsRef setJointPositions];
            apply length_insert |].
    split.
    + intros i Hi. destruct (decide (i = k)) as [-> | Hne].
      * rewrite Hout by lia. subst r1. cbn [jointPositionsRef setJointPositions].
        rewrite Hm. apply list_lookup_insert_eq. lia.
      * rewrite Hin by lia. reflexivity.
    + intros i Hi. rewrite Hout by lia.
      subst r1. cbn [jointPositionsRef setJointPositions].
      apply list_lookup_insert_ne. lia.
Qed.

Lemma dragBoneLoop_imap (pairs : list (nat * nat)) (r : Refs) :
  forEach (dragBoneStep pairs) (seq 0 (length pairs)) r
  = forEach boneStep (imap (fun i e => (i, e)) pairs) r.
Proof.
  assert (H : forall (l : list (nat * nat)) k r,
             (forall i e, l !! i = Some e -> pairs !! (k + i)%nat = Some e) ->
             forEach (dragBoneStep pairs) (seq k (length l)) r
             = forEach boneStep (imap (fun i e => ((k + i)%nat, e)) l) r).
  { induction l as [| e l IH]; intros k r0 Hl; [reflexivity |].
    cbn [length seq forEach]. rewrite imap_cons. cbn [forEach].
    unfold dragBoneStep at 1.
    rewrite <- (Nat.add_0_r k) at 1. rewrite (Hl 0%nat e eq_refl), Nat.add_0_r.
    destruct (boneStep (k, e) r0) as [r1 | r1]; cbn [andThen]; [| reflexivity].
    rewrite (IH (S k) r1).
    - f_equal. apply imap_ext. intros i x _. cbn. f_equal. lia.
    - intros i x Hi. rewrite <- (Hl (S i) x Hi). f_equal. lia. }
  apply (H pairs 0%nat r). intros i e Hi. exact Hi.
Qed.

(** X8. While a joint is dragged, each render frame of [animate] ends
    with every entry of [jointPositions] equal to the position of its
    mesh, and with every line drawn between the meshes of its two
    sensors: the lines at the dragged joint follow the manipulator.  The
    meshes themselves are not moved.  This holds for a dataset with at
    least one line to draw, while the dataset shown is the one the viewer
    was mounted with, whose edge memo [animate] has kept. *)
Theorem animate_bones_follow_meshes (d : DatasetPayload) (r : Refs) :
  wellFormed d = true -> inSync d r = true -> isDraggingRef r = true ->
  edgeIndexPairs d <> [] ->
  exists s,
    animateSync (edgeIndexPairs d) r = Normal s /\
    jointsRef s = jointsRef r /\
    jointPositionsRef s = jointsRef r /\
    forall i a b, edgeIndexPairs d !! i = Some (a, b) ->
      exists pa pb,
        jointsRef r !! a = Some pa /\ jointsRef r !! b = Some pb /\
        bonesRef s !! i = Some (pa, pb).
Proof.
  intros Hwf Hsync Hdrag Hpairs. pose proof Hsync as Hlen.
  apply inSync_lengths in Hlen as (Hj & Hp & Hb).
  assert (Hbound : forall a b, (a, b) ∈ edgeIndexPairs d ->
                     (a < numSensors d)%nat /\ (b < numSensors d)%nat).
  { intros a b Hab. apply edgeIndexPairs_bound in Hab.
    unfold wellFormed in Hwf. apply andb_prop in Hwf as [_ Hw%Nat.leb_le]. lia. }
  assert (Hn : (0 < numSensors d)%nat).
  { destruct (edgeIndexPairs d) as [| [a b] l] eqn:E; [contradiction |].
    destruct (Hbound a b); [left | lia]. }
  assert (Hm : (0 < length (edgeIndexPairs d))%nat).
  { destruct (edgeIndexPairs d); [contradiction | cbn; lia]. }
  unfold animateSync. rewrite Hdrag.
  replace (length (jointsRef r) =? 0)%nat with false
    by (symmetry; apply Nat.eqb_neq; lia).
  replace (length (bonesRef r) =? 0)%nat with false
    by (symmetry; apply Nat.eqb_neq; lia).
  cbn [negb andb].
  destruct (copyLoop_spec (length (jointsRef r)) 0 r)
    as (r1 & Hrun1 & Hj1 & Hb1 & Hl1 & Hin1 & _); [lia | lia |].
  rewrite Hrun1. cbn [andThen]. rewrite Hb, dragBoneLoop_imap.
  destruct (boneLoop_values (edgeIndexPairs d) 0 r1)
    as (r2 & Hrun2 & Hj2 & Hp2 & Hl2 & Hin2 & _).
  { intros a b Hab. destruct (Hbound a b Hab). lia. }
  { rewrite Hb1. lia. }
  change (imap (fun i (e : nat * nat) => ((0 + i)%nat, e)) (edgeIndexPairs d))
    with (imap (fun i (e : nat * nat) => (i, e)) (edgeIndexPairs d)) in Hrun2.
  rewrite Hrun2. exists r2. split; [reflexivity |].
  split; [congruence |].
  assert (Hcopy : jointPositionsRef r1 = jointsRef r).
  { apply list_eq. intros i. destruct (decide (i < length (jointsRef r))%nat).
    - apply Hin1. lia.
    - rewrite !lookup_ge_None_2; [reflexivity | lia | lia]. }
  split; [congruence |].
  intros i a b Hi. destruct (Hin2 i a b Hi) as (pa & pb & Ha & Hb' & Hl).
  exists pa, pb. rewrite <- Hcopy. auto.
Qed.

Lemma animate_bones_follow_meshes_witness :
  exists s,
    animateSync (edgeIndexPairs sampleDataset) draggingRefs = Normal s /\
    jointsRef s = jointsRef draggingRefs /\
    jointPositionsRef s = jointsRef draggingRefs /\
    forall i a b, edgeIndexPairs sampleDataset !! i = Some (a, b) ->
      exists pa pb,
        jointsRef draggingRefs !! a = Some pa /\
        jointsRef draggingRefs !! b = Some pb /\
        bonesRef s !! i = Some (pa, pb).
Proof.
  apply (animate_bones_follow_meshes sampleDataset draggingRefs);
    try (vm_compute; reflexivity).
  vm_compute. discriminate.
Defined.

(** X9. [animate] keeps the edge memo of the render in which the viewer
    was mounted.  When the scene has more lines than that memo has pairs,
    as after a switch to a dataset with more of the canonical sensors,
    every render frame during a drag throws in the line loop: there is no
    pair to destructure for the last lines. *)
Theorem animate_with_stale_pairs_throws (pairs : list (nat * nat)) (r : Refs) :
  isDraggingRef r = true -> jointsRef r <> [] ->
  (length pairs < length (bonesRef r))%nat ->
  isNormal (animateSync pairs r) = false.
Proof.
  intros Hdrag Hj Hlen. unfold animateSync. rewrite Hdrag.
  replace (length (jointsRef r) =? 0)%nat with false
    by (symmetry; apply Nat.eqb_neq; destruct (jointsRef r); [contradiction | cbn; lia]).
  replace (length (bonesRef r) =? 0)%nat with false
    by (symmetry; apply Nat.eqb_neq; lia).
  cbn [negb andb].
  destruct (forEach copyMeshStep (seq 0 (length (jointsRef r))) r) as [r1 | r1];
    [| reflexivity].
  cbn [andThen]. apply (forEach_throws _ _ (length pairs)).
  - apply in_seq. lia.
  - intros a. unfold dragBoneStep. now rewrite lookup_ge_None_2.
Qed.

Lemma animate_with_stale_pairs_throws_witness :
  isNormal (animateSync (edgeIndexPairs staleDataset) draggingRefs) = false.
Proof.
  apply (animate_with_stale_pairs_throws (edgeIndexPairs staleDataset) draggingRefs).
  - reflexivity.
  - vm_compute. discriminate.
  - vm_compute. lia.
Defined.

(** ** Seeking and calibration changes *)

(** X19. A seek shows the frame asked for, clamped to the dataset: on a
    scene built for a well-formed dataset with a camera and a line to
    draw, a change of [seekFrame] to [s] returns normally with
    [currentFrame] at [s] clamped to [0 .. numFrames - 1], tells the host
    that frame, marks the viewer as seeking, and leaves every entry of
    [jointPositions], and every mesh but the one being dragged, at the
    resolved position of that frame's point. *)
Theorem seek_shows_clamped_frame (d : DatasetPayload) (v : Viewer) (s : Z)
    (frame : list Vec3) :
  wellFormed d = true -> inSync d (refs v) = true ->
  cameraRef (refs v) <> None -> edgeIndexPairs d <> [] ->
  frameAt d (Frame (seekTarget (Some d) s)) = Some frame ->
  let target := seekTarget (Some d) s in
  exists v',
    step d v (SeekFrameChanged (Some s)) = Normal v' /\
    target = Z.max 0 (Z.min s (if (numFrames d =? 0)%Z then 0 else numFrames d - 1)) /\
    currentFrameRef (refs v') = Frame target /\
    isSeekingRef (refs v') = true /\
    frameChanges (refs v') = Frame target :: frameChanges (refs v) /\
    forall i, (i < numSensors d)%nat ->
      exists p, frame !! i = Some p /\
        jointPositionsRef (refs v') !! i
          = Some (resolvedPosition d (calibrationRef (refs v)) i p) /\
        jointsRef (refs v') !! i
          = if bool_decide (selectedIndex d (refs v) = Some i)
               && isDraggingRef (refs v)
            then jointsRef (refs v) !! i
            else Some (resolvedPosition d (calibrationRef (refs v)) i p).
Proof.
  intros Hwf Hsync Hcam Hpairs Hframe target. subst target.
  cbn [step]. unfold seekEffect.
  set (f := Frame (seekTarget (Some d) s)) in *.
  set (r0 := setCurrentFrame f (setIsSeeking true (refs v))).
  assert (Hdue : poseDue d f r0 = true)
    by (apply (poseDue_intro d f r0 frame); assumption).
  destruct (updateSkeleton_final d f r0 Hwf Hsync Hdue)
    as (frame' & r1 & Hframe' & Hrun & Hsame & Hjoints & _).
  assert (frame' = frame) as -> by congruence.
  rewrite Hrun. cbn [andThen withRefs]. eexists. split; [reflexivity |].
  cbn [refs onFrameChange currentFrameRef isSeekingRef frameChanges
       jointPositionsRef jointsRef].
  destruct Hsame as (Hc & _ & Hk & _ & _ & Hn & _).
  split; [reflexivity |].
  split; [exact Hc |]. split; [exact Hk |].
  split; [rewrite Hn; reflexivity |].
  exact Hjoints.
Qed.

Lemma seek_shows_clamped_frame_witness :
  exists v',
    step sampleDataset sampleViewer (SeekFrameChanged (Some 7%Z)) = Normal v' /\
    seekTarget (Some sampleDataset) 7 = 2%Z /\
    currentFrameRef (refs v') = Frame 2 /\
    isSeekingRef (refs v') = true.
Proof.
  destruct (seek_shows_clamped_frame sampleDataset sampleViewer 7
              (replicate 15 (mkVec3 7 8 9)))
    as (v' & Hstep & Htarget & Hcur & Hseek & _).
  - vm_compute; reflexivity.
  - vm_compute; reflexivity.
  - vm_compute; discriminate.
  - vm_compute; discriminate.
  - vm_compute; reflexivity.
  - exists v'. split; [exact Hstep |]. split; [reflexivity |].
    split; [exact Hcur | exact Hseek].
Defined.

(** X20. A change of the calibration is shown at once, also while
    paused, unless a joint is being dragged.  On a scene built for a
    well-formed dataset with a camera, a line to draw and a current frame
    that exists, the calibration effect returns normally; when no drag is
    active every entry of [jointPositions] and every mesh is at the
    position resolved with the new calibration; during a drag only the
    calibration ref changes and no mesh, position or line is touched. *)
Theorem calibration_change_reposes_unless_dragging (d : DatasetPayload)
    (r : Refs) (cal : Calibration) (frame : list Vec3) :
  wellFormed d = true -> inSync d r = true ->
  cameraRef r <> None -> edgeIndexPairs d <> [] ->
  frameAt d (currentFrameRef r) = Some frame ->
  exists r',
    calibrationEffect (Some d) cal r = Normal r' /\
    calibrationRef r' = cal /\
    currentFrameRef r' = currentFrameRef r /\
    if isDraggingRef r
    then r' = setCalibrationRef cal r
    else forall i, (i < numSensors d)%nat ->
           exists p, frame !! i = Some p /\
             jointPositionsRef r' !! i = Some (resolvedPosition d cal i p) /\
             jointsRef r' !! i = Some (resolvedPosition d cal i p).
Proof.
  intros Hwf Hsync Hcam Hpairs Hframe. unfold calibrationEffect.
  cbn [isDraggingRef setCalibrationRef].
  destruct (isDraggingRef r) eqn:Hdrag.
  - eexists. split; [reflexivity |]. now repeat split.
  - set (r0 := setCalibrationRef cal r).
    change (currentFrameRef r0) with (currentFrameRef r).
    assert (Hdue : poseDue d (currentFrameRef r) r0 = true)
      by (apply (poseDue_intro d _ r0 frame); assumption).
    destruct (updateSkeleton_final d (currentFrameRef r) r0 Hwf Hsync Hdue)
      as (frame' & r1 & Hframe' & Hrun & Hsame & Hjoints & _).
    assert (frame' = frame) as -> by congruence.
    exists r1. split; [exact Hrun |].
    destruct Hsame as (Hc & _ & _ & _ & Hcal & _).
    split; [exact Hcal |]. split; [exact Hc |].
    intros i Hi. destruct (Hjoints i Hi) as (p & Hp & Hpos & Hmesh).
    exists p. split; [exact Hp |]. split; [exact Hpos |].
    change (isDraggingRef r0) with (isDraggingRef r) in Hmesh.
    rewrite Hdrag, andb_false_r in Hmesh. exact Hmesh.
Qed.

Lemma calibration_change_reposes_unless_dragging_witness :
  let cal : Calibration := {[ "head" := {| positionOffset := Some (mkVec3 5 0 0) |} ]} in
  exists r',
    calibrationEffect (Some sampleDataset) cal (refs sampleViewer) = Normal r' /\
    calibrationRef r' = cal /\
    currentFrameRef r' = currentFrameRef (refs sampleViewer) /\
    if isDraggingRef (refs sampleViewer)
    then r' = setCalibrationRef cal (refs sampleViewer)
    else forall i, (i < numSensors sampleDataset)%nat ->
           exists p, replicate 15 (mkVec3 1 2 3) !! i = Some p /\
             jointPositionsRef r' !! i = Some (resolvedPosition sampleDataset cal i p) /\
             jointsRef r' !! i = Some (resolvedPosition sampleDataset cal i p).
Proof.
  intros cal.
  apply (calibration_change_reposes_unless_dragging sampleDataset
           (refs sampleViewer) cal (replicate 15 (mkVec3 1 2 3))).
  - vm_compute; reflexivity.
  - vm_compute; reflexivity.
  - vm_compute; discriminate.
  - vm_compute; discriminate.
  - vm_compute; reflexivity.
Defined.

(** ** The falling-behind counter *)

Lemma loopBody_counts (d : DatasetPayload) (p : Props) (s : LoopState) :
  framesToUpdate (stateOf (loopBody d p s)) = S (framesToUpdate s).
Proof.
  unfold loopBody. now destruct (updateSkeleton _ _ _).
Qed.

Lemma catchUp_count_mono (d : DatasetPayload) (p : Props) (fuel : nat)
    (s : LoopState) :
  (framesToUpdate s <= framesToUpdate (stateOf (catchUp d p fuel s)))%nat.
Proof.
  revert s. induction fuel as [| fuel IH]; intros s; cbn [catchUp]; [cbn; lia |].
  destruct (loopCondition d p s); [| cbn; lia].
  pose proof (loopBody_counts d p s) as Hc.
  destruct (loopBody d p s) as [s' | s']; cbn [stateOf] in *.
  - specialize (IH s'). lia.
  - lia.
Qed.

(** When the loop of a tick has advanced no frame, less than one
    interval is left in the accumulator. *)
Lemma tickLoop_idle (d : DatasetPayload) (p : Props) (time : Q) (c : Clock)
    (r : Refs) (s : LoopState) :
  tickLoop d p time c r = Normal s -> framesToUpdate s = 0%nat ->
  (acc s < intervalMs d p)%Q.
Proof.
  unfold tickLoop.
  set (s0 := {| acc := Double.round64 (accumulator c + Double.round64 (time - lastTime c));
                framesToUpdate := 0; loopRefs := r |}).
  assert (Hfuel : exists fuel, maxFrameSkip p = S fuel)
    by (unfold maxFrameSkip; destruct (isSafari p); eexists; reflexivity).
  destruct Hfuel as [fuel Hfuel]. rewrite Hfuel. cbn [catchUp].
  destruct (loopCondition d p s0) eqn:Hcond.
  - pose proof (loopBody_counts d p s0) as Hc.
    destruct (loopBody d p s0) as [s1 | s1]; [| discriminate].
    cbn [stateOf] in Hc. intros Hrun Hzero.
    pose proof (catchUp_count_mono d p fuel s1) as Hmono.
    rewrite Hrun in Hmono. cbn [stateOf] in Hmono. lia.
  - intros [= <-] _. unfold loopCondition in Hcond.
    apply andb_false_iff in Hcond as [Hq | Hn].
    + now apply Qle_bool_false in Hq.
    + apply Nat.ltb_ge in Hn. rewrite Hfuel in Hn. subst s0.
      cbn [framesToUpdate] in Hn. lia.
Qed.

Lemma tick_frameSkip (d : DatasetPayload) (time : Q) (v : Viewer) :
  (0 <= frameRate d)%Q -> frameSkip (clock v) = 0%Z ->
  frameSkip (clock (stateOf (tick d time v))) = 0%Z.
Proof.
  intros Hrate Hzero. unfold tick.
  destruct (negb (isPlaying (props v)) || isSeekingRef (refs v)
            || isDraggingRef (refs v)); [exact Hzero |].
  destruct (tickLoop d (props v) time (clock v) (refs v)) as [s | s] eqn:Hrun;
    cbn [stateOf clock frameSkip]; [| exact Hzero].
  destruct (framesToUpdate s =? 0)%nat eqn:Hn; [| reflexivity].
  apply Nat.eqb_eq in Hn.
  pose proof (tickLoop_idle d (props v) time (clock v) (refs v) s Hrun Hn) as Hacc.
  pose proof (intervalMs_nonneg d (props v) Hrate) as Hpos.
  destruct (Qltb (intervalMs d (props v) * 2) (acc s)) eqn:Hb; [| reflexivity].
  apply Qltb_true in Hb. lra.
Qed.

(** X21. The falling-behind branch of [tick] is never taken.  For a
    dataset with a frame rate that is not negative, through every run of
    ticks at any times, playback changes, seeks, drags, selections and
    calibration changes, also when a handler throws, the counter
    [frameSkip] stays 0: a tick that advanced no frame has less than one
    interval in its accumulator, never more than two, so the warning
    "Animation falling behind" is never logged. *)
Theorem falling_behind_never_counted (d : DatasetPayload) (v : Viewer)
    (es : list Event) :
  (0 <= frameRate d)%Q -> frameSkip (clock v) = 0%Z ->
  frameSkip (clock (run d v es)) = 0%Z.
Proof.
  intros Hrate. revert v. unfold run.
  induction es as [| e es IH]; intros v Hzero; [exact Hzero |].
  cbn [fold_left]. apply IH.
  destruct e as [time | p now | s | b | j | cal | m]; cbn [step].
  - now apply tick_frameSkip.
  - reflexivity.
  - now destruct (seekEffect (Some d) s (refs v)).
  - exact Hzero.
  - exact Hzero.
  - now destruct (calibrationEffect (Some d) cal (refs v)).
  - exact Hzero.
Qed.

Lemma falling_behind_never_counted_witness :
  frameSkip (clock (run sampleDataset sampleViewer
                      [AnimationFrame 5; AnimationFrame 2000;
                       DraggingChanged true; AnimationFrame 9000;
                       DraggingChanged false; AnimationFrame 9001])) = 0%Z.
Proof.
  apply (falling_behind_never_counted sampleDataset sampleViewer).
  - vm_compute; discriminate.
  - reflexivity.
Defined.

(** ** Lines drawn and sensors present, for any dataset *)

Lemma filter_length_all {A} (p : A -> bool) (l : list A) :
  length (List.filter p l) = length l -> forall a, In a l -> p a = true.
Proof.
  induction l as [| x l IH]; intros Hlen a Ha; [destruct Ha |].
  cbn [List.filter] in Hlen. pose proof (List.filter_length_le p l) as Hle.
  destruct (p x) eqn:Hx; cbn [length] in Hlen; [| lia].
  destruct Ha as [<- | Ha]; [exact Hx |].
  apply IH; [lia | exact Ha].
Qed.

Lemma filter_all {A} (p : A -> bool) (l : list A) :
  (forall a, In a l -> p a = true) -> List.filter p l = l.
Proof.
  induction l as [| x l IH]; intros H; [reflexivity |].
  cbn [List.filter]. rewrite (H x (or_introl eq_refl)).
  f_equal. apply IH. intros a Ha. apply H. now right.
Qed.

Lemma includes_missingSensors (d : DatasetPayload) (n : string) :
  In n SENSOR_NAMES ->
  includes (missingSensors (skeletonValidation d)) n
  = negb (includes (sensorNames d) n).
Proof.
  intros Hn. unfold skeletonValidation, validateSkeletonStructure.
  cbn [missingSensors].
  destruct (includes (sensorNames d) n) eqn:Hi; cbn [negb].
  - apply includes_false. intros Hin%list_elem_of_In%filter_In.
    destruct Hin as [_ Hin]. rewrite Hi in Hin. discriminate.
  - apply includes_true, list_elem_of_In, filter_In.
    split; [exact Hn | now rewrite Hi].
Qed.

Lemma sensors_are_edge_ends (n : string) :
  In n SENSOR_NAMES -> exists e, In e EDGES /\ touches n e = true.
Proof.
  intros Hn.
  assert (H : forallb (fun n => existsb (touches n) EDGES) SENSOR_NAMES = true)
    by (vm_compute; reflexivity).
  rewrite forallb_forall in H. apply H in Hn. now apply existsb_exists in Hn.
Qed.

(** X11. For every dataset, the lines the viewer draws are the canonical
    edges neither of whose end points validation reports as a missing
    sensor, in the canonical order, each as the pair of positions of its
    end points in the dataset's sensor names.  All fourteen lines are
    drawn exactly when validation reports no missing sensor.  The
    dataset's own [edges] play no part in what is drawn. *)
Theorem lines_drawn_are_edges_of_present_sensors (d : DatasetPayload) :
  let missing := missingSensors (skeletonValidation d) in
  exists idx : string -> nat,
    (forall n, n ∈ sensorNames d -> sensorNames d !! idx n = Some n) /\
    edgeIndexPairs d
    = map (fun e => (idx e.1, idx e.2))
          (List.filter (fun e => negb (includes missing e.1)
                                 && negb (includes missing e.2)) EDGES) /\
    (length (edgeIndexPairs d) = length EDGES <-> missing = []).
Proof.
  intros missing.
  exists (fun n => default 0%nat (nameToIdx (sensorNames d) !! n)).
  assert (Hpairs :
    edgeIndexPairs d
    = map (fun e => (default 0%nat (nameToIdx (sensorNames d) !! e.1),
                     default 0%nat (nameToIdx (sensorNames d) !! e.2)))
          (List.filter (fun e => negb (includes missing e.1)
                                 && negb (includes missing e.2)) EDGES)).
  { unfold edgeIndexPairs. apply omap_map_filter. intros [a b] He.
    destruct (edges_between_canonical_names _ He) as [Ha Hb].
    cbn [fst snd] in *. subst missing.
    rewrite (includes_missingSensors d a Ha), (includes_missingSensors d b Hb),
      !negb_involutive.
    unfold edgeLookup. cbn [fst snd].
    destruct (includes (sensorNames d) a) eqn:Ia.
    - apply includes_true in Ia.
      destruct (nameToIdx_present _ _ Ia) as (i & -> & _).
      destruct (includes (sensorNames d) b) eqn:Ib.
      + apply includes_true in Ib.
        destruct (nameToIdx_present _ _ Ib) as (j & -> & _). reflexivity.
      + apply includes_false in Ib. now rewrite (nameToIdx_absent _ _ Ib).
    - apply includes_false in Ia. now rewrite (nameToIdx_absent _ _ Ia). }
  split; [| split; [exact Hpairs |]].
  - intros n Hn. apply nameToIdx_Some.
    destruct (nameToIdx_present _ _ Hn) as (i & -> & _). reflexivity.
  - rewrite Hpairs, length_map. split.
    + intros Hlen.
      pose proof (filter_length_all _ _ Hlen) as Hall.
      destruct missing as [| m rest] eqn:Hm; [reflexivity | exfalso].
      assert (Hin : In m SENSOR_NAMES).
      { assert (H : In m missing) by (rewrite Hm; now left).
        unfold missing, skeletonValidation, validateSkeletonStructure in H.
        cbn [missingSensors] in H. apply filter_In in H. exact (proj1 H). }
      destruct (sensors_are_edge_ends m Hin) as (e & He & Ht).
      specialize (Hall e He). apply andb_prop in Hall as [H1 H2].
      apply negb_true_iff in H1, H2.
      unfold touches in Ht. apply orb_prop in Ht as [Ht | Ht];
        apply String.eqb_eq in Ht; rewrite Ht in *.
      * cbn [includes existsb] in H1. now rewrite String.eqb_refl in H1.
      * cbn [includes existsb] in H2. now rewrite String.eqb_refl in H2.
    + intros ->. now rewrite filter_all.
Qed.

(** ** Pointer coordinates *)

Lemma clampedRatio_spec (size origin client : Q) :
  (0 < size)%Q ->
  exists q, clampedRatio size origin client = Some q /\
    (0 <= q)%Q /\ (q <= 1)%Q /\
    ((client <= origin)%Q -> (q == 0)%Q) /\
    ((origin + size <= client)%Q -> (q == 1)%Q) /\
    ((origin <= client)%Q -> (client <= origin + size)%Q ->
       (q == (client - origin) / size)%Q).
Proof.
  intros Hsize. unfold clampedRatio.
  destruct (Qeq_bool size 0) eqn:E; [apply Qeq_bool_eq in E; lra |].
  eexists. split; [reflexivity |].
  set (x := Qmax 0 (Qmin size (client - origin))).
  assert (Hx : (0 <= x)%Q /\ (x <= size)%Q /\
               ((client <= origin)%Q -> (x == 0)%Q) /\
               ((origin + size <= client)%Q -> (x == size)%Q) /\
               ((origin <= client)%Q -> (client <= origin + size)%Q ->
                  (x == client - origin)%Q)).
  { unfold x.
    destruct (Q.min_spec size (client - origin)) as [[H1 ->] | [H1 ->]];
      destruct (Q.max_spec 0 size) as [[H2 H3] | [H2 H3]];
      destruct (Q.max_spec 0 (client - origin)) as [[H4 H5] | [H4 H5]];
      try rewrite H3; try rewrite H5; repeat split; intros; lra. }
  destruct Hx as (H0 & H1 & Hl & Hr & Hm).
  split; [apply Qle_shift_div_l; lra |].
  split; [apply Qle_shift_div_r; lra |].
  split; [intros H; rewrite (Hl H); field; lra |].
  split; [intros H; rewrite (Hr H); field; lra |].
  intros Ha Hb. now rewrite (Hm Ha Hb).
Qed.

(** X12. For an event that carries a point (a mouse or pointer event, or
    a touch event with a touch) on a canvas of positive width and height,
    [updatePointer] yields normalised device coordinates within
    [-1, 1] x [-1, 1]: a point inside the canvas is mapped linearly, the
    left edge to [x = -1], the right edge to [x = 1], the top edge to
    [y = 1] and the bottom edge to [y = -1], and a point outside the
    canvas is clamped to the nearest edge. *)
Theorem updatePointer_normalised (rect : Rect) (e : InputEvent) (p : Point) :
  eventPoint e = Some p ->
  (0 < rectWidth rect)%Q -> (0 < rectHeight rect)%Q ->
  exists x y,
    updatePointer rect e = (Some x, Some y) /\
    (-1 <= x)%Q /\ (x <= 1)%Q /\ (-1 <= y)%Q /\ (y <= 1)%Q /\
    ((clientX p <= rectLeft rect)%Q -> (x == -1)%Q) /\
    ((rectLeft rect + rectWidth rect <= clientX p)%Q -> (x == 1)%Q) /\
    ((clientY p <= rectTop rect)%Q -> (y == 1)%Q) /\
    ((rectTop rect + rectHeight rect <= clientY p)%Q -> (y == -1)%Q) /\
    ((rectLeft rect <= clientX p)%Q ->
     (clientX p <= rectLeft rect + rectWidth rect)%Q ->
     (x == (clientX p - rectLeft rect) / rectWidth rect * 2 - 1)%Q) /\
    ((rectTop rect <= clientY p)%Q ->
     (clientY p <= rectTop rect + rectHeight rect)%Q ->
     (y == 1 - (clientY p - rectTop rect) / rectHeight rect * 2)%Q).
Proof.
  intros Hp Hw Hh. unfold updatePointer. rewrite Hp.
  destruct (clampedRatio_spec (rectWidth rect) (rectLeft rect) (clientX p) Hw)
    as (qx & -> & Hx0 & Hx1 & Hxl & Hxr & Hxm).
  destruct (clampedRatio_spec (rectHeight rect) (rectTop rect) (clientY p) Hh)
    as (qy & -> & Hy0 & Hy1 & Hyl & Hyr & Hym).
  cbn [option_map]. eexists. eexists. split; [reflexivity |].
  repeat split; lra.
Qed.

Lemma updatePointer_normalised_witness :
  exists x y,
    updatePointer {| rectLeft := 10; rectTop := 20; rectWidth := 800;
                     rectHeight := 600 |}
      (TouchInput [] [ {| clientX := 210; clientY := 700 |} ]) = (Some x, Some y) /\
    (x == - (1 # 2))%Q /\ (y == -1)%Q.
Proof.
  destruct (updatePointer_normalised
              {| rectLeft := 10; rectTop := 20; rectWidth := 800; rectHeight := 600 |}
              (TouchInput [] [ {| clientX := 210; clientY := 700 |} ])
              {| clientX := 210; clientY := 700 |})
    as (x & y & Hrun & _ & _ & _ & _ & _ & _ & _ & Hbottom & Hmid & _).
  - reflexivity.
  - reflexivity.
  - reflexivity.
  - exists x, y. split; [exact Hrun |]. split.
    + rewrite Hmid; [reflexivity | cbn; discriminate | cbn; discriminate].
    + apply Hbottom. cbn. discriminate.
Defined.

(** ** The example poses *)


(** ** lib/processing *)

(** A loop over the indices [k .. k+n-1] that rewrites the entry at each
    index by [g], and leaves a missing entry missing. *)
Lemma pointwise_loop {A} (st : nat -> list A -> list A) (g : nat -> A -> A) :
  (forall d l, st d l = match l !! d with
                        | Some x => <[d := g d x]> l
                        | None => l
                        end) ->
  forall n k l,
    length (fold_left (fun l d => st d l) (seq k n) l) = length l /\
    forall d, fold_left (fun l d => st d l) (seq k n) l !! d
              = if decide (k <= d < k + n)%nat then g d <$> l !! d else l !! d.
Proof.
  intros Hst. induction n as [| n IH]; intros k l.
  - cbn [seq fold_left]. split; [reflexivity |]. intros d.
    destruct (decide (k <= d < k + 0)%nat); [lia | reflexivity].
  - cbn [seq fold_left]. destruct (IH (S k) (st k l)) as [Hlen Hget].
    assert (Hl1 : length (st k l) = length l).
    { rewrite Hst. destruct (l !! k); [apply length_insert | reflexivity]. }
    assert (Hg1 : forall d, st k l !! d
                            = if decide (d = k) then g k <$> l !! k else l !! d).
    { intros d. rewrite Hst. destruct (l !! k) as [x |] eqn:Hk.
      - destruct (decide (d = k)) as [-> | Hne].
        + apply list_lookup_insert_eq. eapply lookup_lt_Some; eassumption.
        + apply list_lookup_insert_ne. congruence.
      - destruct (decide (d = k)) as [-> | Hne]; [exact Hk | reflexivity]. }
    split; [congruence |].
    intros d. rewrite Hget, Hg1.
    destruct (decide (S k <= d < S k + n)%nat), (decide (d = k)),
      (decide (k <= d < k + S n)%nat); try lia; try reflexivity.
    subst d. reflexivity.
Qed.

Lemma Qltb_false (x y : Q) : Qltb x y = false -> (y <= x)%Q.
Proof.
  intros H. apply Qnot_lt_le. intros Hlt. apply Qltb_true in Hlt. congruence.
Qed.

Lemma statsRow_fields (ds : list nat) (a : Processing.Sums) (row : list Q) :
  let a' := fold_left (fun a d => Processing.statsCell row d a) ds a in
  Processing.smin a'
  = fold_left (fun l d => match l !! d with
                          | Some x => <[d := lower (Processing.cell row d) x]> l
                          | None => l
                          end) ds (Processing.smin a) /\
  Processing.smax a'
  = fold_left (fun l d => match l !! d with
                          | Some x => <[d := higher (Processing.cell row d) x]> l
                          | None => l
                          end) ds (Processing.smax a) /\
  Processing.ssum a'
  = fold_left (fun l d => match l !! d with
                          | Some s =>
                              <[d := Double.add s (Double.Fin (Processing.cell row d))]> l
                          | None => l
                          end) ds (Processing.ssum a).
Proof.
  revert a. induction ds as [| d ds IH]; intros a; [now repeat split |].
  cbn [fold_left]. destruct (IH (Processing.statsCell row d a)) as (H1 & H2 & H3).
  cbv zeta. rewrite H1, H2, H3. unfold Processing.statsCell.
  cbn [Processing.smin Processing.smax Processing.ssum].
  repeat split; f_equal.
  - destruct (Processing.smin a !! d) as [[m |] |] eqn:E; try reflexivity.
    cbn [lower]. destruct (Qltb (Processing.cell row d) m); [reflexivity |].
    symmetry. now apply list_insert_id.
  - destruct (Processing.smax a !! d) as [[m |] |] eqn:E; try reflexivity.
    cbn [higher]. destruct (Qltb m (Processing.cell row d)); [reflexivity |].
    symmetry. now apply list_insert_id.
Qed.

(** One row of the first pass, column by column. *)
Lemma statsRow_spec (dims : nat) (a : Processing.Sums) (row : list Q) :
  let a' := Processing.statsRow dims a row in
  length (Processing.smin a') = length (Processing.smin a) /\
  length (Processing.smax a') = length (Processing.smax a) /\
  length (Processing.ssum a') = length (Processing.ssum a) /\
  forall d, (d < dims)%nat ->
    Processing.smin a' !! d
    = lower (Processing.cell row d) <$> Processing.smin a !! d /\
    Processing.smax a' !! d
    = higher (Processing.cell row d) <$> Processing.smax a !! d /\
    Processing.ssum a' !! d
    = (fun s => Double.add s (Double.Fin (Processing.cell row d)))
        <$> Processing.ssum a !! d.
Proof.
  cbv zeta. unfold Processing.statsRow.
  destruct (statsRow_fields (seq 0 dims) a row) as (-> & -> & ->).
  destruct (pointwise_loop
              (fun d l => match l !! d with
                          | Some x => <[d := lower (Processing.cell row d) x]> l
                          | None => l
                          end)
              (fun d => lower (Processing.cell row d)) (fun _ _ => eq_refl)
              dims 0%nat (Processing.smin a)) as [L1 G1].
  destruct (pointwise_loop
              (fun d l => match l !! d with
                          | Some x => <[d := higher (Processing.cell row d) x]> l
                          | None => l
                          end)
              (fun d => higher (Processing.cell row d)) (fun _ _ => eq_refl)
              dims 0%nat (Processing.smax a)) as [L2 G2].
  destruct (pointwise_loop
              (fun d l => match l !! d with
                          | Some s =>
                              <[d := Double.add s (Double.Fin (Processing.cell row d))]> l
                          | None => l
                          end)
              (fun d s => Double.add s (Double.Fin (Processing.cell row d)))
              (fun _ _ => eq_refl)
              dims 0%nat (Processing.ssum a)) as [L3 G3].
  repeat split; try assumption.
  - rewrite G1. destruct (decide (0 <= d < 0 + dims)%nat); [reflexivity | lia].
  - rewrite G2. destruct (decide (0 <= d < 0 + dims)%nat); [reflexivity | lia].
  - rewrite G3. destruct (decide (0 <= d < 0 + dims)%nat); [reflexivity | lia].
Qed.

(** The first pass over all rows, column by column. *)
Lemma statsFold_spec (dims : nat) (rows : list (list Q)) (a : Processing.Sums) :
  let a' := fold_left (Processing.statsRow dims) rows a in
  length (Processing.smin a') = length (Processing.smin a) /\
  length (Processing.smax a') = length (Processing.smax a) /\
  length (Processing.ssum a') = length (Processing.ssum a) /\
  forall d, (d < dims)%nat ->
    Processing.smin a' !! d = columnMin rows d <$> Processing.smin a !! d /\
    Processing.smax a' !! d = columnMax rows d <$> Processing.smax a !! d /\
    Processing.ssum a' !! d = columnSum rows d <$> Processing.ssum a !! d.
Proof.
  revert a. induction rows as [| row rows IH]; intros a; cbv zeta.
  - cbn [fold_left]. split; [reflexivity |]. split; [reflexivity |].
    split; [reflexivity |]. intros d _.
    unfold columnMin, columnMax, columnSum; cbn [fold_left].
    split; [| split].
    + now destruct (Processing.smin a !! d).
    + now destruct (Processing.smax a !! d).
    + now destruct (Processing.ssum a !! d).
  - cbn [fold_left].
    destruct (IH (Processing.statsRow dims a row)) as (L1 & L2 & L3 & G).
    destruct (statsRow_spec dims a row) as (M1 & M2 & M3 & H).
    cbv zeta in *. split; [congruence |]. split; [congruence |].
    split; [congruence |].
    intros d Hd. destruct (G d Hd) as (G1 & G2 & G3).
    destruct (H d Hd) as (H1 & H2 & H3).
    rewrite G1, G2, G3, H1, H2, H3.
    unfold columnMin, columnMax, columnSum. cbn [fold_left].
    split; [| split].
    + now destruct (Processing.smin a !! d).
    + now destruct (Processing.smax a !! d).
    + now destruct (Processing.ssum a !! d).
Qed.

Lemma columnMin_spec (rows : list (list Q)) (d : nat) (o : option Q) :
  match columnMin rows d o with
  | Some lo =>
      (forall row, In row rows -> (lo <= Processing.cell row d)%Q) /\
      (forall m, o = Some m -> (lo <= m)%Q) /\
      ((exists row, In row rows /\ Processing.cell row d = lo) \/ o = Some lo)
  | None => rows = [] /\ o = None
  end.
Proof.
  revert o. induction rows as [| row rows IH]; intros o.
  - unfold columnMin. cbn [fold_left]. destruct o as [m |]; [| now split].
    split; [intros row [] |]. split; [intros m' [= <-]; lra | now right].
  - unfold columnMin in *. cbn [fold_left].
    specialize (IH (lower (Processing.cell row d) o)).
    destruct (fold_left _ rows (lower (Processing.cell row d) o)) as [lo |].
    + destruct IH as (Hall & Hprev & Hwit).
      assert (Hrow : (lo <= Processing.cell row d)%Q
                     /\ forall m, o = Some m -> (lo <= m)%Q).
      { destruct o as [m |]; cbn [lower] in Hprev.
        - destruct (Qltb (Processing.cell row d) m) eqn:E.
          + apply Qltb_true in E. specialize (Hprev _ eq_refl).
            split; [exact Hprev |]. intros m' [= <-]. lra.
          + apply Qltb_false in E. specialize (Hprev _ eq_refl).
            split; [lra |]. intros m' [= <-]. exact Hprev.
        - split; [exact (Hprev _ eq_refl) | discriminate]. }
      destruct Hrow as [Hrow Ho]. split.
      * intros r [<- | Hr]; [exact Hrow | now apply Hall].
      * split; [exact Ho |].
        destruct Hwit as [(r & Hr & Heq) | Heq].
        -- left. exists r. split; [now right | exact Heq].
        -- destruct o as [m |]; cbn [lower] in Heq.
           ++ destruct (Qltb (Processing.cell row d) m).
              ** left. exists row. split; [now left | congruence].
              ** now right.
           ++ left. exists row. split; [now left | congruence].
    + destruct IH as [_ Hnone]. destruct o as [m |]; cbn [lower] in Hnone;
        [destruct (Qltb _ m) |]; discriminate.
Qed.

Lemma columnMax_spec (rows : list (list Q)) (d : nat) (o : option Q) :
  match columnMax rows d o with
  | Some hi =>
      (forall row, In row rows -> (Processing.cell row d <= hi)%Q) /\
      (forall m, o = Some m -> (m <= hi)%Q) /\
      ((exists row, In row rows /\ Processing.cell row d = hi) \/ o = Some hi)
  | None => rows = [] /\ o = None
  end.
Proof.
  revert o. induction rows as [| row rows IH]; intros o.
  - unfold columnMax. cbn [fold_left]. destruct o as [m |]; [| now split].
    split; [intros row [] |]. split; [intros m' [= <-]; lra | now right].
  - unfold columnMax in *. cbn [fold_left].
    specialize (IH (higher (Processing.cell row d) o)).
    destruct (fold_left _ rows (higher (Processing.cell row d) o)) as [hi |].
    + destruct IH as (Hall & Hprev & Hwit).
      assert (Hrow : (Processing.cell row d <= hi)%Q
                     /\ forall m, o = Some m -> (m <= hi)%Q).
      { destruct o as [m |]; cbn [higher] in Hprev.
        - destruct (Qltb m (Processing.cell row d)) eqn:E.
          + apply Qltb_true in E. specialize (Hprev _ eq_refl).
            split; [exact Hprev |]. intros m' [= <-]. lra.
          + apply Qltb_false in E. specialize (Hprev _ eq_refl).
            split; [lra |]. intros m' [= <-]. exact Hprev.
        - split; [exact (Hprev _ eq_refl) | discriminate]. }
      destruct Hrow as [Hrow Ho]. split.
      * intros r [<- | Hr]; [exact Hrow | now apply Hall].
      * split; [exact Ho |].
        destruct Hwit as [(r & Hr & Heq) | Heq].
        -- left. exists r. split; [now right | exact Heq].
        -- destruct o as [m |]; cbn [higher] in Heq.
           ++ destruct (Qltb m (Processing.cell row d)).
              ** left. exists row. split; [now left | congruence].
              ** now right.
           ++ left. exists row. split; [now left | congruence].
    + destruct IH as [_ Hnone]. destruct o as [m |]; cbn [higher] in Hnone;
        [destruct (Qltb m _) |]; discriminate.
Qed.

Lemma lookup_map {A B} (f : A -> B) (l : list A) (i : nat) :
  map f l !! i = f <$> l !! i.
Proof.
  revert i. induction l as [| x l IH]; intros [| i]; try reflexivity.
  cbn [map]. apply IH.
Qed.

Lemma varRow_length (dims : nat) (mean varSum : list Double.number)
    (row : list Q) :
  length (Processing.varRow dims mean varSum row) = length varSum.
Proof.
  unfold Processing.varRow.
  apply (pointwise_loop
           (fun d vs => Processing.varCell mean row d vs)
           (fun d s => match mean !! d with
                       | Some m =>
                           Double.add s
                             (Double.mul
                                (Double.sub (Double.Fin (Processing.cell row d)) m)
                                (Double.sub (Double.Fin (Processing.cell row d)) m))
                       | None => s
                       end)).
  intros d l. unfold Processing.varCell.
  destruct (l !! d) as [s |] eqn:E; [| reflexivity].
  destruct (mean !! d); [reflexivity |]. symmetry. now apply list_insert_id.
Qed.

Lemma varFold_length (dims : nat) (mean : list Double.number)
    (rows : list (list Q)) (varSum : list Double.number) :
  length (fold_left (Processing.varRow dims mean) rows varSum) = length varSum.
Proof.
  revert varSum. induction rows as [| row rows IH]; intros varSum; [reflexivity |].
  cbn [fold_left]. rewrite IH. apply varRow_length.
Qed.

(** The arrays of [computeStats], column by column. *)
Lemma computeStats_columns (sqrt : Double.number -> Double.number)
    (first : list Q) (rest : list (list Q)) (d : nat) :
  (d < length first)%nat ->
  let series := first :: rest in
  let st := Processing.computeStats sqrt series in
  Processing.min st !! d = Some (columnMin series d None) /\
  Processing.max st !! d = Some (columnMax series d None) /\
  Processing.mean st !! d
  = Some (Double.div (columnSum series d (Double.Fin 0))
            (Double.Fin (inject_Z (Z.of_nat (length series))))) /\
  length (Processing.min st) = length first /\
  length (Processing.max st) = length first /\
  length (Processing.mean st) = length first /\
  length (Processing.std st) = length first.
Proof.
  intros Hd series st. subst st series. unfold Processing.computeStats.
  cbv beta iota zeta.
  set (series := first :: rest).
  cbn [Processing.min Processing.max Processing.mean Processing.std].
  destruct (statsFold_spec (length first) series
              {| Processing.smin := replicate (length first) None;
                 Processing.smax := replicate (length first) None;
                 Processing.ssum := replicate (length first) (Double.Fin 0) |})
    as (L1 & L2 & L3 & G).
  cbv zeta in *. destruct (G d Hd) as (G1 & G2 & G3). clear G.
  cbn [Processing.smin Processing.smax Processing.ssum] in G1, G2, G3, L1, L2, L3.
  rewrite lookup_replicate_2 in G1 by exact Hd.
  rewrite lookup_replicate_2 in G2 by exact Hd.
  rewrite lookup_replicate_2 in G3 by exact Hd.
  rewrite length_replicate in L1. rewrite length_replicate in L2.
  rewrite length_replicate in L3.
  cbn [fmap option_fmap option_map] in G1, G2, G3.
  split; [exact G1 |]. split; [exact G2 |].
  split; [rewrite lookup_map, G3; reflexivity |].
  rewrite !length_map, varFold_length, length_replicate.
  repeat split; assumption.
Qed.

(** The extremes of a column of a series that is not empty. *)
Lemma column_extremes (series : list (list Q)) (d : nat) :
  series <> [] ->
  exists lo hi,
    columnMin series d None = Some lo /\ columnMax series d None = Some hi /\
    (forall row, In row series ->
       (lo <= Processing.cell row d)%Q /\ (Processing.cell row d <= hi)%Q) /\
    (exists row, In row series /\ Processing.cell row d = lo) /\
    (exists row, In row series /\ Processing.cell row d = hi).
Proof.
  intros Hne.
  pose proof (columnMin_spec series d None) as Hmin.
  pose proof (columnMax_spec series d None) as Hmax.
  destruct (columnMin series d None) as [lo |]; [| now destruct Hmin].
  destruct (columnMax series d None) as [hi |]; [| now destruct Hmax].
  destruct Hmin as (Hlo & _ & [Hwlo | ?]); [| discriminate].
  destruct Hmax as (Hhi & _ & [Hwhi | ?]); [| discriminate].
  exists lo, hi. split; [reflexivity |]. split; [reflexivity |].
  split; [intros row Hrow; split; [now apply Hlo | now apply Hhi] |].
  split; assumption.
Qed.

(** X14. For a series that is not empty and any column [d] of its first
    row, [computeStats] reports a finite minimum and maximum: each is the
    value of some row in that column (a missing value counting as 0) and
    no row has a smaller or larger one.  The mean is the sum of the
    column, taken in the order of the rows with every addition rounded to
    a double, over the number of rows, again rounded.  The four arrays
    have one entry for each column of the first row. *)
Theorem computeStats_brackets_columns (sqrt : Double.number -> Double.number)
    (first : list Q) (rest : list (list Q)) (d : nat) :
  (d < length first)%nat ->
  let series := first :: rest in
  let st := Processing.computeStats sqrt series in
  exists lo hi,
    Processing.min st !! d = Some (Some lo) /\
    Processing.max st !! d = Some (Some hi) /\
    (forall row, In row series ->
       (lo <= Processing.cell row d)%Q /\ (Processing.cell row d <= hi)%Q) /\
    (exists row, In row series /\ Processing.cell row d = lo) /\
    (exists row, In row series /\ Processing.cell row d = hi) /\
    Processing.mean st !! d
    = Some (Double.div (columnSum series d (Double.Fin 0))
              (Double.Fin (inject_Z (Z.of_nat (length series))))) /\
    length (Processing.min st) = length first /\
    length (Processing.max st) = length first /\
    length (Processing.mean st) = length first /\
    length (Processing.std st) = length first.
Proof.
  intros Hd series st.
  destruct (computeStats_columns sqrt first rest d Hd)
    as (Hmin & Hmax & Hmean & L1 & L2 & L3 & L4).
  fold series in Hmin, Hmax, Hmean. fold st in Hmin, Hmax, Hmean, L1, L2, L3, L4.
  destruct (column_extremes series d) as (lo & hi & Elo & Ehi & Hall & Hwlo & Hwhi);
    [discriminate |].
  rewrite Elo in Hmin. rewrite Ehi in Hmax.
  exists lo, hi. repeat split; try assumption; now apply Hall.
Qed.

Lemma computeStats_brackets_columns_witness :
  let series := [[3; 1]; [5]; [4; -2]]%Q in
  let st := Processing.computeStats (fun x => x) series in
  exists lo hi,
    Processing.min st !! 1%nat = Some (Some lo) /\
    Processing.max st !! 1%nat = Some (Some hi) /\
    (forall row, In row series ->
       (lo <= Processing.cell row 1)%Q /\ (Processing.cell row 1 <= hi)%Q) /\
    (exists row, In row series /\ Processing.cell row 1 = lo) /\
    (exists row, In row series /\ Processing.cell row 1 = hi) /\
    Processing.mean st !! 1%nat
    = Some (Double.div (columnSum series 1 (Double.Fin 0))
              (Double.Fin (inject_Z (Z.of_nat (length series))))) /\
    length (Processing.min st) = 2%nat /\
    length (Processing.max st) = 2%nat /\
    length (Processing.mean st) = 2%nat /\
    length (Processing.std st) = 2%nat.
Proof.
  apply (computeStats_brackets_columns (fun x => x) [3; 1]%Q [[5]; [4; -2]]%Q 1).
  cbn. lia.
Defined.

(** The mean need not lie between the minimum and the maximum: three
    rows holding the double nearest to 0.1 have the mean
    0.10000000000000002, above that value. *)
Example computeStats_mean_above_max :
  let x := (3602879701896397 # 36028797018963968)%Q in
  let st := Processing.computeStats (fun x => x) [[x]; [x]; [x]] in
  Processing.max st !! 0%nat = Some (Some x) /\
  exists m, Processing.mean st !! 0%nat = Some (Double.Fin m) /\
            (m == 7205759403792795 # 72057594037927936)%Q /\ (x < m)%Q.
Proof.
  cbv zeta. split; [vm_compute; reflexivity |].
  eexists. split; [vm_compute; reflexivity |].
  split; vm_compute; reflexivity.
Qed.

(** ** Normalisation *)

Lemma overflow_gt_1 : (1 < Double.overflow)%Q.
Proof.
  unfold Double.overflow. change 1%Q with (inject_Z 1). rewrite <- Zlt_Qlt.
  apply Z.pow_gt_1; lia.
Qed.

(** The double for an exact result of moderate size is finite. *)
Lemma ofQ_finite (q : Q) :
  (- Double.overflow < Double.round64 q)%Q ->
  (Double.round64 q < Double.overflow)%Q ->
  Double.ofQ q = Double.Fin (Double.round64 q).
Proof.
  intros Hlo Hhi. unfold Double.ofQ.
  destruct (Qle_bool Double.overflow (Double.round64 q)) eqn:E1.
  { apply Qle_bool_iff in E1. lra. }
  destruct (Qle_bool (Double.round64 q) (- Double.overflow)) eqn:E2.
  { apply Qle_bool_iff in E2. lra. }
  reflexivity.
Qed.

(** The double for an exact result that is not negative. *)
Lemma ofQ_nonneg (q : Q) :
  (0 <= q)%Q ->
  (Double.ofQ q = Double.Fin (Double.round64 q)
   /\ (Double.round64 q < Double.overflow)%Q)
  \/ (Double.ofQ q = Double.Inf /\ (Double.overflow <= Double.round64 q)%Q).
Proof.
  intros Hq. pose proof (round64_nonneg q Hq) as Hr. pose proof overflow_gt_1 as Ho.
  destruct (Qlt_le_dec (Double.round64 q) Double.overflow) as [Hlt | Hge].
  - left. split; [apply ofQ_finite; lra | exact Hlt].
  - right. split; [| exact Hge]. unfold Double.ofQ.
    apply Qle_bool_iff in Hge. now rewrite Hge.
Qed.

Lemma Qeq_bool_false_neq (x y : Q) : Qeq_bool x y = false -> ~ (x == y)%Q.
Proof. intros H Heq. apply Qeq_bool_iff in Heq. congruence. Qed.

(** A quotient of two doubles, the dividend between 0 and the divisor. *)
Lemma div_unit_interval (a b : Q) :
  (0 <= a)%Q -> (a <= b)%Q -> ~ (b == 0)%Q ->
  exists q, Double.div (Double.Fin a) (Double.Fin b) = Double.Fin q /\
            (0 <= q)%Q /\ (q <= 1)%Q /\ ((a == 0)%Q -> (q == 0)%Q) /\
            ((a == b)%Q -> (q == 1)%Q).
Proof.
  intros Ha Hab Hb. pose proof overflow_gt_1 as Ho.
  assert (Hpos : (0 < b)%Q) by lra.
  assert (H0 : (0 <= a / b)%Q) by (apply Qle_shift_div_l; lra).
  assert (H1 : (a / b <= 1)%Q) by (apply Qle_shift_div_r; lra).
  destruct (round64_unit_interval (a / b) H0 H1) as [R0 R1].
  exists (Double.round64 (a / b)). unfold Double.div.
  destruct (Qeq_bool b 0) eqn:E; [apply Qeq_bool_iff in E; contradiction |].
  split; [apply ofQ_finite; lra |]. split; [exact R0 |]. split; [exact R1 |].
  split.
  - intros Hz. assert (Hq : (a / b == 0)%Q) by (rewrite Hz; field; lra).
    rewrite Hq. reflexivity.
  - intros Heq. assert (Hq : (a / b == 1)%Q) by (rewrite Heq; field; lra).
    rewrite Hq. vm_compute. reflexivity.
Qed.

(** X15. Min-max normalisation maps a series into [0, 1], unless the
    range of a column overflows.  Take any row and any column the first
    row has, with [lo] and [hi] the minimum and maximum of the column.
    When the difference [hi - lo] is a finite double, the normalised cell
    is a finite number between 0 and 1; it is 0 where the column has its
    minimum and, unless that difference is 0, 1 where it has its maximum.
    When [hi - lo] overflows to [Infinity], the cell is 0 or [NaN].  The
    result has the rows of the input, each with its length. *)
Theorem normalize_minmax_in_unit_interval
    (sqrt : Double.number -> Double.number) (hypot : list Q -> Double.number)
    (first : list Q) (rest : list (list Q)) (r i : nat) (row : list Q) (v : Q) :
  (first :: rest) !! r = Some row -> row !! i = Some v ->
  (i < length first)%nat ->
  let series := first :: rest in
  let result := Processing.normalizeSeries sqrt hypot series Processing.MinMax in
  let st := Processing.computeStats sqrt series in
  exists row' c lo hi,
    result !! r = Some row' /\ length row' = length row /\
    length result = length series /\
    row' !! i = Some c /\
    Processing.min st !! i = Some (Some lo) /\
    Processing.max st !! i = Some (Some hi) /\
    (lo <= v)%Q /\ (v <= hi)%Q /\
    match Double.sub (Double.Fin hi) (Double.Fin lo) with
    | Double.Fin range =>
        exists q, c = Double.Fin q /\ (0 <= q)%Q /\ (q <= 1)%Q /\
                  (v = lo -> (q == 0)%Q) /\
                  (v = hi -> ~ (range == 0)%Q -> (q == 1)%Q)
    | Double.Inf => c = Double.Fin 0 \/ c = Double.NaN
    | _ => False
    end.
Proof.
  intros Hr Hi Hlt series result st. subst result st series.
  destruct (computeStats_columns sqrt first rest i Hlt) as (Hmin & Hmax & _).
  cbv zeta in Hmin, Hmax.
  destruct (column_extremes (first :: rest) i) as (lo & hi & Elo & Ehi & Hall & _);
    [discriminate |].
  rewrite Elo in Hmin. rewrite Ehi in Hmax.
  assert (Hv : Processing.cell row i = v).
  { unfold Processing.cell. now rewrite Hi. }
  assert (Hrow : In row (first :: rest)).
  { apply list_elem_of_In. eapply list_elem_of_lookup_2. exact Hr. }
  destruct (Hall row Hrow) as [Hlo Hhi]. rewrite Hv in Hlo, Hhi.
  unfold Processing.normalizeSeries. cbv beta iota zeta.
  eexists. exists (Processing.minmaxCell (Some (Some lo)) (Some (Some hi)) v), lo, hi.
  split; [rewrite lookup_map, Hr; reflexivity |].
  split; [apply length_imap |].
  split; [apply length_map |].
  split.
  { rewrite list_lookup_imap, Hi. cbn [fmap option_fmap option_map].
    now rewrite Hmin, Hmax. }
  split; [exact Hmin |]. split; [exact Hmax |].
  split; [exact Hlo |]. split; [exact Hhi |].
  unfold Processing.minmaxCell. cbn [Processing.bound].
  change (Double.sub (Double.Fin hi) (Double.Fin lo)) with (Double.ofQ (hi + - lo)).
  change (Double.sub (Double.Fin v) (Double.Fin lo)) with (Double.ofQ (v + - lo)).
  pose proof overflow_gt_1 as Ho.
  assert (Hmono : (Double.round64 (v + - lo) <= Double.round64 (hi + - lo))%Q)
    by (apply round64_mono; lra).
  assert (HA0 : (0 <= Double.round64 (v + - lo))%Q) by (apply round64_nonneg; lra).
  destruct (ofQ_nonneg (hi + - lo)) as [[-> HB] | [-> HB]]; [lra | |].
  - (* the range is finite *)
    rewrite (ofQ_finite (v + - lo)) by lra.
    set (a := Double.round64 (v + - lo)) in *.
    set (b := Double.round64 (hi + - lo)) in *.
    unfold Double.orOne. destruct (Qeq_bool b 0) eqn:E.
    + apply Qeq_bool_iff in E.
      destruct (div_unit_interval a 1) as (q & Hq & Q0 & Q1 & Qz & _);
        [exact HA0 | lra | discriminate |].
      exists q. split; [exact Hq |]. split; [exact Q0 |]. split; [exact Q1 |].
      split; [intros _; apply Qz; lra | intros _ Hne; contradiction].
    + apply Qeq_bool_false_neq in E.
      destruct (div_unit_interval a b HA0 Hmono E) as (q & Hq & Q0 & Q1 & Qz & Qo).
      exists q. split; [exact Hq |]. split; [exact Q0 |]. split; [exact Q1 |].
      split.
      * intros ->. apply Qz. subst a.
        assert (Hz : (lo + - lo == 0)%Q) by ring. rewrite Hz. reflexivity.
      * intros -> _. apply Qo. reflexivity.
  - (* the range overflows *)
    cbn [Double.orOne].
    destruct (ofQ_nonneg (v + - lo)) as [[-> _] | [-> _]]; [lra | |].
    + left. reflexivity.
    + right. reflexivity.
Qed.

Lemma normalize_minmax_in_unit_interval_witness :
  let series := [[3; 1]; [5]; [4; -2]]%Q in
  let result := Processing.normalizeSeries (fun x => x) (fun _ => Double.Fin 1) series
                  Processing.MinMax in
  let st := Processing.computeStats (fun x => x) series in
  exists row' c lo hi,
    result !! 2%nat = Some row' /\ length row' = 2%nat /\
    length result = 3%nat /\
    row' !! 0%nat = Some c /\
    Processing.min st !! 0%nat = Some (Some lo) /\
    Processing.max st !! 0%nat = Some (Some hi) /\
    (lo <= 4)%Q /\ (4 <= hi)%Q /\
    match Double.sub (Double.Fin hi) (Double.Fin lo) with
    | Double.Fin range =>
        exists q, c = Double.Fin q /\ (0 <= q)%Q /\ (q <= 1)%Q /\
                  (4%Q = lo -> (q == 0)%Q) /\
                  (4%Q = hi -> ~ (range == 0)%Q -> (q == 1)%Q)
    | Double.Inf => c = Double.Fin 0 \/ c = Double.NaN
    | _ => False
    end.
Proof.
  apply (normalize_minmax_in_unit_interval (fun x => x) (fun _ => Double.Fin 1)
           [3; 1]%Q [[5]; [4; -2]]%Q 2 0 [4; -2]%Q 4%Q).
  - reflexivity.
  - reflexivity.
  - cbn. lia.
Defined.

(** The overflow case does occur: for the one-column series
    [2^1023, -2^1023] the range is [Infinity], and the cells are [NaN]
    and 0. *)
Example normalize_minmax_overflow :
  Processing.normalizeSeries (fun x => x) (fun _ => Double.Fin 1)
    [[inject_Z (2 ^ 1023)]; [inject_Z (- 2 ^ 1023)]] Processing.MinMax
  = [[Double.NaN]; [Double.Fin 0]].
Proof. vm_compute. reflexivity. Qed.

(** ** Folds *)

Lemma fold_left_snoc_inv {X S} (P : list X -> S -> Prop) (f : S -> X -> S)
    (l : list X) (s0 : S) :
  P [] s0 ->
  (forall pre x s, P pre s -> P (pre ++ [x]) (f s x)) ->
  P l (fold_left f l s0).
Proof.
  revert P s0. induction l as [| x l IH]; intros P s0 H0 Hstep; [exact H0 |].
  cbn [fold_left]. apply (IH (fun pre s => P (x :: pre) s)).
  - apply (Hstep [] x s0 H0).
  - intros pre y s Hs. apply (Hstep (x :: pre) y s Hs).
Qed.

(** ** The chart data *)

Lemma strideOf_spec (len : nat) :
  (1 <= SensorChart.strideOf len)%nat /\
  (len <= 2000 * SensorChart.strideOf len)%nat /\
  ((len <= 2000)%nat -> SensorChart.strideOf len = 1%nat).
Proof.
  unfold SensorChart.strideOf, SensorChart.MAX_POINTS.
  set (q := (inject_Z (Z.of_nat len) / 2000)%Q).
  pose proof (Qle_ceiling q) as Hup.
  assert (Hq : (inject_Z (Z.of_nat len) == q * 2000)%Q) by (unfold q; field).
  split; [lia |]. split.
  - assert (H : (inject_Z (Z.of_nat len) <= inject_Z (Qceiling q * 2000))%Q).
    { rewrite inject_Z_mult, Hq. change (inject_Z 2000) with 2000%Q.
      apply Qmult_le_compat_r; [exact Hup | lra]. }
    rewrite <- Zle_Qle in H. lia.
  - intros Hsmall.
    assert (H : (Qceiling q <= 1)%Z).
    { rewrite <- (Qceiling_Z 1). apply Qceiling_resp_le.
      apply Qle_shift_div_r; [lra |].
      change (inject_Z 1 * 2000)%Q with (inject_Z 2000).
      rewrite <- Zle_Qle. lia. }
    lia.
Qed.

(** The number of indices [i, i + s, i + 2 s, ...] below [len]. *)
Lemma strideCount_step (len s i : nat) :
  (1 <= s)%nat -> (i < len)%nat ->
  ((len - i + s - 1) / s = S ((len - (i + s) + s - 1) / s))%nat.
Proof.
  intros Hs Hi. destruct (decide (i + s <= len)%nat) as [Hle | Hgt].
  - replace (len - i + s - 1)%nat with ((len - (i + s) + s - 1) + 1 * s)%nat by lia.
    rewrite Nat.div_add by lia. lia.
  - replace (len - (i + s) + s - 1)%nat with (s - 1)%nat by lia.
    rewrite (Nat.div_small (s - 1) s) by lia.
    symmetry. apply (Nat.div_unique _ s 1 (len - i - 1)); lia.
Qed.

Lemma strideLoop_spec (series : list (list Q)) (s : nat) (denom : Q) :
  (1 <= s)%nat ->
  forall fuel i out,
    (length series <= i + fuel)%nat ->
    exists pts,
      SensorChart.strideLoop fuel series s denom i out = out ++ pts /\
      length pts = ((length series - i + s - 1) / s)%nat /\
      forall k, (k < length pts)%nat ->
        exists p, series !! (i + k * s)%nat = Some p /\
                  pts !! k = Some (SensorChart.chartPoint denom (i + k * s) p).
Proof.
  intros Hs. induction fuel as [| fuel IH]; intros i out Hfuel.
  - exists []. cbn [SensorChart.strideLoop]. split; [now rewrite app_nil_r |].
    split; [| intros k Hk; cbn [length] in Hk; lia].
    replace (length series - i + s - 1)%nat with (s - 1)%nat by lia.
    now rewrite Nat.div_small by lia.
  - cbn [SensorChart.strideLoop]. destruct (series !! i) as [p |] eqn:Hp.
    + pose proof (lookup_lt_Some _ _ _ Hp) as Hi.
      destruct (IH (i + s)%nat (out ++ [SensorChart.chartPoint denom i p]))
        as (pts & Hrun & Hlen & Hpts); [lia |].
      exists (SensorChart.chartPoint denom i p :: pts).
      split; [rewrite Hrun, <- app_assoc; reflexivity |].
      split; [cbn [length]; rewrite Hlen; symmetry; now apply strideCount_step |].
      intros [| k] Hk.
      * exists p. rewrite Nat.add_0_r. split; [exact Hp | reflexivity].
      * cbn [length] in Hk. destruct (Hpts k) as (p' & Hp' & Hk'); [lia |].
        exists p'. replace (i + S k * s)%nat with (i + s + k * s)%nat by lia.
        split; [exact Hp' | exact Hk'].
    + apply lookup_ge_None in Hp. exists []. split; [now rewrite app_nil_r |].
      split; [| intros k Hk; cbn [length] in Hk; lia].
      replace (length series - i + s - 1)%nat with (s - 1)%nat by lia.
      now rewrite Nat.div_small by lia.
Qed.

Lemma chartPoint_t (denom : Q) (i : nat) (p : list Q) :
  SensorChart.t (SensorChart.chartPoint denom i p)
  = (inject_Z (Z.of_nat i) / denom)%Q.
Proof.
  unfold SensorChart.chartPoint. now destruct (length p =? 4)%nat.
Qed.

(** X17. The chart data of a series that is not empty are samples of
    the series in the order of their frames: the point at position [k]
    of the data is the point of a frame [idx k], the frames increase
    strictly with [k], the first point is frame 0 and the last point is
    the last frame of the series; there are at most 2001 points; and a
    series of at most 2000 frames is shown in full. *)
Theorem chart_data_spans_series (first : list Q) (rest : list (list Q))
    (frameRate : Q) :
  let series := first :: rest in
  let denom := Qmax frameRate 1 in
  let points := SensorChart.data series frameRate in
  exists idx : nat -> nat,
    (forall k, (k < length points)%nat ->
       exists p, series !! idx k = Some p /\
                 points !! k = Some (SensorChart.chartPoint denom (idx k) p)) /\
    (forall j k, (j < k)%nat -> (k < length points)%nat -> (idx j < idx k)%nat) /\
    (1 <= length points <= 2001)%nat /\
    idx 0%nat = 0%nat /\
    idx (length points - 1)%nat = length rest /\
    ((length series <= 2000)%nat ->
     points = imap (SensorChart.chartPoint denom) series).
Proof.
  intros series denom points. subst points. unfold SensorChart.data.
  subst series. cbv beta iota zeta. set (series := first :: rest).
  set (len := length series). set (s := SensorChart.strideOf len).
  destruct (strideOf_spec len) as (Hs & Hcover & Hone). fold s in Hs, Hcover, Hone.
  destruct (strideLoop_spec series s (Qmax frameRate 1) Hs len 0%nat [])
    as (pts & Hrun & Hlen & Hpts); [unfold len; lia |].
  fold len in Hlen. rewrite Hrun. cbn [app].
  replace (len - 0 + s - 1)%nat with (len + s - 1)%nat in Hlen by lia.
  assert (Hlen1 : (1 <= len)%nat) by (unfold len, series; cbn [length]; lia).
  set (m := ((len + s - 1) / s)%nat) in *.
  assert (Hm : (1 <= m)%nat /\ ((m - 1) * s <= len - 1)%nat
               /\ (len - 1 < m * s)%nat /\ (m <= 2000)%nat).
  { pose proof (Nat.div_mod_eq (len + s - 1) s) as Hdiv. fold m in Hdiv.
    pose proof (Nat.mod_upper_bound (len + s - 1) s) as Hmod.
    assert (s <> 0)%nat as Hs0 by lia. specialize (Hmod Hs0).
    assert (1 <= m)%nat by (destruct m; [| lia]; nia).
    repeat split; try assumption; nia. }
  destruct Hm as (Hm1 & Hlow & Hhigh & Hcap).
  assert (Hrest : length rest = (len - 1)%nat)
    by (unfold len, series; cbn [length]; lia).
  destruct ((len - 1) mod s =? 0)%nat eqn:Hmodz.
  - (* the stride lands on the last frame *)
    apply Nat.eqb_eq in Hmodz.
    assert (Hlast : ((m - 1) * s = len - 1)%nat).
    { pose proof (Nat.div_mod_eq (len - 1) s) as Hd. rewrite Hmodz in Hd.
      assert ((len - 1) / s = m - 1)%nat; [| nia].
      symmetry. apply (Nat.div_unique _ s _ (len - 1 - (m - 1) * s)); nia. }
    exists (fun k => (k * s)%nat). split.
    { intros k Hk. destruct (Hpts k Hk) as (p & Hp & Hk'). exists p. now split. }
    split; [intros j k Hjk _; nia |].
    rewrite Hlen. split; [lia |]. split; [reflexivity |].
    split; [rewrite Hrest; exact Hlast |].
    intros Hsmall. fold len in Hsmall. specialize (Hone Hsmall).
    apply list_eq. intros k. rewrite list_lookup_imap.
    destruct (decide (k < length pts)%nat) as [Hk | Hk].
    + destruct (Hpts k Hk) as (p & Hp & ->).
      rewrite Hone, Nat.mul_1_r in *. cbn [Nat.add] in *. now rewrite Hp.
    + rewrite !lookup_ge_None_2; [reflexivity | | lia].
      fold len. rewrite Hlen in Hk. unfold m in Hk. rewrite Hone in Hk.
      rewrite Nat.div_1_r in Hk. lia.
  - (* the last frame is added *)
    apply Nat.eqb_neq in Hmodz.
    assert (Hgap : ((m - 1) * s < len - 1)%nat).
    { destruct (decide ((m - 1) * s = len - 1)%nat) as [Heq | Hne]; [| lia].
      exfalso. apply Hmodz. rewrite <- Heq. apply Nat.Div0.mod_mul. }
    assert (Hs2 : (2 <= s)%nat).
    { destruct (decide (s = 1)%nat) as [-> | ?]; [| lia].
      exfalso. apply Hmodz. apply Nat.mod_1_r. }
    destruct (lookup_lt_is_Some_2 series (len - 1)) as [pl Hpl]; [fold len; lia |].
    rewrite Hpl.
    exists (fun k => if decide (k < m)%nat then (k * s)%nat else (len - 1)%nat).
    rewrite length_app, Hlen. cbn [length]. split.
    { intros k Hk. destruct (decide (k < m)%nat) as [Hkm | Hkm].
      - destruct (Hpts k) as (p & Hp & Hk'); [lia |]. exists p.
        split; [exact Hp |]. rewrite lookup_app_l by lia. exact Hk'.
      - exists pl. split; [exact Hpl |]. rewrite lookup_app_r by lia.
        replace (k - length pts)%nat with 0%nat by lia. reflexivity. }
    split.
    { intros j k Hjk Hk.
      destruct (decide (j < m)%nat), (decide (k < m)%nat); try lia; nia. }
    split; [lia |].
    split; [destruct (decide (0 < m)%nat); [reflexivity | lia] |].
    split.
    { replace (m + 1 - 1)%nat with m by lia.
      destruct (decide (m < m)%nat); [lia | now rewrite Hrest]. }
    intros Hsmall. fold len in Hsmall. specialize (Hone Hsmall). lia.
Qed.

(** ** The performance monitor *)

(** X18. Over any sequence of animation frames after the hook is
    mounted, the two callbacks alternate, starting with
    [onLowPerformance]: the calls at even positions are low-performance
    calls, each reporting a rate below [targetFps * lowPerformanceThreshold],
    the calls at odd positions are recovery calls, each reporting a rate
    not below it, and the flag [isLowPerformanceRef] says whether the
    last call was a low-performance call. *)
Theorem monitor_callbacks_alternate (o : PerformanceMonitor.Options) (start : Q)
    (times : list Q) :
  let m := PerformanceMonitor.monitorRun o times
             (PerformanceMonitor.initialMonitor start) in
  let threshold := (PerformanceMonitor.targetFps o
                    * PerformanceMonitor.lowPerformanceThreshold o)%Q in
  PerformanceMonitor.isLowPerformanceRef m
  = Nat.odd (length (PerformanceMonitor.calls m)) /\
  forall i c, PerformanceMonitor.calls m !! i = Some c ->
    match c with
    | PerformanceMonitor.OnLowPerformance mt =>
        Nat.even i = true /\
        (inject_Z (PerformanceMonitor.fps mt) < threshold)%Q /\
        PerformanceMonitor.isLowPerformance mt = true
    | PerformanceMonitor.OnPerformanceRecover mt =>
        Nat.odd i = true /\
        (threshold <= inject_Z (PerformanceMonitor.fps mt))%Q /\
        PerformanceMonitor.isLowPerformance mt = false
    end.
Proof.
  cbv zeta. unfold PerformanceMonitor.monitorRun.
  apply (fold_left_snoc_inv
           (fun (_ : list Q) m =>
              PerformanceMonitor.isLowPerformanceRef m
              = Nat.odd (length (PerformanceMonitor.calls m)) /\
              forall i c, PerformanceMonitor.calls m !! i = Some c ->
                match c with
                | PerformanceMonitor.OnLowPerformance mt =>
                    Nat.even i = true /\
                    (inject_Z (PerformanceMonitor.fps mt)
                     < PerformanceMonitor.targetFps o
                       * PerformanceMonitor.lowPerformanceThreshold o)%Q /\
                    PerformanceMonitor.isLowPerformance mt = true
                | PerformanceMonitor.OnPerformanceRecover mt =>
                    Nat.odd i = true /\
                    (PerformanceMonitor.targetFps o
                     * PerformanceMonitor.lowPerformanceThreshold o
                     <= inject_Z (PerformanceMonitor.fps mt))%Q /\
                    PerformanceMonitor.isLowPerformance mt = false
                end)).
  - split; [reflexivity |]. intros i c H.
    unfold PerformanceMonitor.initialMonitor in H.
    cbn [PerformanceMonitor.calls] in H. rewrite lookup_nil in H. discriminate.
  - intros _ now m [Hflag Hcalls]. unfold PerformanceMonitor.updateMetrics.
    destruct (Qle_bool 1000 (now - PerformanceMonitor.lastTimeRef m));
      [| split; assumption].
    set (rate := PerformanceMonitor.round _).
    destruct (Qltb (inject_Z rate) _) eqn:Hlow;
      destruct (PerformanceMonitor.isLowPerformanceRef m) eqn:Hwas;
      cbn [andb negb PerformanceMonitor.isLowPerformanceRef PerformanceMonitor.calls];
      try (split; assumption).
    + (* low-performance call *)
      apply Qltb_true in Hlow. rewrite length_app. cbn [length].
      split; [rewrite Nat.add_1_r, Nat.odd_succ, <- Nat.negb_odd, <- Hflag;
              reflexivity |].
      intros i c Hi. apply lookup_app_Some in Hi as [Hi | [Hge Hi]];
        [now apply Hcalls |].
      apply list_lookup_singleton_Some in Hi as [Hi <-].
      assert (i = length (PerformanceMonitor.calls m)) as -> by lia.
      split; [rewrite <- Nat.negb_odd, <- Hflag; reflexivity |].
      split; [exact Hlow | reflexivity].
    + (* recovery call *)
      apply Qltb_false in Hlow. rewrite length_app. cbn [length].
      split; [rewrite Nat.add_1_r, Nat.odd_succ, <- Nat.negb_odd, <- Hflag;
              reflexivity |].
      intros i c Hi. apply lookup_app_Some in Hi as [Hi | [Hge Hi]];
        [now apply Hcalls |].
      apply list_lookup_singleton_Some in Hi as [Hi <-].
      assert (i = length (PerformanceMonitor.calls m)) as -> by lia.
      split; [rewrite <- Hflag; reflexivity |].
      split; [exact Hlow | reflexivity].
Qed.
